(** * simple-message-broker: record-batch codec, storage coordinator and
      cached object-store backing

    A shallow embedding of
      - internal/recordbatch/recordbatch.go  (module [recordbatch]),
      - internal/storage/storage.go          (module [storage]: the
        coordinator [Storage] and the object-store backing [S3Storage]),
    followed by the properties of the specification that concern them.

    Conventions.  Go's fixed-width integers are values of [Z] with the
    wrap-around written out ([uint32], [uint64]); byte slices are
    [list byte]; Go's [(T, error)] is [result T], a bare [error] is
    [option error]; a method with a pointer receiver takes the receiver's
    state and returns the new one. *)

From Stdlib Require Import ZArith Lia List Strings.Byte String Ascii.
From stdpp Require Import base gmap strings list sorting.

Open Scope Z_scope.

(** ** Machine integers *)

Definition uint32 (z : Z) : Z := z mod 2 ^ 32.
Definition uint64 (z : Z) : Z := z mod 2 ^ 64.
Definition int16 (z : Z) : Z :=
  let u := z mod 2 ^ 16 in if u <? 2 ^ 15 then u else u - 2 ^ 16.
Definition int64 (z : Z) : Z :=
  let u := z mod 2 ^ 64 in if u <? 2 ^ 63 then u else u - 2 ^ 64.

(** Go's [len], as an [int]. *)
Definition len {A : Type} (l : list A) : Z := Z.of_nat (length l).

Definition byte_of_Z (z : Z) : byte :=
  match Byte.of_N (Z.to_N (z mod 256)) with
  | Some b => b
  | None => x00
  end.

Definition Z_of_byte (b : byte) : Z := Z.of_N (Byte.to_N b).

(** ** encoding/binary, little endian *)

(** [le_put n v]: the [n] low-order bytes of [v], least significant first
    (two's complement for a negative [v]). *)
Fixpoint le_put (n : nat) (v : Z) : list byte :=
  match n with
  | O => []
  | S n' => byte_of_Z v :: le_put n' (v / 256)
  end.

Fixpoint le_get (bs : list byte) : Z :=
  match bs with
  | [] => 0
  | b :: bs' => Z_of_byte b + 256 * le_get bs'
  end.

Definition put_uint32s (vs : list Z) : list byte := flat_map (le_put 4) vs.

Fixpoint get_uint32s (n : nat) (bs : list byte) : list Z :=
  match n with
  | O => []
  | S n' => le_get (take 4 bs) :: get_uint32s n' (drop 4 bs)
  end.

(** ** Errors and results *)

(** The system and SDK calls that can fail; a fault plan says which of them
    fail.  A write is named by the file offset it starts at. *)
Inductive syscall :=
| sys_mkdir | sys_create | sys_open | sys_write (off : Z)
| sys_read | sys_seek | sys_close
| call_PutObject | call_GetObject | call_ListObjects.

Definition fault_plan := syscall -> bool.
Definition no_faults : fault_plan := fun _ => false.

(** Error values, up to the text of the messages wrapped around them: an
    [error] is the root cause that [errors.Is] finds.  The last two
    constructors are run-time panics rather than error values. *)
Inductive error :=
| recordbatch_ErrOutOfBounds
| storage_ErrOutOfBounds
| io_EOF
| io_ErrUnexpectedEOF
| ErrFileAlreadyExists
| ErrNoSuchKey
| ErrInvalidSeek
| ErrSyscall (c : syscall)
| strconv_ErrSyntax
| strconv_ErrRange
| panic_slice_bounds
| panic_index.

(** The specification's error kind [OutOfBounds]. *)
Definition is_OutOfBounds (e : error) : bool :=
  match e with
  | recordbatch_ErrOutOfBounds | storage_ErrOutOfBounds => true
  | _ => false
  end.

Inductive result (A : Type) :=
| Ok (a : A)
| Err (e : error).
Arguments Ok {A} a.
Arguments Err {A} e.

(** ** io *)

(** [io.Writer]: [io_Write w p] is the writer after the call and the error
    the call returned. *)
Class io_Writer (W : Type) := io_Write : W -> list byte -> W * option error.

(** [bytes.Buffer]. *)
Definition Buffer := list byte.
#[global] Instance Buffer_Writer : io_Writer Buffer :=
  fun buf p => (buf ++ p, None).

(** [io.ReadSeeker] over a regular file or a byte slice: the contents, the
    current offset and the faults of the device. *)
Record ReadSeeker := mkReadSeeker {
  rs_data : list byte;
  rs_pos : Z;
  rs_faults : fault_plan
}.

(** [bytes.NewReader]. *)
Definition bytes_NewReader (b : list byte) : ReadSeeker :=
  mkReadSeeker b 0 no_faults.

Definition rs_rest (r : ReadSeeker) : list byte :=
  drop (Z.to_nat (rs_pos r)) (rs_data r).

Definition rs_advance (r : ReadSeeker) (n : Z) : ReadSeeker :=
  mkReadSeeker (rs_data r) (rs_pos r + n) (rs_faults r).

(** [r.Seek(off, io.SeekStart)]. *)
Definition rs_Seek (r : ReadSeeker) (off : Z) : option error * ReadSeeker :=
  if rs_faults r sys_seek then (Some (ErrSyscall sys_seek), r)
  else if off <? 0 then (Some ErrInvalidSeek, r)
  else (None, mkReadSeeker (rs_data r) off (rs_faults r)).

(** [io.ReadFull(r, buf)] with [len(buf) = n]. *)
Definition io_ReadFull (r : ReadSeeker) (n : Z) : result (list byte) * ReadSeeker :=
  if n <=? 0 then (Ok [], r)
  else if rs_faults r sys_read then (Err (ErrSyscall sys_read), r)
  else
    let rest := rs_rest r in
    if len rest =? 0 then (Err io_EOF, r)
    else if len rest <? n then (Err io_ErrUnexpectedEOF, rs_advance r (len rest))
    else (Ok (take (Z.to_nat n) rest), rs_advance r n).

(** [io.ReadAll(r)]. *)
Definition io_ReadAll (r : ReadSeeker) : result (list byte) * ReadSeeker :=
  if rs_faults r sys_read then (Err (ErrSyscall sys_read), r)
  else (Ok (rs_rest r), rs_advance r (len (rs_rest r))).

(** ** Package recordbatch *)

Module recordbatch.

Definition FileFormatMagicBytes : list byte := [x73; x6d; x62; x21].
Definition FileFormatVersion : Z := 1.
Definition headerBytes : Z := 32.
Definition recordIndexSize : Z := 4.

Record Header := mkHeader {
  MagicBytes : list byte;   (* [4]byte *)
  Version : Z;              (* int16 *)
  UnixEpochUs : Z;          (* int64 *)
  NumRecords : Z;           (* uint32 *)
  Reserved : list byte      (* [14]byte *)
}.

(** [binary.Write(w, byteOrder, header)]: the packed struct, 32 bytes. *)
Definition put_Header (h : Header) : list byte :=
  resize 4 x00 (MagicBytes h)
  ++ le_put 2 (Version h)
  ++ le_put 8 (UnixEpochUs h)
  ++ le_put 4 (NumRecords h)
  ++ resize 14 x00 (Reserved h).

(** [binary.Read(r, byteOrder, &header)] once the 32 bytes are read. *)
Definition get_Header (bs : list byte) : Header :=
  {| MagicBytes := take 4 bs;
     Version := int16 (le_get (take 2 (drop 4 bs)));
     UnixEpochUs := int64 (le_get (take 8 (drop 6 bs)));
     NumRecords := le_get (take 4 (drop 14 bs));
     Reserved := take 14 (drop 18 bs) |}.

(** The first loop of [Write]: [recordIndexes[i] = recordIndex], then
    [recordIndex += uint32(len(record))]. *)
Fixpoint recordIndexes (recordIndex : Z) (records : list (list byte)) : list Z :=
  match records with
  | [] => []
  | record :: rest =>
      recordIndex :: recordIndexes (uint32 (recordIndex + uint32 (len record))) rest
  end.

(** The second loop of [Write]: one [binary.Write] per record, stopping at
    the first error. *)
Fixpoint write_records {W} `{io_Writer W} (wtr : W) (records : list (list byte))
  : W * option error :=
  match records with
  | [] => (wtr, None)
  | record :: rest =>
      match io_Write wtr record with
      | (wtr, Some e) => (wtr, Some e)
      | (wtr, None) => write_records wtr rest
      end
  end.

(** [Write(wtr, records)]; [now] is what the clock [UnixEpochUs()] returns. *)
Definition Write {W} `{io_Writer W} (now : Z) (wtr : W) (records : list (list byte))
  : W * option error :=
  let header :=
    {| MagicBytes := FileFormatMagicBytes;
       UnixEpochUs := now;
       Version := FileFormatVersion;
       NumRecords := uint32 (len records);
       Reserved := replicate 14 x00 |} in
  match io_Write wtr (put_Header header) with
  | (wtr, Some e) => (wtr, Some e)
  | (wtr, None) =>
      match io_Write wtr (put_uint32s (recordIndexes 0 records)) with
      | (wtr, Some e) => (wtr, Some e)
      | (wtr, None) => write_records wtr records
      end
  end.

Record RecordBatch := mkRecordBatch {
  rb_Header : Header;
  recordIndex : list Z;
  rdr : ReadSeeker
}.

(** [Parse(rdr)]. *)
Definition Parse (rdr : ReadSeeker) : result RecordBatch :=
  match io_ReadFull rdr headerBytes with
  | (Err e, _) => Err e
  | (Ok bs, rdr) =>
      let header := get_Header bs in
      match io_ReadFull rdr (recordIndexSize * NumRecords header) with
      | (Err e, _) => Err e
      | (Ok bs, rdr) =>
          Ok {| rb_Header := header;
                recordIndex := get_uint32s (Z.to_nat (NumRecords header)) bs;
                rdr := rdr |}
      end
  end.

Definition with_rdr (rb : RecordBatch) (r : ReadSeeker) : RecordBatch :=
  mkRecordBatch (rb_Header rb) (recordIndex rb) r.

(** [rb.Record(recordIndex)]: the result and the batch with its reader
    where the call left it. *)
Definition Record_ (rb : RecordBatch) (i : Z) : result (list byte) * RecordBatch :=
  if NumRecords (rb_Header rb) <=? i then (Err recordbatch_ErrOutOfBounds, rb)
  else
    match recordIndex rb !! Z.to_nat i with
    | None => (Err panic_index, rb)
    | Some recordOffset =>
        let fileOffset :=
          uint32 (uint32 (headerBytes + uint32 (NumRecords (rb_Header rb) * recordIndexSize))
                  + recordOffset) in
        match rs_Seek (rdr rb) fileOffset with
        | (Some e, r) => (Err e, with_rdr rb r)
        | (None, r) =>
            if i =? uint32 (len (recordIndex rb) - 1) then
              let (res, r) := io_ReadAll r in (res, with_rdr rb r)
            else
              match recordIndex rb !! Z.to_nat (uint32 (i + 1)) with
              | None => (Err panic_index, with_rdr rb r)
              | Some next =>
                  let size := uint32 (next - recordOffset) in
                  let (res, r) := io_ReadFull r size in (res, with_rdr rb r)
              end
        end
    end.

End recordbatch.

(** ** strconv, fmt, strings, path *)

Definition digit_char (d : Z) : ascii := ascii_of_N (48 + Z.to_N d).

Definition digit_val (c : ascii) : option Z :=
  let n := Z.of_N (N_of_ascii c) in
  if (48 <=? n) && (n <=? 57) then Some (n - 48) else None.

Fixpoint format_uint (fuel : nat) (n : Z) (acc : string) : string :=
  let acc := String (digit_char (n mod 10)) acc in
  match fuel with
  | O => acc
  | S fuel' => if n / 10 =? 0 then acc else format_uint fuel' (n / 10) acc
  end.

(** [strconv.FormatUint(n, 10)]; a [uint64] has at most 20 digits. *)
Definition strconv_FormatUint (n : Z) : string := format_uint 19 n "".

Fixpoint pad_zeros (k : nat) (s : string) : string :=
  match k with
  | O => s
  | S k' => String "0" (pad_zeros k' s)
  end.

(** [fmt.Sprintf("%012d", n)] for an unsigned [n]. *)
Definition Sprintf_012d (n : Z) : string :=
  let s := strconv_FormatUint n in
  pad_zeros (12 - String.length s) s.

Fixpoint parse_uint (acc : Z) (s : string) : result Z :=
  match s with
  | EmptyString => Ok acc
  | String c s' =>
      match digit_val c with
      | None => Err strconv_ErrSyntax
      | Some d =>
          if 2 ^ 64 <=? acc * 10 + d then Err strconv_ErrRange
          else parse_uint (acc * 10 + d) s'
      end
  end.

(** [uint64y.FromString] of go-helpy: [strconv.ParseUint(s, 10, 64)]. *)
Definition uint64y_FromString (s : string) : result Z :=
  match s with
  | EmptyString => Err strconv_ErrSyntax
  | _ => parse_uint 0 s
  end.

Definition strings_HasPrefix (s p : string) : bool := String.prefix p s.

Definition strings_HasSuffix (s suffix : string) : bool :=
  (String.length suffix <=? String.length s)%nat
  && String.eqb
       (substring (String.length s - String.length suffix) (String.length suffix) s)
       suffix.

(** [strings.CutPrefix(s, p)], first component. *)
Definition strings_CutPrefix (s p : string) : string :=
  if String.prefix p s
  then substring (String.length p) (String.length s - String.length p) s
  else s.

Definition is_slash (c : ascii) : bool := Ascii.eqb c "/".

Fixpoint drop_slashes (cs : list ascii) : list ascii :=
  match cs with
  | c :: cs' => if is_slash c then drop_slashes cs' else cs
  | [] => []
  end.

Fixpoint until_slash (cs : list ascii) : list ascii :=
  match cs with
  | c :: cs' => if is_slash c then [] else c :: until_slash cs'
  | [] => []
  end.

(** [path.Base]: the last element of the path, trailing slashes removed. *)
Definition path_Base (p : string) : string :=
  match list_ascii_of_string p with
  | [] => "."
  | cs =>
      match drop_slashes (rev cs) with
      | [] => "/"
      | r => string_of_list_ascii (rev (until_slash r))
      end
  end.

(** [filepath.Join(a, b)] on elements that are already clean: empty elements
    are ignored, the others are joined by one separator.  The properties
    below use of it only that it is a function of its arguments. *)
Definition filepath_Join (a b : string) : string :=
  match a, b with
  | EmptyString, _ => b
  | _, EmptyString => a
  | _, _ => a +:+ "/" +:+ b
  end.

(** ** The world of the object-store backing: local disk and bucket *)

(** The local file system maps a path to the contents of the file; the
    object store lists its objects, [(bucket, key)] with the body, in the
    order in which a listing returns them. *)
Record World := mkWorld {
  disk : gmap string (list byte);
  s3_objects : list (string * string * list byte);
  faults : fault_plan
}.

Definition with_disk (w : World) (d : gmap string (list byte)) : World :=
  mkWorld d (s3_objects w) (faults w).
Definition with_objects (w : World) (o : list (string * string * list byte)) : World :=
  mkWorld (disk w) o (faults w).
Definition with_faults (w : World) (f : fault_plan) : World :=
  mkWorld (disk w) (s3_objects w) f.

Definition empty_world : World := mkWorld ∅ [] no_faults.

(** [*os.File]: the path it was opened at, the offset, and whether it has
    been closed. *)
Record OsFile := mkOsFile {
  f_path : string;
  f_pos : Z;
  f_closed : bool
}.

Definition file_contents (w : World) (path : string) : list byte :=
  default [] (disk w !! path).

(** The contents after writing [p] at offset [off]; a gap is zero filled. *)
Definition write_at (off : Z) (old p : list byte) : list byte :=
  let o := Z.to_nat off in
  take o old ++ replicate (o - length old) x00 ++ p ++ drop (o + length p) old.

Definition os_MkdirAll (w : World) : option error * World :=
  if faults w sys_mkdir then (Some (ErrSyscall sys_mkdir), w) else (None, w).

(** [os.Create]: creates or truncates. *)
Definition os_Create (path : string) (w : World) : result OsFile * World :=
  if faults w sys_create then (Err (ErrSyscall sys_create), w)
  else (Ok (mkOsFile path 0 false), with_disk w (<[path := []]> (disk w))).

Definition file_Write (f : OsFile) (p : list byte) (w : World)
  : (OsFile * World) * option error :=
  if f_closed f then ((f, w), Some (ErrSyscall (sys_write (f_pos f))))
  else if faults w (sys_write (f_pos f)) then ((f, w), Some (ErrSyscall (sys_write (f_pos f))))
  else
    ((mkOsFile (f_path f) (f_pos f + len p) false,
      with_disk w (<[f_path f := write_at (f_pos f) (file_contents w (f_path f)) p]> (disk w))),
     None).

(** [f.Seek(off, io.SeekStart)]. *)
Definition file_Seek (f : OsFile) (off : Z) (w : World) : option error * OsFile :=
  if f_closed f || faults w sys_seek then (Some (ErrSyscall sys_seek), f)
  else (None, mkOsFile (f_path f) off false).

(** [f.Close()]: the descriptor is released even when the call reports an
    error. *)
Definition file_Close (f : OsFile) (w : World) : option error * OsFile :=
  if f_closed f || faults w sys_close
  then (Some (ErrSyscall sys_close), mkOsFile (f_path f) (f_pos f) true)
  else (None, mkOsFile (f_path f) (f_pos f) true).

Definition s3_key_eqb (bucket key : string) (o : string * string * list byte) : bool :=
  String.eqb (fst (fst o)) bucket && String.eqb (snd (fst o)) key.

Fixpoint s3_lookup (bucket key : string) (os : list (string * string * list byte))
  : option (list byte) :=
  match os with
  | [] => None
  | o :: os' => if s3_key_eqb bucket key o then Some (snd o) else s3_lookup bucket key os'
  end.

Fixpoint s3_store (bucket key : string) (body : list byte)
    (os : list (string * string * list byte)) : list (string * string * list byte) :=
  match os with
  | [] => [(bucket, key, body)]
  | o :: os' =>
      if s3_key_eqb bucket key o then (bucket, key, body) :: os'
      else o :: s3_store bucket key body os'
  end.

(** [PutObject] with the file as body: the body is what the file holds
    from its current offset on. *)
Definition s3_PutObject_file (bucket key : string) (f : OsFile) (w : World)
  : option error * World :=
  if faults w call_PutObject then (Some (ErrSyscall call_PutObject), w)
  else
    let body := drop (Z.to_nat (f_pos f)) (file_contents w (f_path f)) in
    (None, with_objects w (s3_store bucket key body (s3_objects w))).

Definition s3_GetObject (bucket key : string) (w : World) : result (list byte) :=
  if faults w call_GetObject then Err (ErrSyscall call_GetObject)
  else
    match s3_lookup bucket key (s3_objects w) with
    | Some body => Ok body
    | None => Err ErrNoSuchKey
    end.

(** ** Package storage *)

Module storage.

(** The interface [BackingStorage]: [B] is the implementation, [Σ] the
    world it acts on, [WC] its [io.WriteCloser]; a reader is returned with
    the contents it reads from. *)
Class BackingStorage (B Σ WC : Type) := {
  bs_Writer : B -> string -> Σ -> result WC * Σ;
  bs_Write :: io_Writer (WC * Σ);
  bs_Close : WC * Σ -> option error * (WC * Σ);
  bs_Reader : B -> string -> Σ -> result ReadSeeker * Σ;
  bs_ListFiles : B -> string -> string -> Σ -> result (list string) * Σ
}.

Record Storage (B : Type) := mkStorage {
  topicPath : string;
  nextRecordID : Z;              (* uint64 *)
  recordBatchIDs : list Z;       (* []uint64 *)
  backingStorage : B
}.
Arguments mkStorage {B}.
Arguments topicPath {B}.
Arguments nextRecordID {B}.
Arguments recordBatchIDs {B}.
Arguments backingStorage {B}.

(** The loop of [ReadRecord], over the batch IDs from the last to the
    first; [recordBatchID] starts as zero. *)
Fixpoint find_batch (reversed : list Z) (recordID : Z) : Z :=
  match reversed with
  | [] => 0
  | curBatchID :: rest =>
      if curBatchID <=? recordID then curBatchID else find_batch rest recordID
  end.

Section Coordinator.

Context {B Σ WC : Type} `{BackingStorage B Σ WC}.

(** The constant [recordBatchExtension], declared outside the files at
    hand. *)
Variable recordBatchExtension : string.

Definition recordBatchPath (topicPath : string) (recordBatchID : Z) : string :=
  filepath_Join topicPath (Sprintf_012d recordBatchID +:+ recordBatchExtension).

(** The loop of [listRecordBatchIDs]. *)
Fixpoint parse_recordIDs (filePaths : list string) : result (list Z) :=
  match filePaths with
  | [] => Ok []
  | filePath :: rest =>
      let fileName := path_Base filePath in
      if (String.length fileName <? String.length recordBatchExtension)%nat
      then Err panic_slice_bounds
      else
        let recordIDStr :=
          substring 0 (String.length fileName - String.length recordBatchExtension)
            fileName in
        match uint64y_FromString recordIDStr with
        | Err e => Err e
        | Ok recordID =>
            match parse_recordIDs rest with
            | Err e => Err e
            | Ok recordIDs => Ok (recordID :: recordIDs)
            end
        end
  end.

Definition listRecordBatchIDs (backingStorage : B) (topicPath : string) (σ : Σ)
  : result (list Z) * Σ :=
  match bs_ListFiles backingStorage topicPath recordBatchExtension σ with
  | (Err e, σ) => (Err e, σ)
  | (Ok filePaths, σ) => (parse_recordIDs filePaths, σ)
  end.

Definition readRecordBatchHeader (backingStorage : B) (topicPath : string)
    (recordBatchID : Z) (σ : Σ) : result recordbatch.Header * Σ :=
  let rbPath := recordBatchPath topicPath recordBatchID in
  match bs_Reader backingStorage rbPath σ with
  | (Err e, σ) => (Err e, σ)
  | (Ok f, σ) =>
      match recordbatch.Parse f with
      | Err e => (Err e, σ)
      | Ok rb => (Ok (recordbatch.rb_Header rb), σ)
      end
  end.

Definition NewStorage (backingStorage : B) (rootDir topic : string) (σ : Σ)
  : result (Storage B) * Σ :=
  let topicPath := filepath_Join rootDir topic in
  match listRecordBatchIDs backingStorage topicPath σ with
  | (Err e, σ) => (Err e, σ)
  | (Ok recordBatchIDs, σ) =>
      let storage := mkStorage topicPath 0 recordBatchIDs backingStorage in
      if 0 <? len recordBatchIDs then
        let newestRecordBatchID := List.last recordBatchIDs 0 in
        match readRecordBatchHeader backingStorage topicPath newestRecordBatchID σ with
        | (Err e, σ) => (Err e, σ)
        | (Ok hdr, σ) =>
            (Ok (mkStorage topicPath
                   (uint64 (newestRecordBatchID + recordbatch.NumRecords hdr))
                   recordBatchIDs backingStorage), σ)
        end
      else (Ok storage, σ)
  end.

(** [s.AddRecordBatch(records)].  The deferred [f.Close()] runs when the
    function returns, and what it returns is dropped. *)
Definition AddRecordBatch (now : Z) (records : list (list byte)) (st : Storage B * Σ)
  : option error * (Storage B * Σ) :=
  let (s, σ) := st in
  let recordBatchID := nextRecordID s in
  let rbPath := recordBatchPath (topicPath s) recordBatchID in
  match bs_Writer (backingStorage s) rbPath σ with
  | (Err e, σ) => (Some e, (s, σ))
  | (Ok f, σ) =>
      match recordbatch.Write now (f, σ) records with
      | (fσ, Some e) =>
          let '(_, (_, σ)) := bs_Close fσ in
          (Some e, (s, σ))
      | (fσ, None) =>
          let s := mkStorage (topicPath s)
                     (uint64 (recordBatchID + uint64 (len records)))
                     (recordBatchIDs s ++ [recordBatchID])
                     (backingStorage s) in
          let '(_, (_, σ)) := bs_Close fσ in
          (None, (s, σ))
      end
  end.

(** [s.ReadRecord(recordID)]. *)
Definition ReadRecord (recordID : Z) (st : Storage B * Σ)
  : result (list byte) * (Storage B * Σ) :=
  let (s, σ) := st in
  if nextRecordID s <=? recordID then (Err storage_ErrOutOfBounds, (s, σ))
  else
    let recordBatchID := find_batch (rev (recordBatchIDs s)) recordID in
    let rbPath := recordBatchPath (topicPath s) recordBatchID in
    match bs_Reader (backingStorage s) rbPath σ with
    | (Err e, σ) => (Err e, (s, σ))
    | (Ok f, σ) =>
        match recordbatch.Parse f with
        | Err e => (Err e, (s, σ))
        | Ok rb =>
            match recordbatch.Record_ rb (uint32 (recordID - recordBatchID)) with
            | (Err e, _) => (Err e, (s, σ))
            | (Ok record, _) => (Ok record, (s, σ))
            end
        end
    end.

End Coordinator.

(** *** The object-store backing with its local cache *)

Record S3Storage := mkS3Storage {
  topicCacheRoot : string;
  bucketName : string
}.

(** The writer holds the cache file; its upload closure has captured the
    bucket and the key. *)
Record s3WriteCloser := mkS3WriteCloser {
  swc_f : OsFile;
  swc_bucket : string;
  swc_key : string
}.

Definition with_f (swc : s3WriteCloser) (f : OsFile) : s3WriteCloser :=
  mkS3WriteCloser f (swc_bucket swc) (swc_key swc).

Definition recordBatchCachePath (ss : S3Storage) (recordBatchPath : string) : string :=
  filepath_Join (topicCacheRoot ss) recordBatchPath.

(** [filey.Exists] of go-helpy. *)
Definition filey_Exists (path : string) (w : World) : bool :=
  bool_decide (is_Some (disk w !! path)).

Definition createCacheFile (cacheRecordBatchPath : string) (w : World)
  : result OsFile * World :=
  match os_MkdirAll w with
  | (Some e, w) => (Err e, w)
  | (None, w) => os_Create cacheRecordBatchPath w
  end.

Definition S3Storage_Writer (ss : S3Storage) (recordBatchPath : string) (w : World)
  : result s3WriteCloser * World :=
  let cacheRecordBatchPath := recordBatchCachePath ss recordBatchPath in
  if filey_Exists cacheRecordBatchPath w then (Err ErrFileAlreadyExists, w)
  else
    match createCacheFile cacheRecordBatchPath w with
    | (Err e, w) => (Err e, w)
    | (Ok f, w) => (Ok (mkS3WriteCloser f (bucketName ss) recordBatchPath), w)
    end.

Definition s3WriteCloser_Write (st : s3WriteCloser * World) (b : list byte)
  : (s3WriteCloser * World) * option error :=
  let (swc, w) := st in
  let '((f, w), err) := file_Write (swc_f swc) b w in
  ((with_f swc f, w), err).

(** [swc.Close()]. *)
Definition s3WriteCloser_Close (st : s3WriteCloser * World)
  : option error * (s3WriteCloser * World) :=
  let (swc, w) := st in
  match file_Seek (swc_f swc) 0 w with
  | (Some e, f) => (Some e, (with_f swc f, w))
  | (None, f) =>
      match s3_PutObject_file (swc_bucket swc) (swc_key swc) f w with
      | (Some e, w) => (Some e, (with_f swc f, w))
      | (None, w) =>
          match file_Close f w with
          | (Some e, f) => (Some e, (with_f swc f, w))
          | (None, f) => (None, (with_f swc f, w))
          end
      end
  end.

(** [os.Open]: [Ok None] is the error for which [os.IsNotExist] holds. *)
Definition os_Open (path : string) (w : World) : result (option OsFile) :=
  if faults w sys_open then Err (ErrSyscall sys_open)
  else
    match disk w !! path with
    | Some _ => Ok (Some (mkOsFile path 0 false))
    | None => Ok None
    end.

(** The file as the [io.ReadSeekCloser] the coordinator reads from. *)
Definition reader_of (f : OsFile) (w : World) : ReadSeeker :=
  mkReadSeeker (file_contents w (f_path f)) (f_pos f) (faults w).

Definition S3Storage_Reader (ss : S3Storage) (recordBatchPath : string) (w : World)
  : result ReadSeeker * World :=
  let cacheRecordBatchPath := recordBatchCachePath ss recordBatchPath in
  match os_Open cacheRecordBatchPath w with
  | Err e => (Err e, w)
  | Ok (Some f) => (Ok (reader_of f w), w)
  | Ok None =>
      match s3_GetObject (bucketName ss) recordBatchPath w with
      | Err e => (Err e, w)
      | Ok body =>
          match createCacheFile cacheRecordBatchPath w with
          | (Err e, w) => (Err e, w)
          | (Ok f, w) =>
              match file_Write f body w with
              | ((_, w), Some e) => (Err e, w)
              | ((f, w), None) =>
                  match file_Seek f 0 w with
                  | (Some e, _) => (Err e, w)
                  | (None, f) => (Ok (reader_of f w), w)
                  end
              end
          end
      end
  end.

Definition S3Storage_ListFiles (ss : S3Storage) (topicPath extension : string) (w : World)
  : result (list string) * World :=
  let topicPath := strings_CutPrefix topicPath "/" in
  if faults w call_ListObjects then (Err (ErrSyscall call_ListObjects), w)
  else
    let listed :=
      List.filter
        (fun o => String.eqb (fst (fst o)) (bucketName ss)
                  && strings_HasPrefix (snd (fst o)) topicPath)
        (s3_objects w) in
    let fileNames :=
      List.filter (fun filePath => strings_HasSuffix filePath extension)
        (map (fun o => snd (fst o)) listed) in
    (Ok fileNames, w).

#[global] Instance s3WriteCloser_Writer : io_Writer (s3WriteCloser * World) :=
  s3WriteCloser_Write.

#[global] Instance S3Storage_BackingStorage : BackingStorage S3Storage World s3WriteCloser := {
  bs_Writer := S3Storage_Writer;
  bs_Write := s3WriteCloser_Writer;
  bs_Close := s3WriteCloser_Close;
  bs_Reader := S3Storage_Reader;
  bs_ListFiles := S3Storage_ListFiles
}.

Record S3StorageInput := mkS3StorageInput {
  LocalCacheRoot : string;
  BucketName : string;
  RootDir : string;
  Topic : string
}.

Definition NewS3Storage (recordBatchExtension : string) (input : S3StorageInput) (w : World)
  : result (Storage S3Storage) * World :=
  let s3Storage := mkS3Storage (LocalCacheRoot input) (BucketName input) in
  NewStorage recordBatchExtension s3Storage (RootDir input) (Topic input) w.

End storage.

(** ** Definitions used by the statements *)

(** The bytes of a batch file: header, index, payload. *)
Definition batch_file (now : Z) (records : list (list byte)) : list byte :=
  recordbatch.put_Header
    (recordbatch.mkHeader recordbatch.FileFormatMagicBytes recordbatch.FileFormatVersion
       now (uint32 (len records)) (replicate 14 x00))
  ++ put_uint32s (recordbatch.recordIndexes 0 records)
  ++ concat records.

(** The number of payload bytes before record [i]. *)
Definition payload_offset (records : list (list byte)) (i : nat) : Z :=
  len (concat (take i records)).

(** The prefix sums of the record lengths, as numbers. *)
Definition prefix_sums (records : list (list byte)) : list Z :=
  map (payload_offset records) (seq 0 (length records)).

(** A batch fits the format when the header, the index and all records but
    the last end below offset [2^32]. *)
Definition batch_fits (records : list (list byte)) : Prop :=
  32 + 4 * len records + payload_offset records (length records - 1) < 2 ^ 32.

(** The header that [Parse] reads back from a batch file. *)
Definition written_header (now : Z) (records : list (list byte)) : recordbatch.Header :=
  recordbatch.get_Header
    (recordbatch.put_Header
       (recordbatch.mkHeader recordbatch.FileFormatMagicBytes
          recordbatch.FileFormatVersion now (uint32 (len records)) (replicate 14 x00))).

(** A record of [2^32] zero bytes. *)
Definition big_record : list byte := replicate (Z.to_nat (2 ^ 32)) x00.

(** One call of [AddRecordBatch] with its environment: what the clock
    returns, which system calls fail during the call, and the records. *)
Record call := mkCall {
  c_now : Z;
  c_faults : fault_plan;
  c_records : list (list byte)
}.

(** A sequence of calls of [AddRecordBatch] on the object-store backing,
    all of which return [nil]. *)
Fixpoint add_all (ext : string) (calls : list call)
    (st : storage.Storage storage.S3Storage * World)
  : option (storage.Storage storage.S3Storage * World) :=
  match calls with
  | [] => Some st
  | c :: rest =>
      match storage.AddRecordBatch ext (c_now c) (c_records c)
              (fst st, with_faults (snd st) (c_faults c)) with
      | (None, st') => add_all ext rest st'
      | (Some _, _) => None
      end
  end.

(** The records submitted by a sequence of calls, in submission order. *)
Definition all_records (calls : list call) : list (list byte) :=
  concat (map c_records calls).

(** The ID of each batch when the first one is [first]: the number of
    records before it. *)
Fixpoint batch_ids (first : Z) (batches : list (list (list byte))) : list Z :=
  match batches with
  | [] => []
  | b :: rest => first :: batch_ids (first + len b) rest
  end.

(** Where the object-store backing caches the batch with the given ID. *)
Definition cache_path (ext : string) (s : storage.Storage storage.S3Storage) (id : Z)
  : string :=
  storage.recordBatchCachePath (storage.backingStorage s)
    (storage.recordBatchPath ext (storage.topicPath s) id).

(** The writer and the world while the cache file at [path] holds [c] and
    the writer stands at its end. *)
Definition wrote (swc : storage.s3WriteCloser) (w : World) (path : string)
    (c : list byte) : storage.s3WriteCloser * World :=
  (storage.with_f swc (mkOsFile path (len c) false),
   with_disk w (<[path := c]> (disk w))).

(** What relates a coordinator and its world to the calls that built them:
    the batch IDs are the record counts before each batch, the next ID is
    the number of records, and every batch file is in the cache. *)
Definition Inv (ext : string) (calls : list call)
    (s : storage.Storage storage.S3Storage) (w : World) : Prop :=
  storage.recordBatchIDs s = batch_ids 0 (map c_records calls)
  /\ storage.nextRecordID s = len (all_records calls)
  /\ forall (k : nat) (id : Z) (c : call),
       storage.recordBatchIDs s !! k = Some id ->
       calls !! k = Some c ->
       disk w !! cache_path ext s id = Some (batch_file (c_now c) (c_records c)).

(** A batch of [2^32] empty records. *)
Definition many_empty_records : list (list byte) := replicate (Z.to_nat (2 ^ 32)) [].

(** The batch ID that [listRecordBatchIDs] reads off one listed path. *)
Definition parse_batch_id (ext : string) (filePath : string) : result Z :=
  let fileName := path_Base filePath in
  if (String.length fileName <? String.length ext)%nat then Err panic_slice_bounds
  else uint64y_FromString
         (substring 0 (String.length fileName - String.length ext) fileName).

(** A fault plan in which only the upload fails. *)
Definition upload_fails : fault_plan :=
  fun c => match c with call_PutObject => true | _ => false end.

(** A fault plan in which only seeking fails. *)
Definition seek_fails : fault_plan :=
  fun c => match c with sys_seek => true | _ => false end.

(** An object store that lists the batch with ID 5 (three records) before
    the batch with ID 0 (five records); the cache is empty. *)
Definition unsorted_world : World :=
  mkWorld ∅
    [("bucket"%string, "root/topic/000000000005.record-batch"%string,
      batch_file 0 [[x05]; [x06]; [x07]]);
     ("bucket"%string, "root/topic/000000000000.record-batch"%string,
      batch_file 0 [[x00]; [x01]; [x02]; [x03]; [x04]])]
    no_faults.

(** A string without the path separator. *)
Definition no_slash (s : string) : Prop :=
  Forall (fun c => is_slash c = false) (list_ascii_of_string s).

(** The objects that a sequence of calls leaves in the bucket when every
    upload works: one per batch, in upload order, under the key
    [recordBatchPath] of the batch ID; the first batch ID is [first]. *)
Fixpoint bucket_of (ext bucket topicPath : string) (first : Z) (calls : list call)
  : list (string * string * list byte) :=
  match calls with
  | [] => []
  | c :: rest =>
      (bucket, storage.recordBatchPath ext topicPath first,
       batch_file (c_now c) (c_records c))
      :: bucket_of ext bucket topicPath (first + len (c_records c)) rest
  end.

(** A call during which neither the seek nor the upload of [Close] fails. *)
Definition uploads (c : call) : Prop :=
  c_faults c sys_seek = false /\ c_faults c call_PutObject = false.

(** What relates the bucket to the calls that filled it. *)
Definition InvB (ext : string) (calls : list call)
    (s : storage.Storage storage.S3Storage) (w : World) : Prop :=
  s3_objects w
  = bucket_of ext (storage.bucketName (storage.backingStorage s)) (storage.topicPath s)
      0 calls
  /\ forall (k : nat) (id : Z) (c : call),
       storage.recordBatchIDs s !! k = Some id ->
       calls !! k = Some c ->
       s3_lookup (storage.bucketName (storage.backingStorage s))
         (storage.recordBatchPath ext (storage.topicPath s) id) (s3_objects w)
       = Some (batch_file (c_now c) (c_records c)).

(** * Properties *)

(** ** Bytes and little-endian integers *)

Lemma Z_of_byte_of_Z (v : Z) : Z_of_byte (byte_of_Z v) = v mod 256.
Proof.
  unfold Z_of_byte, byte_of_Z.
  assert (Hb : 0 <= v mod 256 < 256) by (apply Z.mod_pos_bound; lia).
  destruct (Byte.of_N (Z.to_N (v mod 256))) as [b|] eqn:E.
  - apply Byte.to_of_N in E. rewrite E. lia.
  - apply Byte.of_N_None_iff in E. lia.
Qed.

Lemma length_le_put (n : nat) (v : Z) : length (le_put n v) = n.
Proof. revert v. induction n as [|n IH]; intros v; simpl; [done|]. by rewrite IH. Qed.

Lemma le_get_le_put (n : nat) (v : Z) :
  le_get (le_put n v) = v mod 256 ^ Z.of_nat n.
Proof.
  revert v. induction n as [|n IH]; intros v.
  - simpl. by rewrite Z.mod_1_r.
  - cbn [le_put le_get]. rewrite Z_of_byte_of_Z, IH.
    rewrite Nat2Z.inj_succ, Z.pow_succ_r by lia.
    rewrite (Z.rem_mul_r v 256 (256 ^ Z.of_nat n)) by lia. lia.
Qed.

Lemma byte_of_Z_mod (v : Z) : byte_of_Z (v mod 256) = byte_of_Z v.
Proof. unfold byte_of_Z. by rewrite Z.mod_mod by lia. Qed.

Lemma le_put_mod (n : nat) (v : Z) :
  le_put n (v mod 256 ^ Z.of_nat n) = le_put n v.
Proof.
  revert v. induction n as [|n IH]; intros v; [done|].
  cbn [le_put]. rewrite Nat2Z.inj_succ, Z.pow_succ_r by lia.
  assert (Hp : 0 < 256 ^ Z.of_nat n) by (apply Z.pow_pos_nonneg; lia).
  rewrite (Z.rem_mul_r v 256 (256 ^ Z.of_nat n)) by lia.
  set (X := (v / 256) mod 256 ^ Z.of_nat n).
  replace (v mod 256 + 256 * X) with (v mod 256 + X * 256) by lia.
  f_equal.
  - unfold byte_of_Z. rewrite Z.mod_add by lia. by rewrite Z.mod_mod by lia.
  - rewrite Z.div_add by lia.
    rewrite (Z.div_small (v mod 256)) by (apply Z.mod_pos_bound; lia).
    apply IH.
Qed.

Lemma le_put_4_uint32 (v : Z) : le_put 4 (uint32 v) = le_put 4 v.
Proof. apply (le_put_mod 4). Qed.

Lemma le_get_le_put_4 (v : Z) : le_get (le_put 4 v) = uint32 v.
Proof. apply (le_get_le_put 4). Qed.

Lemma uint32_idem (v : Z) : uint32 (uint32 v) = uint32 v.
Proof. unfold uint32. apply Z.mod_mod. lia. Qed.

Lemma uint32_small (v : Z) : 0 <= v < 2 ^ 32 -> uint32 v = v.
Proof. intros. unfold uint32. by apply Z.mod_small. Qed.

Lemma uint32_range (v : Z) : 0 <= uint32 v < 2 ^ 32.
Proof. unfold uint32. apply Z.mod_pos_bound. lia. Qed.

Lemma uint64_small (v : Z) : 0 <= v < 2 ^ 64 -> uint64 v = v.
Proof. intros. unfold uint64. by apply Z.mod_small. Qed.

Lemma uint32_add (a b : Z) : uint32 (uint32 a + uint32 b) = uint32 (a + b).
Proof. unfold uint32. symmetry. apply Zplus_mod. Qed.

Lemma len_app {A} (l k : list A) : len (l ++ k) = len l + len k.
Proof. unfold len. rewrite length_app. lia. Qed.

Lemma len_nonneg {A} (l : list A) : 0 <= len l.
Proof. unfold len. lia. Qed.

Lemma length_put_uint32s (vs : list Z) : length (put_uint32s vs) = (4 * length vs)%nat.
Proof.
  unfold put_uint32s. induction vs as [|v vs IH]; [done|].
  cbn [flat_map length]. rewrite length_app, IH, length_le_put. lia.
Qed.

Lemma get_put_uint32s (vs : list Z) (k : nat) (rest : list byte) :
  get_uint32s k (put_uint32s vs ++ rest) = take k (map uint32 vs) ++ get_uint32s (k - length vs) rest.
Proof.
  revert k. induction vs as [|v vs IH]; intros k.
  - simpl. rewrite take_nil. simpl. by rewrite Nat.sub_0_r.
  - destruct k as [|k]; [done|].
    cbn [get_uint32s]. unfold put_uint32s in *. cbn [flat_map].
    rewrite <- app_assoc.
    rewrite (take_app_length' (le_put 4 v)) by done.
    rewrite (drop_app_length' (le_put 4 v)) by done.
    rewrite IH. by rewrite le_get_le_put_4.
Qed.

(** ** The codec writing into a buffer *)

Lemma write_records_buffer (buf : Buffer) (records : list (list byte)) :
  recordbatch.write_records buf records = (buf ++ concat records, None).
Proof.
  revert buf. induction records as [|r rs IH]; intros buf.
  - simpl. by rewrite app_nil_r.
  - cbn [recordbatch.write_records concat]. unfold io_Write at 1, Buffer_Writer.
    rewrite IH. by rewrite <- app_assoc.
Qed.

Lemma Write_buffer (now : Z) (buf : Buffer) (records : list (list byte)) :
  recordbatch.Write now buf records = (buf ++ batch_file now records, None).
Proof.
  unfold recordbatch.Write, batch_file.
  unfold io_Write at 1 2, Buffer_Writer.
  rewrite write_records_buffer. by rewrite <- !app_assoc.
Qed.

Lemma Write_empty_buffer (now : Z) (records : list (list byte)) :
  recordbatch.Write now ([] : Buffer) records = (batch_file now records, None).
Proof. apply (Write_buffer now [] records). Qed.

Lemma length_put_Header (h : recordbatch.Header) :
  length (recordbatch.put_Header h) = 32%nat.
Proof.
  unfold recordbatch.put_Header.
  by rewrite !length_app, !length_resize, !length_le_put.
Qed.

Lemma NumRecords_get_put_Header (h : recordbatch.Header) :
  recordbatch.NumRecords (recordbatch.get_Header (recordbatch.put_Header h))
  = uint32 (recordbatch.NumRecords h).
Proof.
  unfold recordbatch.get_Header, recordbatch.put_Header. cbn [recordbatch.NumRecords].
  rewrite (app_assoc (resize 4 _ _)), (app_assoc (resize 4 _ _ ++ _)).
  rewrite drop_app_length'
    by (by rewrite !length_app, length_resize, !length_le_put).
  rewrite take_app_length' by (by rewrite length_le_put).
  apply le_get_le_put_4.
Qed.

(** ** The record index *)

Lemma payload_offset_0 (records : list (list byte)) : payload_offset records 0 = 0.
Proof. unfold payload_offset. by rewrite take_0. Qed.

Lemma payload_offset_cons (r : list byte) (rs : list (list byte)) (i : nat) :
  payload_offset (r :: rs) (S i) = len r + payload_offset rs i.
Proof. unfold payload_offset. cbn [take concat]. apply len_app. Qed.

Lemma payload_offset_S (records : list (list byte)) (i : nat) (rec : list byte) :
  records !! i = Some rec ->
  payload_offset records (S i) = payload_offset records i + len rec.
Proof.
  intros Hi. unfold payload_offset. rewrite (take_S_r _ _ _ Hi).
  rewrite concat_app, len_app. cbn [concat]. by rewrite app_nil_r.
Qed.

Lemma payload_offset_nonneg (records : list (list byte)) (i : nat) :
  0 <= payload_offset records i.
Proof. apply len_nonneg. Qed.

Lemma payload_offset_mono (records : list (list byte)) (i j : nat) :
  (i <= j)%nat -> payload_offset records i <= payload_offset records j.
Proof.
  revert i j. induction records as [|r rs IH]; intros i j Hij.
  - unfold payload_offset. by rewrite !take_nil.
  - destruct i as [|i].
    + rewrite payload_offset_0. apply payload_offset_nonneg.
    + destruct j as [|j]; [lia|]. rewrite !payload_offset_cons.
      specialize (IH i j). lia.
Qed.

Lemma length_recordIndexes (a : Z) (records : list (list byte)) :
  length (recordbatch.recordIndexes a records) = length records.
Proof.
  revert a. induction records as [|r rs IH]; intros a; [done|].
  cbn [recordbatch.recordIndexes length]. by rewrite IH.
Qed.

Lemma recordIndexes_lookup (a : Z) (records : list (list byte)) (i : nat) :
  (i < length records)%nat ->
  recordbatch.recordIndexes (uint32 a) records !! i
  = Some (uint32 (a + payload_offset records i)).
Proof.
  revert a i. induction records as [|r rs IH]; intros a i Hi; [simpl in Hi; lia|].
  destruct i as [|i].
  - cbn [recordbatch.recordIndexes]. rewrite payload_offset_0, Z.add_0_r. done.
  - cbn [recordbatch.recordIndexes]. cbn [length] in Hi.
    rewrite uint32_add.
    change ((?x :: ?l) !! S i) with (l !! i).
    rewrite IH by lia. rewrite payload_offset_cons. do 2 f_equal. lia.
Qed.

Lemma recordIndexes_0_lookup (records : list (list byte)) (i : nat) :
  (i < length records)%nat ->
  recordbatch.recordIndexes 0 records !! i = Some (uint32 (payload_offset records i)).
Proof. intros Hi. apply (recordIndexes_lookup 0 records i Hi). Qed.

Lemma recordIndexes_prefix_sums (records : list (list byte)) :
  recordbatch.recordIndexes 0 records = map uint32 (prefix_sums records).
Proof.
  apply list_eq. intros i. unfold prefix_sums.
  destruct (decide (i < length records)%nat) as [Hi|Hi].
  - rewrite recordIndexes_0_lookup by done.
    rewrite !list_lookup_fmap. rewrite lookup_seq_lt by done. done.
  - rewrite !lookup_ge_None_2; [done| |].
    + rewrite !length_map, length_seq. lia.
    + rewrite length_recordIndexes. lia.
Qed.

Lemma put_uint32s_uint32 (vs : list Z) :
  put_uint32s (map uint32 vs) = put_uint32s vs.
Proof.
  unfold put_uint32s. induction vs as [|v vs IH]; [done|].
  cbn [map flat_map]. by rewrite IH, le_put_4_uint32.
Qed.

Lemma map_uint32_recordIndexes (records : list (list byte)) :
  map uint32 (recordbatch.recordIndexes 0 records) = recordbatch.recordIndexes 0 records.
Proof.
  rewrite recordIndexes_prefix_sums, map_map.
  apply map_ext. intros v. apply uint32_idem.
Qed.

Lemma get_uint32s_put_take (vs : list Z) (k : nat) :
  (k <= length vs)%nat ->
  get_uint32s k (take (4 * k) (put_uint32s vs)) = take k (map uint32 vs).
Proof.
  revert k. induction vs as [|v vs IH]; intros k Hk.
  - cbn [length] in Hk. by replace k with 0%nat by lia.
  - destruct k as [|k]; [done|]. cbn [length] in Hk.
    unfold put_uint32s in *. cbn [flat_map].
    replace (4 * S k)%nat with (4 + 4 * k)%nat by lia.
    rewrite take_app_add' by (by rewrite length_le_put).
    cbn [get_uint32s map take].
    rewrite take_app_length' by (by rewrite length_le_put).
    rewrite drop_app_length' by (by rewrite length_le_put).
    rewrite IH by lia. by rewrite le_get_le_put_4.
Qed.

(** ** Parsing a written batch *)

Lemma NumRecords_written_header (now : Z) (records : list (list byte)) :
  recordbatch.NumRecords (written_header now records) = uint32 (len records).
Proof.
  unfold written_header. rewrite NumRecords_get_put_Header.
  cbn [recordbatch.NumRecords]. apply uint32_idem.
Qed.

Lemma uint32_le (v : Z) : 0 <= v -> uint32 v <= v.
Proof. intros. unfold uint32. apply Z.mod_le; lia. Qed.

Lemma length_drop_len {A} (l : list A) (pos : Z) :
  0 <= pos -> pos <= len l -> len (drop (Z.to_nat pos) l) = len l - pos.
Proof. intros. unfold len in *. rewrite length_drop. lia. Qed.

Lemma io_ReadFull_ok (data : list byte) (pos : Z) (flt : fault_plan) (n : Z) :
  flt sys_read = false -> 0 <= pos -> 0 < n -> pos + n <= len data ->
  io_ReadFull (mkReadSeeker data pos flt) n
  = (Ok (take (Z.to_nat n) (drop (Z.to_nat pos) data)), mkReadSeeker data (pos + n) flt).
Proof.
  intros Hrd Hpos Hn Hlen. unfold io_ReadFull, rs_rest, rs_advance.
  cbn [rs_faults rs_pos rs_data]. rewrite Hrd.
  rewrite length_drop_len by lia.
  destruct (n <=? 0) eqn:E0; [lia|].
  destruct (len data - pos =? 0) eqn:E1; [lia|].
  destruct (len data - pos <? n) eqn:E2; [lia|]. done.
Qed.

Lemma len_batch_file (now : Z) (records : list (list byte)) :
  len (batch_file now records) = 32 + 4 * len records + len (concat records).
Proof.
  unfold batch_file. rewrite !len_app. unfold len.
  rewrite length_put_Header, length_put_uint32s, length_recordIndexes. lia.
Qed.

Lemma Parse_batch_file (now : Z) (records : list (list byte)) (flt : fault_plan) :
  flt sys_read = false ->
  exists pos,
    recordbatch.Parse (mkReadSeeker (batch_file now records) 0 flt)
    = Ok (recordbatch.mkRecordBatch (written_header now records)
            (take (Z.to_nat (uint32 (len records))) (recordbatch.recordIndexes 0 records))
            (mkReadSeeker (batch_file now records) pos flt)).
Proof.
  intros Hrd.
  pose proof (len_batch_file now records) as Hlen.
  pose proof (uint32_range (len records)) as Hr.
  pose proof (uint32_le (len records) (len_nonneg _)) as Hle.
  pose proof (len_nonneg (concat records)) as Hc.
  unfold recordbatch.Parse.
  rewrite io_ReadFull_ok by (done || unfold recordbatch.headerBytes; lia).
  assert (Htake : take (Z.to_nat recordbatch.headerBytes) (drop (Z.to_nat 0) (batch_file now records))
                  = recordbatch.put_Header
                      (recordbatch.mkHeader recordbatch.FileFormatMagicBytes
                         recordbatch.FileFormatVersion now (uint32 (len records))
                         (replicate 14 x00))).
  { change (Z.to_nat 0) with 0%nat. rewrite drop_0. unfold batch_file.
    apply take_app_length'. by rewrite length_put_Header. }
  rewrite Htake. fold (written_header now records).
  rewrite NumRecords_written_header. unfold recordbatch.recordIndexSize.
  destruct (decide (uint32 (len records) = 0)) as [Hz|Hz].
  - rewrite Hz. eexists. reflexivity.
  - rewrite io_ReadFull_ok by (done || unfold recordbatch.headerBytes; lia).
    eexists. do 2 f_equal.
    assert (Hdrop : drop (Z.to_nat (0 + recordbatch.headerBytes)) (batch_file now records)
                    = put_uint32s (recordbatch.recordIndexes 0 records) ++ concat records).
    { unfold batch_file. apply drop_app_length'. by rewrite length_put_Header. }
    rewrite Hdrop.
    rewrite take_app_le
      by (rewrite length_put_uint32s, length_recordIndexes; unfold len in *; lia).
    rewrite Z2Nat.inj_mul by lia. change (Z.to_nat 4) with 4%nat.
    rewrite get_uint32s_put_take
      by (rewrite length_recordIndexes; unfold len in *; lia).
    by rewrite map_uint32_recordIndexes.
Qed.

(** ** Extracting a record from a written batch *)

Lemma concat_split (records : list (list byte)) (i : nat) (rec : list byte) :
  records !! i = Some rec ->
  concat records = concat (take i records) ++ rec ++ concat (drop (S i) records).
Proof.
  intros Hi. rewrite <- (take_drop_middle _ _ _ Hi) at 1.
  by rewrite concat_app.
Qed.

Lemma drop_batch_file (now : Z) (records : list (list byte)) (i : nat) (rec : list byte) :
  records !! i = Some rec ->
  drop (Z.to_nat (32 + 4 * len records + payload_offset records i)) (batch_file now records)
  = rec ++ concat (drop (S i) records).
Proof.
  intros Hi. unfold batch_file. rewrite (concat_split _ _ _ Hi).
  rewrite (app_assoc (put_uint32s _)), app_assoc.
  apply drop_app_length'.
  rewrite !length_app, length_put_Header, length_put_uint32s, length_recordIndexes.
  unfold payload_offset, len. lia.
Qed.

Lemma rs_Seek_ok (data : list byte) (pos off : Z) (flt : fault_plan) :
  flt sys_seek = false -> 0 <= off ->
  rs_Seek (mkReadSeeker data pos flt) off = (None, mkReadSeeker data off flt).
Proof.
  intros Hs Hoff. unfold rs_Seek. cbn [rs_faults rs_data]. rewrite Hs.
  destruct (off <? 0) eqn:E; [lia|done].
Qed.

Lemma batch_fits_bounds (records : list (list byte)) (i : nat) :
  batch_fits records -> (i < length records)%nat ->
  0 <= payload_offset records i /\
  32 + 4 * len records + payload_offset records i < 2 ^ 32.
Proof.
  unfold batch_fits. intros Hfit Hi.
  pose proof (payload_offset_mono records i (length records - 1)) as Hm.
  pose proof (payload_offset_nonneg records i). lia.
Qed.

Lemma Record_batch_file (now : Z) (records : list (list byte)) (flt : fault_plan)
    (pos : Z) (i : nat) (rec : list byte) :
  flt sys_read = false -> flt sys_seek = false ->
  batch_fits records -> records !! i = Some rec ->
  recordbatch.Record_
    (recordbatch.mkRecordBatch (written_header now records)
       (recordbatch.recordIndexes 0 records)
       (mkReadSeeker (batch_file now records) pos flt)) (Z.of_nat i)
  = (Ok rec,
     recordbatch.mkRecordBatch (written_header now records)
       (recordbatch.recordIndexes 0 records)
       (mkReadSeeker (batch_file now records)
          (32 + 4 * len records + payload_offset records (S i)) flt)).
Proof.
  intros Hrd Hsk Hfit Hi.
  pose proof (lookup_lt_Some _ _ _ Hi) as Hlt.
  destruct (batch_fits_bounds records i Hfit Hlt) as [Hp0 Hpi].
  pose proof (len_nonneg records) as Hn.
  pose proof (len_nonneg rec) as Hrec.
  pose proof (payload_offset_S _ _ _ Hi) as HS.
  assert (HN : uint32 (len records) = len records) by (apply uint32_small; lia).
  unfold recordbatch.Record_.
  cbn [recordbatch.rb_Header recordbatch.recordIndex recordbatch.rdr].
  rewrite NumRecords_written_header, HN.
  destruct (len records <=? Z.of_nat i) eqn:E0; [unfold len in *; lia|].
  rewrite Nat2Z.id, recordIndexes_0_lookup by done.
  rewrite (uint32_small (payload_offset records i)) by lia.
  unfold recordbatch.headerBytes, recordbatch.recordIndexSize.
  rewrite (uint32_small (len records * 4)) by lia.
  rewrite (uint32_small (32 + len records * 4)) by lia.
  rewrite (uint32_small (32 + len records * 4 + payload_offset records i)) by lia.
  rewrite rs_Seek_ok by (done || lia).
  replace (32 + len records * 4 + payload_offset records i)
    with (32 + 4 * len records + payload_offset records i) by lia.
  replace (len (recordbatch.recordIndexes 0 records)) with (len records)
    by (unfold len; by rewrite length_recordIndexes).
  rewrite (uint32_small (len records - 1)) by (unfold len in *; lia).
  unfold recordbatch.with_rdr. cbn [recordbatch.rb_Header recordbatch.recordIndex].
  pose proof (drop_batch_file now records i rec Hi) as Hdrop.
  pose proof (len_batch_file now records) as Hlen.
  assert (Hcat : len (concat records)
                 = payload_offset records i + len rec + len (concat (drop (S i) records))).
  { rewrite (concat_split _ _ _ Hi), !len_app. unfold payload_offset. lia. }
  pose proof (len_nonneg (concat (drop (S i) records))) as Htail.
  destruct (Z.of_nat i =? len records - 1) eqn:E1.
  - (* the last record: read to the end of the file *)
    assert (Hnil : drop (S i) records = []).
    { apply drop_ge. unfold len in *. lia. }
    unfold io_ReadAll, rs_rest, rs_advance. cbn [rs_faults rs_pos rs_data].
    rewrite Hrd, Hdrop, Hnil. cbn [concat]. rewrite app_nil_r.
    do 3 f_equal. lia.
  - (* an earlier record: read up to the next index entry *)
    assert (Hlt' : (S i < length records)%nat) by (unfold len in *; lia).
    destruct (batch_fits_bounds records (S i) Hfit Hlt') as [_ HpS].
    rewrite (uint32_small (Z.of_nat i + 1)) by (unfold len in *; lia).
    replace (Z.to_nat (Z.of_nat i + 1)) with (S i) by lia.
    rewrite recordIndexes_0_lookup by done.
    rewrite (uint32_small (payload_offset records (S i))) by lia.
    replace (payload_offset records (S i) - payload_offset records i) with (len rec) by lia.
    rewrite (uint32_small (len rec)) by lia.
    destruct (decide (len rec = 0)) as [Hz|Hz].
    + rewrite Hz. cbn. destruct rec; [|unfold len in Hz; simpl in Hz; lia].
      do 3 f_equal. unfold len in *. simpl in HS. lia.
    + rewrite io_ReadFull_ok by (done || lia).
      rewrite Hdrop. unfold len at 1. rewrite Nat2Z.id.
      rewrite take_app_length. do 3 f_equal. lia.
Qed.

(** ** Round trip and layout of the codec *)

(** A record of [2^32] bytes in front of another one: the index entry of
    the second record wraps to zero. *)
Lemma Record_wraps (now : Z) (big : list byte) :
  len big = 2 ^ 32 ->
  exists rb,
    recordbatch.Parse (bytes_NewReader (batch_file now [big; [x01]])) = Ok rb
    /\ fst (recordbatch.Record_ rb 0) = Ok []
    /\ @Ok (list byte) [] <> Ok big.
Proof.
  intros Hbig.
  destruct (Parse_batch_file now [big; [x01]] no_faults eq_refl) as [pos HP].
  eexists. split; [exact HP|]. split.
  - unfold recordbatch.Record_.
    cbn [recordbatch.rb_Header recordbatch.recordIndex recordbatch.rdr].
    rewrite NumRecords_written_header.
    cbn [recordbatch.recordIndexes]. rewrite Hbig.
    reflexivity.
  - intros E. injection E as E. rewrite <- E in Hbig. discriminate Hbig.
Qed.

Lemma len_big_record : len big_record = 2 ^ 32.
Proof.
  unfold len, big_record. rewrite length_replicate. apply Z2Nat.id. lia.
Qed.

(** C2, counterexample: a first record of [2^32] zero bytes followed by
    the one-byte record [0x01] is written without error and parsed back,
    but [Record(0)] returns the empty byte sequence instead of the first
    record. *)
Lemma C2_counterexample :
  exists file rb,
    recordbatch.Write 0 ([] : Buffer) [big_record; [x01]] = (file, None)
    /\ recordbatch.Parse (bytes_NewReader file) = Ok rb
    /\ [big_record; [x01]] !! 0%nat = Some big_record
    /\ fst (recordbatch.Record_ rb 0) = Ok []
    /\ fst (recordbatch.Record_ rb 0) <> Ok big_record.
Proof.
  destruct (Record_wraps 0 big_record len_big_record) as (rb & HP & HR & Hne).
  exists (batch_file 0 [big_record; [x01]]), rb.
  split; [exact (Write_empty_buffer 0 _)|].
  split; [exact HP|]. split; [reflexivity|]. split; [exact HR|].
  rewrite HR. exact Hne.
Qed.

(** C2 (amended): for every list of records whose header, index and
    records other than the last end below file offset [2^32], and every
    index [i] with [records[i] = rec]: [Write] into an empty buffer
    succeeds, [Parse] of a reader over the bytes written succeeds, and
    [Record(i)] returns [rec].  For the last record the reader ends at the
    end of the file; for an earlier one the length of [rec] is
    [index[i+1] - index[i]] and the reader ends right after these bytes. *)
Theorem C2_codec_roundtrip (now : Z) (records : list (list byte)) (i : nat)
    (rec : list byte) :
  batch_fits records ->
  records !! i = Some rec ->
  exists file rb rb',
    recordbatch.Write now ([] : Buffer) records = (file, None)
    /\ recordbatch.Parse (bytes_NewReader file) = Ok rb
    /\ recordbatch.Record_ rb (Z.of_nat i) = (Ok rec, rb')
    /\ (S i = length records -> rs_pos (recordbatch.rdr rb') = len file)
    /\ ((S i < length records)%nat ->
         exists off next,
           recordbatch.recordIndex rb !! i = Some off
           /\ recordbatch.recordIndex rb !! S i = Some next
           /\ len rec = next - off
           /\ rs_pos (recordbatch.rdr rb') = 32 + 4 * len records + next).
Proof.
  intros Hfit Hi.
  pose proof (lookup_lt_Some _ _ _ Hi) as Hlt.
  destruct (batch_fits_bounds records i Hfit Hlt) as [Hp0 Hpi].
  destruct (Parse_batch_file now records no_faults eq_refl) as [pos HP].
  rewrite (uint32_small (len records)) in HP by (pose proof (len_nonneg records); lia).
  rewrite take_ge in HP
    by (rewrite length_recordIndexes; unfold len; lia).
  pose proof (Record_batch_file now records no_faults pos i rec eq_refl eq_refl Hfit Hi) as HR.
  eexists _, _, _.
  split; [apply Write_empty_buffer|].
  split; [exact HP|].
  split; [exact HR|].
  cbn [recordbatch.rdr recordbatch.recordIndex rs_pos].
  pose proof (payload_offset_S _ _ _ Hi) as HS.
  split.
  - intros Hlast. rewrite len_batch_file. unfold payload_offset.
    rewrite take_ge by lia. done.
  - intros Hnext.
    destruct (batch_fits_bounds records (S i) Hfit Hnext) as [HpS0 HpS].
    pose proof (len_nonneg records) as Hn.
    exists (payload_offset records i), (payload_offset records (S i)).
    rewrite !recordIndexes_0_lookup by done.
    rewrite (uint32_small (payload_offset records i)) by lia.
    rewrite (uint32_small (payload_offset records (S i))) by lia.
    repeat split; lia.
Qed.

(** The amended C2 at the records [0x41] and [0x42 0x43]. *)
Lemma C2_codec_roundtrip_witness :
  batch_fits [[x41]; [x42; x43]]
  /\ exists file rb rb',
      recordbatch.Write 7 ([] : Buffer) [[x41]; [x42; x43]] = (file, None)
      /\ recordbatch.Parse (bytes_NewReader file) = Ok rb
      /\ recordbatch.Record_ rb (Z.of_nat 1) = (Ok [x42; x43], rb')
      /\ (2%nat = length [[x41]; [x42; x43]] -> rs_pos (recordbatch.rdr rb') = len file)
      /\ ((2 < length [[x41]; [x42; x43]])%nat ->
           exists off next,
             recordbatch.recordIndex rb !! 1%nat = Some off
             /\ recordbatch.recordIndex rb !! 2%nat = Some next
             /\ len [x42; x43] = next - off
             /\ rs_pos (recordbatch.rdr rb')
                = 32 + 4 * len [[x41]; [x42; x43]] + next).
Proof.
  split; [vm_compute; reflexivity|].
  apply (C2_codec_roundtrip 7 [[x41]; [x42; x43]] 1 [x42; x43]);
    [vm_compute; reflexivity | reflexivity].
Defined.

Lemma length_prefix_sums (records : list (list byte)) :
  length (prefix_sums records) = length records.
Proof. unfold prefix_sums. by rewrite length_map, length_seq. Qed.

Lemma batch_file_layout (now : Z) (records : list (list byte)) :
  batch_file now records
  = ([x73; x6d; x62; x21] ++ le_put 2 1 ++ le_put 8 now
       ++ le_put 4 (len records) ++ replicate 14 x00)
    ++ flat_map (le_put 4) (prefix_sums records)
    ++ concat records.
Proof.
  unfold batch_file. f_equal; [|f_equal].
  - unfold recordbatch.put_Header.
    cbn [recordbatch.MagicBytes recordbatch.Version recordbatch.UnixEpochUs
         recordbatch.NumRecords recordbatch.Reserved].
    by rewrite le_put_4_uint32.
  - rewrite recordIndexes_prefix_sums. apply put_uint32s_uint32.
Qed.

Lemma get_uint32s_put (vs : list Z) :
  get_uint32s (length vs) (put_uint32s vs) = map uint32 vs.
Proof.
  rewrite <- (app_nil_r (put_uint32s vs)), get_put_uint32s.
  rewrite Nat.sub_diag. cbn [get_uint32s]. rewrite app_nil_r.
  apply take_ge. by rewrite length_map.
Qed.

Lemma index_of_batch_file (now : Z) (records : list (list byte)) :
  take (4 * length records) (drop 32 (batch_file now records))
  = put_uint32s (recordbatch.recordIndexes 0 records).
Proof.
  unfold batch_file.
  rewrite drop_app_length' by (by rewrite length_put_Header).
  apply take_app_length'.
  by rewrite length_put_uint32s, length_recordIndexes.
Qed.

(** With a first record of [2^32] bytes the second index entry is zero. *)
Lemma index_wraps (now : Z) (big : list byte) :
  len big = 2 ^ 32 ->
  prefix_sums [big; [x01]] = [0; 2 ^ 32]
  /\ get_uint32s 2 (take 8 (drop 32 (batch_file now [big; [x01]]))) = [0; 0].
Proof.
  intros Hbig. split.
  - unfold prefix_sums. cbn [length seq map].
    rewrite payload_offset_0, payload_offset_cons, payload_offset_0, Hbig. done.
  - pose proof (index_of_batch_file now [big; [x01]]) as Hidx.
    change (4 * length [big; [x01]])%nat with 8%nat in Hidx. rewrite Hidx.
    pose proof (get_uint32s_put (recordbatch.recordIndexes 0 [big; [x01]])) as Hget.
    rewrite length_recordIndexes in Hget. cbn [length] in Hget. rewrite Hget.
    cbn [recordbatch.recordIndexes map]. rewrite Hbig. reflexivity.
Qed.

(** C7, counterexample: for a first record of [2^32] zero bytes followed
    by the record [0x01], the prefix sums of the record lengths are [0] and
    [2^32], but the two index entries that [Write] emits after the 32-byte
    header are both zero. *)
Lemma C7_counterexample :
  exists file,
    recordbatch.Write 0 ([] : Buffer) [big_record; [x01]] = (file, None)
    /\ prefix_sums [big_record; [x01]] = [0; 2 ^ 32]
    /\ get_uint32s 2 (take 8 (drop 32 file)) = [0; 0]
    /\ get_uint32s 2 (take 8 (drop 32 file)) <> prefix_sums [big_record; [x01]].
Proof.
  exists (batch_file 0 [big_record; [x01]]).
  split; [exact (Write_empty_buffer 0 _)|].
  destruct (index_wraps 0 big_record len_big_record) as [Hsums Hidx].
  split; [exact Hsums|]. split; [exact Hidx|].
  rewrite Hsums, Hidx. intros E. discriminate E.
Qed.

(** C7 (amended): for every record list, [Write] into an empty buffer
    emits the 32-byte little-endian header (the magic bytes 's' 'm' 'b'
    '!', the version 1 on two bytes, the timestamp on eight, the record
    count modulo [2^32] on four, 14 zero bytes), then one unsigned 32-bit
    index entry per record, equal to the prefix sum of the record lengths
    modulo [2^32], then the records concatenated; for the records [0x41]
    and [0x42 0x43] that is a file of 43 bytes with the index entries 0 and
    1 and the payload 41 42 43. *)
Theorem C7_codec_layout (now : Z) (records : list (list byte)) :
  let header :=
    [x73; x6d; x62; x21] ++ le_put 2 1 ++ le_put 8 now
    ++ le_put 4 (uint32 (len records)) ++ replicate 14 x00 in
  let index := put_uint32s (map uint32 (prefix_sums records)) in
  recordbatch.Write now ([] : Buffer) records = (header ++ index ++ concat records, None)
  /\ length header = 32%nat
  /\ length index = (4 * length records)%nat
  /\ get_uint32s (length records) index = map uint32 (prefix_sums records)
  /\ prefix_sums [[x41]; [x42; x43]] = [0; 1]
  /\ fst (recordbatch.Write now ([] : Buffer) [[x41]; [x42; x43]])
     = [x73; x6d; x62; x21; x01; x00] ++ le_put 8 now
       ++ [x02; x00; x00; x00] ++ replicate 14 x00
       ++ [x00; x00; x00; x00; x01; x00; x00; x00]
       ++ [x41; x42; x43]
  /\ length (fst (recordbatch.Write now ([] : Buffer) [[x41]; [x42; x43]])) = 43%nat.
Proof.
  intros header index.
  split; [|split; [|split; [|split; [|split; [|split]]]]].
  - rewrite Write_empty_buffer. unfold batch_file, header, index.
    by rewrite recordIndexes_prefix_sums.
  - unfold header. rewrite !length_app, !length_le_put, length_replicate. done.
  - unfold index. by rewrite length_put_uint32s, length_map, length_prefix_sums.
  - unfold index. rewrite <- (length_prefix_sums records).
    rewrite <- (length_map uint32 (prefix_sums records)).
    rewrite get_uint32s_put, map_map. apply map_ext. intros v. apply uint32_idem.
  - reflexivity.
  - rewrite Write_empty_buffer, batch_file_layout. reflexivity.
  - rewrite Write_empty_buffer, batch_file_layout. cbn [fst].
    rewrite !length_app, !length_le_put, length_replicate. reflexivity.
Qed.

(** ** Writing through the object-store writer *)

Lemma write_at_end (c p : list byte) : write_at (len c) c p = c ++ p.
Proof.
  unfold write_at, len. rewrite Nat2Z.id.
  rewrite take_ge by lia. rewrite Nat.sub_diag.
  rewrite drop_ge by lia. cbn [replicate]. by rewrite app_nil_r.
Qed.

Lemma io_Write_wrote (swc : storage.s3WriteCloser) (w : World) (path : string)
    (c p : list byte) :
  io_Write (wrote swc w path c) p
  = if faults w (sys_write (len c))
    then (wrote swc w path c, Some (ErrSyscall (sys_write (len c))))
    else (wrote swc w path (c ++ p), None).
Proof.
  unfold io_Write, storage.s3WriteCloser_Writer, storage.s3WriteCloser_Write, wrote.
  unfold file_Write, storage.with_f, with_disk, file_contents.
  cbn [storage.swc_f storage.swc_bucket storage.swc_key f_closed f_pos f_path
       faults disk s3_objects].
  destruct (faults w (sys_write (len c))); [done|].
  rewrite lookup_insert_eq. cbn [default].
  rewrite write_at_end, insert_insert_eq, len_app. done.
Qed.

Lemma write_records_wrote (swc : storage.s3WriteCloser) (w : World) (path : string)
    (c : list byte) (records : list (list byte)) st' :
  recordbatch.write_records (wrote swc w path c) records = (st', None) ->
  st' = wrote swc w path (c ++ concat records).
Proof.
  revert c. induction records as [|r rs IH]; intros c Hw.
  - cbn in Hw. injection Hw as <-. by rewrite app_nil_r.
  - cbn [recordbatch.write_records concat] in *. rewrite io_Write_wrote in Hw.
    destruct (faults w (sys_write (len c))); [done|].
    rewrite app_assoc. by apply IH.
Qed.

Lemma write_records_wrote_ok (swc : storage.s3WriteCloser) (w : World) (path : string)
    (c : list byte) (records : list (list byte)) :
  (forall off, faults w (sys_write off) = false) ->
  recordbatch.write_records (wrote swc w path c) records
  = (wrote swc w path (c ++ concat records), None).
Proof.
  intros Hok. revert c. induction records as [|r rs IH]; intros c.
  - cbn. by rewrite app_nil_r.
  - cbn [recordbatch.write_records concat]. rewrite io_Write_wrote, Hok.
    rewrite IH. by rewrite app_assoc.
Qed.

Lemma Write_wrote (now : Z) (swc : storage.s3WriteCloser) (w : World) (path : string)
    (records : list (list byte)) st' :
  recordbatch.Write now (wrote swc w path []) records = (st', None) ->
  st' = wrote swc w path (batch_file now records).
Proof.
  unfold recordbatch.Write. rewrite io_Write_wrote.
  destruct (faults w (sys_write (len []))); [done|].
  rewrite io_Write_wrote.
  destruct (faults w (sys_write _)); [done|].
  intros Hw. apply write_records_wrote in Hw. subst st'.
  unfold batch_file. by rewrite <- !app_assoc.
Qed.

Lemma Write_wrote_ok (now : Z) (swc : storage.s3WriteCloser) (w : World) (path : string)
    (records : list (list byte)) :
  (forall off, faults w (sys_write off) = false) ->
  recordbatch.Write now (wrote swc w path []) records
  = (wrote swc w path (batch_file now records), None).
Proof.
  intros Hok. unfold recordbatch.Write.
  rewrite io_Write_wrote, Hok, io_Write_wrote, Hok.
  rewrite write_records_wrote_ok by done.
  unfold batch_file. by rewrite <- !app_assoc.
Qed.

Lemma Close_frame (st : storage.s3WriteCloser * World) :
  disk (snd (snd (storage.s3WriteCloser_Close st))) = disk (snd st)
  /\ faults (snd (snd (storage.s3WriteCloser_Close st))) = faults (snd st).
Proof.
  destruct st as [swc w]. unfold storage.s3WriteCloser_Close.
  destruct (file_Seek _ _ _) as [[e|] f]; [done|].
  unfold s3_PutObject_file.
  destruct (faults w call_PutObject); [done|].
  destruct (file_Close _ _) as [[e|] f']; done.
Qed.

(** ** [AddRecordBatch] on the object-store backing *)

Lemma Writer_S3 (ss : storage.S3Storage) (path : string) (w : World) swc w1 :
  storage.S3Storage_Writer ss path w = (Ok swc, w1) ->
  disk w !! storage.recordBatchCachePath ss path = None
  /\ (swc, w1)
     = wrote (storage.mkS3WriteCloser (mkOsFile (storage.recordBatchCachePath ss path) 0 false)
                (storage.bucketName ss) path)
         w (storage.recordBatchCachePath ss path) [].
Proof.
  unfold storage.S3Storage_Writer, storage.filey_Exists, storage.createCacheFile,
    os_MkdirAll, os_Create.
  case_bool_decide as Hex.
  - done.
  - destruct (faults w sys_mkdir); [done|].
    destruct (faults w sys_create); [done|].
    intros [= <- <-]. split; [|done].
    destruct (disk w !! _) eqn:E; [|done]. exfalso. apply Hex. by eexists.
Qed.

Lemma AddRecordBatch_S3_success (ext : string) (now : Z) (records : list (list byte))
    (s s' : storage.Storage storage.S3Storage) (w w' : World) :
  storage.AddRecordBatch ext now records (s, w) = (None, (s', w')) ->
  disk w !! cache_path ext s (storage.nextRecordID s) = None
  /\ s' = storage.mkStorage (storage.topicPath s)
            (uint64 (storage.nextRecordID s + uint64 (len records)))
            (storage.recordBatchIDs s ++ [storage.nextRecordID s])
            (storage.backingStorage s)
  /\ disk w' = <[cache_path ext s (storage.nextRecordID s) := batch_file now records]> (disk w)
  /\ faults w' = faults w.
Proof.
  unfold storage.AddRecordBatch.
  cbn [storage.bs_Writer storage.bs_Close storage.bs_Write storage.S3Storage_BackingStorage].
  destruct (storage.S3Storage_Writer _ _ w) as [[swc|e] w1] eqn:HW; [|done].
  apply Writer_S3 in HW as [Hnone Hst]. rewrite Hst.
  destruct (recordbatch.Write now _ records) as [st1 [e|]] eqn:HWr.
  { destruct (storage.s3WriteCloser_Close st1) as [? [? ?]]. done. }
  apply Write_wrote in HWr. subst st1.
  pose proof (Close_frame (wrote (storage.mkS3WriteCloser
      (mkOsFile (storage.recordBatchCachePath (storage.backingStorage s)
         (storage.recordBatchPath ext (storage.topicPath s) (storage.nextRecordID s))) 0 false)
      (storage.bucketName (storage.backingStorage s))
      (storage.recordBatchPath ext (storage.topicPath s) (storage.nextRecordID s))) w
      (storage.recordBatchCachePath (storage.backingStorage s)
         (storage.recordBatchPath ext (storage.topicPath s) (storage.nextRecordID s)))
      (batch_file now records))) as [Hd Hf].
  destruct (storage.s3WriteCloser_Close _) as [er [swc2 w2]].
  cbn [snd] in Hd, Hf. intros [= <- <-].
  unfold cache_path. repeat split; done.
Qed.

Lemma AddRecordBatch_S3_returns_nil (ext : string) (now : Z) (records : list (list byte))
    (s : storage.Storage storage.S3Storage) (w : World) :
  faults w sys_mkdir = false -> faults w sys_create = false ->
  (forall off, faults w (sys_write off) = false) ->
  disk w !! cache_path ext s (storage.nextRecordID s) = None ->
  fst (storage.AddRecordBatch ext now records (s, w)) = None.
Proof.
  intros Hmk Hcr Hwr Hnone. unfold storage.AddRecordBatch.
  cbn [storage.bs_Writer storage.bs_Close storage.bs_Write storage.S3Storage_BackingStorage].
  unfold storage.S3Storage_Writer, storage.filey_Exists, storage.createCacheFile,
    os_MkdirAll, os_Create.
  unfold cache_path in Hnone. rewrite Hnone, Hmk, Hcr.
  rewrite bool_decide_eq_false_2 by (intros [? ?]; done).
  set (path := storage.recordBatchCachePath _ _).
  set (swc := storage.mkS3WriteCloser _ _ _).
  change (swc, with_disk w (<[path:=[]]> (disk w))) with (wrote swc w path []).
  rewrite Write_wrote_ok by done.
  destruct (storage.s3WriteCloser_Close _) as [er [swc2 w2]]. done.
Qed.

Lemma NewS3Storage_empty (ext : string) (input : storage.S3StorageInput) :
  storage.NewS3Storage ext input empty_world
  = (Ok (storage.mkStorage
           (filepath_Join (storage.RootDir input) (storage.Topic input)) 0 []
           (storage.mkS3Storage (storage.LocalCacheRoot input) (storage.BucketName input))),
     empty_world).
Proof. reflexivity. Qed.

(** ** The invariant of the coordinator *)

Lemma batch_ids_snoc (first : Z) (batches : list (list (list byte))) (b : list (list byte)) :
  batch_ids first (batches ++ [b]) = batch_ids first batches ++ [first + len (concat batches)].
Proof.
  revert first. induction batches as [|x xs IH]; intros first.
  - cbn. by rewrite Z.add_0_r.
  - cbn [batch_ids app concat]. rewrite IH, len_app. do 3 f_equal. lia.
Qed.

Lemma length_batch_ids (first : Z) (batches : list (list (list byte))) :
  length (batch_ids first batches) = length batches.
Proof.
  revert first. induction batches as [|x xs IH]; intros first; [done|].
  cbn [batch_ids length]. by rewrite IH.
Qed.

Lemma all_records_snoc (calls : list call) (c : call) :
  all_records (calls ++ [c]) = all_records calls ++ c_records c.
Proof.
  unfold all_records. rewrite map_app, concat_app. cbn. by rewrite app_nil_r.
Qed.

Lemma Inv_fresh (ext : string) (s : storage.Storage storage.S3Storage) (w : World) :
  storage.recordBatchIDs s = [] -> storage.nextRecordID s = 0 -> Inv ext [] s w.
Proof.
  intros HI HN. unfold Inv. rewrite HI, HN. repeat split. intros k id c Hk. done.
Qed.

Lemma Inv_step (ext : string) (calls : list call) (c : call)
    (s s' : storage.Storage storage.S3Storage) (w w' : World) :
  Inv ext calls s w ->
  storage.AddRecordBatch ext (c_now c) (c_records c) (s, with_faults w (c_faults c))
  = (None, (s', w')) ->
  len (all_records (calls ++ [c])) < 2 ^ 64 ->
  Inv ext (calls ++ [c]) s' w'
  /\ storage.topicPath s' = storage.topicPath s
  /\ storage.backingStorage s' = storage.backingStorage s.
Proof.
  intros (HI & HN & HD) Hadd Hlt.
  apply AddRecordBatch_S3_success in Hadd as (Hnone & -> & Hdisk & _).
  cbn [disk with_faults] in Hnone, Hdisk.
  rewrite all_records_snoc, len_app in Hlt.
  pose proof (len_nonneg (all_records calls)) as H1.
  pose proof (len_nonneg (c_records c)) as H2.
  split; [|done]. unfold Inv.
  cbn [storage.recordBatchIDs storage.nextRecordID].
  split; [|split].
  - rewrite map_app. cbn [map]. rewrite batch_ids_snoc, HI, HN. unfold all_records. done.
  - rewrite all_records_snoc, len_app, HN.
    rewrite (uint64_small (len (c_records c))) by lia. apply uint64_small. lia.
  - intros k id c' Hk Hc'. unfold cache_path in *.
    cbn [storage.backingStorage storage.topicPath] in *.
    rewrite Hdisk.
    assert (Hlen : length (storage.recordBatchIDs s) = length calls).
    { by rewrite HI, length_batch_ids, length_map. }
    destruct (decide (k < length calls)%nat) as [Hlt'|Hge].
    + rewrite lookup_app_l in Hk by lia. rewrite lookup_app_l in Hc' by lia.
      pose proof (HD k id c' Hk Hc') as Hold.
      rewrite lookup_insert_ne; [done|]. intros E. rewrite <- E in Hold. congruence.
    + apply lookup_lt_Some in Hk as Hk'. rewrite length_app in Hk'. cbn in Hk'.
      assert (k = length calls) as -> by lia.
      rewrite list_lookup_middle in Hc' by done. injection Hc' as <-.
      rewrite list_lookup_middle in Hk by done. injection Hk as <-.
      apply lookup_insert_eq.
Qed.

Lemma add_all_Inv (ext : string) (calls2 calls1 : list call)
    (s s' : storage.Storage storage.S3Storage) (w w' : World) :
  Inv ext calls1 s w ->
  add_all ext calls2 (s, w) = Some (s', w') ->
  len (all_records (calls1 ++ calls2)) < 2 ^ 64 ->
  Inv ext (calls1 ++ calls2) s' w'
  /\ storage.topicPath s' = storage.topicPath s
  /\ storage.backingStorage s' = storage.backingStorage s.
Proof.
  revert calls1 s w. induction calls2 as [|c rest IH]; intros calls1 s w HInv Hrun Hlt.
  - cbn in Hrun. injection Hrun as <- <-. by rewrite app_nil_r.
  - cbn [add_all fst snd] in Hrun.
    destruct (storage.AddRecordBatch _ _ _ _) as [[e|] [s1 w1]] eqn:Hadd; [done|].
    assert (Hsplit : calls1 ++ c :: rest = (calls1 ++ [c]) ++ rest)
      by (by rewrite <- app_assoc).
    rewrite Hsplit in *.
    assert (Hlt1 : len (all_records (calls1 ++ [c])) < 2 ^ 64).
    { unfold all_records in *. rewrite map_app, concat_app, len_app in Hlt.
      pose proof (len_nonneg (concat (map c_records rest))). lia. }
    destruct (Inv_step ext calls1 c s s1 w w1 HInv Hadd Hlt1) as (HInv1 & Htp & Hbs).
    destruct (IH _ _ _ HInv1 Hrun Hlt) as (HInv2 & Htp2 & Hbs2).
    split; [done|]. split; congruence.
Qed.

(** ** Locating the batch of a record *)

Lemma find_batch_app_skip (l1 l2 : list Z) (x : Z) :
  Forall (fun v => x < v) l1 ->
  storage.find_batch (l1 ++ l2) x = storage.find_batch l2 x.
Proof.
  induction 1 as [|v l Hv _ IH]; [done|].
  cbn [app storage.find_batch]. destruct (v <=? x) eqn:E; [lia|done].
Qed.

Lemma find_batch_app_found (l1 l2 : list Z) (x : Z) :
  Exists (fun v => v <= x) l1 ->
  storage.find_batch (l1 ++ l2) x = storage.find_batch l1 x.
Proof.
  induction l1 as [|v l IH]; intros Hex; [by apply Exists_nil in Hex|].
  cbn [app storage.find_batch]. destruct (v <=? x) eqn:E; [done|].
  apply IH. apply Exists_cons in Hex as [Hv|Hl]; [lia|done].
Qed.

Lemma batch_ids_ge (first : Z) (batches : list (list (list byte))) :
  Forall (fun v => first <= v) (batch_ids first batches).
Proof.
  revert first. induction batches as [|b rest IH]; intros first; [by constructor|].
  cbn [batch_ids]. constructor; [lia|].
  eapply Forall_impl; [apply IH|]. intros v Hv. cbn in Hv.
  pose proof (len_nonneg b). lia.
Qed.

Lemma locate (first : Z) (batches : list (list (list byte))) (i : nat)
    (rec : list byte) :
  concat batches !! i = Some rec ->
  exists (k j : nat) (b : list (list byte)) (id : Z),
    batches !! k = Some b
    /\ batch_ids first batches !! k = Some id
    /\ b !! j = Some rec
    /\ first + Z.of_nat i = id + Z.of_nat j
    /\ storage.find_batch (rev (batch_ids first batches)) (first + Z.of_nat i) = id
    /\ (forall v, In v (batch_ids first batches) -> v <= first + Z.of_nat i -> v <= id).
Proof.
  revert first i. induction batches as [|b rest IH]; intros first i Hi; [done|].
  cbn [concat] in Hi. cbn [batch_ids rev].
  pose proof (batch_ids_ge (first + len b) rest) as Hge.
  apply lookup_app_Some in Hi as [Hin|[Hlen Hin]].
  - (* the record is in the first batch *)
    pose proof (lookup_lt_Some _ _ _ Hin) as Hlt.
    exists 0%nat, i, b, first.
    split; [done|]. split; [done|]. split; [done|]. split; [done|].
    split.
    + rewrite find_batch_app_skip.
      * cbn. destruct (first <=? first + Z.of_nat i) eqn:E; [done|lia].
      * apply Forall_rev. eapply Forall_impl; [exact Hge|].
        intros v Hv. cbn in Hv. unfold len in Hv. lia.
    + intros v [<-|Hv] Hle; [lia|].
      rewrite Forall_forall in Hge. apply list_elem_of_In in Hv.
      apply Hge in Hv. unfold len in Hv. lia.
  - (* the record is in a later batch *)
    destruct (IH (first + len b) (i - length b)%nat Hin)
      as (k & j & b' & id & Hb' & Hid & Hj & Heq & Hfind & Hmax).
    assert (Hx : first + len b + Z.of_nat (i - length b) = first + Z.of_nat i)
      by (unfold len; lia).
    rewrite Hx in *.
    assert (Hidge : first + len b <= id).
    { rewrite Forall_forall in Hge. apply Hge.
      eapply list_elem_of_lookup_2. exact Hid. }
    exists (S k), j, b', id.
    split; [done|]. split; [done|]. split; [done|]. split; [done|].
    split.
    + rewrite find_batch_app_found; [done|].
      apply Exists_exists. exists id. split; [|lia].
      apply list_elem_of_In. apply -> in_rev. apply list_elem_of_In.
      eapply list_elem_of_lookup_2. exact Hid.
    + intros v [<-|Hv] Hle; [pose proof (len_nonneg b); lia|]. by apply Hmax.
Qed.

(** ** Reading through the object-store backing *)

Lemma Reader_S3_cached (ss : storage.S3Storage) (path : string) (w : World)
    (file : list byte) :
  faults w sys_open = false ->
  disk w !! storage.recordBatchCachePath ss path = Some file ->
  storage.S3Storage_Reader ss path w = (Ok (mkReadSeeker file 0 (faults w)), w).
Proof.
  intros Hop Hfile. unfold storage.S3Storage_Reader, storage.os_Open.
  rewrite Hop, Hfile. unfold storage.reader_of, file_contents. cbn [f_path f_pos].
  by rewrite Hfile.
Qed.

Lemma ReadRecord_cached (ext : string) (recordID : Z)
    (s : storage.Storage storage.S3Storage) (w : World) (file : list byte) :
  recordID < storage.nextRecordID s ->
  faults w sys_open = false ->
  disk w !! cache_path ext s
              (storage.find_batch (rev (storage.recordBatchIDs s)) recordID) = Some file ->
  storage.ReadRecord ext recordID (s, w)
  = (match recordbatch.Parse (mkReadSeeker file 0 (faults w)) with
     | Err e => Err e
     | Ok rb =>
         fst (recordbatch.Record_ rb
                (uint32 (recordID
                         - storage.find_batch (rev (storage.recordBatchIDs s)) recordID)))
     end, (s, w)).
Proof.
  intros Hlt Hop Hfile. unfold storage.ReadRecord.
  destruct (storage.nextRecordID s <=? recordID) eqn:E; [lia|].
  cbn [storage.bs_Reader storage.S3Storage_BackingStorage].
  unfold cache_path in Hfile.
  rewrite (Reader_S3_cached _ _ _ file Hop Hfile).
  destruct (recordbatch.Parse _) as [rb|e]; [|done].
  destruct (recordbatch.Record_ _ _) as [[rec|e] rb']; done.
Qed.

(** ** Reading back what the coordinator stored *)

Lemma Inv_reached (ext : string) (input : storage.S3StorageInput) (calls : list call)
    (s0 s : storage.Storage storage.S3Storage) (w0 w : World) :
  storage.NewS3Storage ext input empty_world = (Ok s0, w0) ->
  add_all ext calls (s0, w0) = Some (s, w) ->
  len (all_records calls) < 2 ^ 64 ->
  Inv ext calls s w.
Proof.
  intros Hnew Hrun Hlt. rewrite NewS3Storage_empty in Hnew. injection Hnew as <- <-.
  eapply (add_all_Inv ext calls []); [|exact Hrun|exact Hlt].
  by apply Inv_fresh.
Qed.

Lemma Inv_locate (ext : string) (calls : list call)
    (s : storage.Storage storage.S3Storage) (w : World) (i : nat) (rec : list byte) :
  Inv ext calls s w ->
  all_records calls !! i = Some rec ->
  exists (k j : nat) (c : call) (batchID : Z),
    calls !! k = Some c
    /\ storage.recordBatchIDs s !! k = Some batchID
    /\ c_records c !! j = Some rec
    /\ Z.of_nat j = Z.of_nat i - batchID
    /\ storage.find_batch (rev (storage.recordBatchIDs s)) (Z.of_nat i) = batchID
    /\ batchID <= Z.of_nat i
    /\ (forall v, In v (storage.recordBatchIDs s) -> v <= Z.of_nat i -> v <= batchID)
    /\ disk w !! cache_path ext s batchID = Some (batch_file (c_now c) (c_records c))
    /\ Z.of_nat i < storage.nextRecordID s.
Proof.
  intros (HI & HN & HD) Hi.
  destruct (locate 0 (map c_records calls) i rec Hi)
    as (k & j & b & id & Hb & Hid & Hj & Heq & Hfind & Hmax).
  rewrite list_lookup_fmap in Hb.
  destruct (calls !! k) as [c|] eqn:Hc; [|done]. cbn in Hb. injection Hb as <-.
  rewrite Z.add_0_l in *. rewrite <- HI in *.
  exists k, j, c, id.
  repeat split; try done; try lia.
  - eauto.
  - rewrite HN. apply lookup_lt_Some in Hi. unfold len. lia.
Qed.

(** C1 (amended): on a coordinator constructed over an empty object store
    and cache, after every sequence of successful [AddRecordBatch] calls in
    which each batch fits the format (its header, index and records other
    than the last end below offset [2^32]) and fewer than [2^64] records
    are submitted in all, [ReadRecord(i)] without I/O faults returns the
    [i]-th submitted record; the record is found in the batch whose ID is
    the greatest element of [recordBatchIDs] that is at most [i], at
    offset [i - batchID] in that batch. *)
Theorem C1_storage_roundtrip (ext : string) (input : storage.S3StorageInput)
    (calls : list call) (s0 s : storage.Storage storage.S3Storage) (w0 w : World)
    (i : nat) (rec : list byte) :
  storage.NewS3Storage ext input empty_world = (Ok s0, w0) ->
  add_all ext calls (s0, w0) = Some (s, w) ->
  Forall (fun c => batch_fits (c_records c)) calls ->
  len (all_records calls) < 2 ^ 64 ->
  all_records calls !! i = Some rec ->
  storage.ReadRecord ext (Z.of_nat i) (s, with_faults w no_faults)
  = (Ok rec, (s, with_faults w no_faults))
  /\ exists (k j : nat) (c : call) (batchID : Z),
       calls !! k = Some c
       /\ storage.recordBatchIDs s !! k = Some batchID
       /\ c_records c !! j = Some rec
       /\ Z.of_nat j = Z.of_nat i - batchID
       /\ storage.find_batch (rev (storage.recordBatchIDs s)) (Z.of_nat i) = batchID
       /\ batchID <= Z.of_nat i
       /\ (forall v, In v (storage.recordBatchIDs s) -> v <= Z.of_nat i -> v <= batchID).
Proof.
  intros Hnew Hrun Hfit Hlt Hi.
  pose proof (Inv_reached ext input calls s0 s w0 w Hnew Hrun Hlt) as HInv.
  destruct (Inv_locate ext calls s w i rec HInv Hi)
    as (k & j & c & id & Hc & Hid & Hj & Heq & Hfind & Hle & Hmax & Hdisk & Hnext).
  split; [|by exists k, j, c, id].
  rewrite (ReadRecord_cached ext (Z.of_nat i) s (with_faults w no_faults)
             (batch_file (c_now c) (c_records c)));
    [|done|done|by rewrite Hfind].
  cbn [faults with_faults].
  destruct (Parse_batch_file (c_now c) (c_records c) no_faults eq_refl) as [pos HP].
  rewrite HP.
  assert (Hfitc : batch_fits (c_records c)).
  { rewrite Forall_forall in Hfit. apply Hfit. eapply list_elem_of_lookup_2. exact Hc. }
  pose proof (lookup_lt_Some _ _ _ Hj) as Hjlt.
  destruct (batch_fits_bounds _ j Hfitc Hjlt) as [Hp0 Hpj].
  pose proof (len_nonneg (c_records c)) as Hn.
  rewrite (uint32_small (len (c_records c))) by lia.
  rewrite take_ge by (rewrite length_recordIndexes; unfold len; lia).
  rewrite Hfind. replace (Z.of_nat i - id) with (Z.of_nat j) by lia.
  rewrite (uint32_small (Z.of_nat j)) by (unfold len in *; lia).
  by rewrite (Record_batch_file _ _ no_faults pos j rec eq_refl eq_refl Hfitc Hj).
Qed.

(** One successful call on a fresh coordinator. *)
Lemma single_batch (ext : string) (input : storage.S3StorageInput) (now : Z)
    (records : list (list byte)) (s0 : storage.Storage storage.S3Storage) (w0 : World) :
  storage.NewS3Storage ext input empty_world = (Ok s0, w0) ->
  exists s w,
    add_all ext [mkCall now no_faults records] (s0, w0) = Some (s, w)
    /\ storage.recordBatchIDs s = [0]
    /\ storage.nextRecordID s = uint64 (0 + uint64 (len records))
    /\ disk w !! cache_path ext s 0 = Some (batch_file now records)
    /\ faults w = no_faults.
Proof.
  intros Hnew. rewrite NewS3Storage_empty in Hnew. injection Hnew as <- <-.
  cbn [add_all fst snd c_now c_faults c_records].
  set (s0 := storage.mkStorage _ _ _ _).
  pose proof (AddRecordBatch_S3_returns_nil ext now records s0
                (with_faults empty_world no_faults) eq_refl eq_refl
                (fun _ => eq_refl) (lookup_empty _)) as Hnil.
  destruct (storage.AddRecordBatch _ _ _ _) as [e [s w]] eqn:Hadd.
  cbn [fst] in Hnil. subst e.
  apply AddRecordBatch_S3_success in Hadd as (_ & -> & Hdisk & Hf).
  exists (storage.mkStorage (storage.topicPath s0)
            (uint64 (storage.nextRecordID s0 + uint64 (len records)))
            (storage.recordBatchIDs s0 ++ [storage.nextRecordID s0])
            (storage.backingStorage s0)), w.
  split; [done|]. split; [done|]. split; [done|]. split; [|done].
  rewrite Hdisk. apply lookup_insert_eq.
Qed.

(** C1, counterexample: on a fresh coordinator one successful
    [AddRecordBatch] with a record of [2^32] zero bytes followed by the
    record [0x01]; [ReadRecord(0)] returns the empty byte sequence, not the
    first record. *)
Lemma C1_counterexample :
  let ext := ".record-batch"%string in
  let input := storage.mkS3StorageInput "cache" "bucket" "root" "topic" in
  let calls := [mkCall 0 no_faults [big_record; [x01]]] in
  exists s0 w0 s w,
    storage.NewS3Storage ext input empty_world = (Ok s0, w0)
    /\ add_all ext calls (s0, w0) = Some (s, w)
    /\ all_records calls !! 0%nat = Some big_record
    /\ fst (storage.ReadRecord ext 0 (s, with_faults w no_faults)) = Ok []
    /\ fst (storage.ReadRecord ext 0 (s, with_faults w no_faults)) <> Ok big_record.
Proof.
  intros ext input calls.
  destruct (single_batch ext input 0 [big_record; [x01]] _ _ (NewS3Storage_empty ext input))
    as (s & w & Hrun & HI & HN & Hdisk & Hf).
  destruct (Record_wraps 0 big_record len_big_record) as (rb & HP & HR & Hne).
  assert (Hread : fst (storage.ReadRecord ext 0 (s, with_faults w no_faults)) = Ok []).
  { rewrite (ReadRecord_cached ext 0 s (with_faults w no_faults)
               (batch_file 0 [big_record; [x01]])).
    - cbn [fst faults with_faults]. unfold bytes_NewReader in HP. rewrite HP.
      rewrite HI. cbn [rev app storage.find_batch]. exact HR.
    - rewrite HN. done.
    - done.
    - rewrite HI. cbn [rev app storage.find_batch]. exact Hdisk. }
  eexists _, _, s, w.
  split; [apply NewS3Storage_empty|]. split; [exact Hrun|].
  split; [reflexivity|]. split; [exact Hread|].
  rewrite Hread. exact Hne.
Qed.

(** The amended C1 at two batches of two and one records, third record. *)
Lemma C1_storage_roundtrip_witness :
  let ext := ".record-batch"%string in
  let input := storage.mkS3StorageInput "cache" "bucket" "root" "topic" in
  let calls := [mkCall 1 no_faults [[x00]; [x01; x01]]; mkCall 2 no_faults [[x02]]] in
  exists s0 w0 s w,
    storage.NewS3Storage ext input empty_world = (Ok s0, w0)
    /\ add_all ext calls (s0, w0) = Some (s, w)
    /\ storage.ReadRecord ext (Z.of_nat 2) (s, with_faults w no_faults)
       = (Ok [x02], (s, with_faults w no_faults))
    /\ exists (k j : nat) (c : call) (batchID : Z),
         calls !! k = Some c
         /\ storage.recordBatchIDs s !! k = Some batchID
         /\ c_records c !! j = Some [x02]
         /\ Z.of_nat j = Z.of_nat 2 - batchID
         /\ storage.find_batch (rev (storage.recordBatchIDs s)) (Z.of_nat 2) = batchID
         /\ batchID <= Z.of_nat 2
         /\ (forall v, In v (storage.recordBatchIDs s) -> v <= Z.of_nat 2 -> v <= batchID).
Proof.
  intros ext input calls.
  destruct (storage.NewS3Storage ext input empty_world) as [[s0|e] w0] eqn:Hnew;
    [|vm_compute in Hnew; discriminate].
  destruct (add_all ext calls (s0, w0)) as [[s w]|] eqn:Hrun.
  - exists s0, w0, s, w. split; [reflexivity|]. split; [exact Hrun|].
    apply (C1_storage_roundtrip ext input calls s0 s w0 w 2 [x02] Hnew Hrun).
    + repeat constructor.
    + vm_compute. reflexivity.
    + reflexivity.
  - exfalso. rewrite NewS3Storage_empty in Hnew. injection Hnew as <- <-.
    vm_compute in Hrun. discriminate.
Defined.

(** ** Out-of-bounds reads *)

Lemma Record_not_OutOfBounds (rb : recordbatch.RecordBatch) (i : Z) (e : error) :
  i < recordbatch.NumRecords (recordbatch.rb_Header rb) ->
  fst (recordbatch.Record_ rb i) = Err e ->
  is_OutOfBounds e = false.
Proof.
  intros Hlt. unfold recordbatch.Record_.
  destruct (recordbatch.NumRecords (recordbatch.rb_Header rb) <=? i) eqn:E; [lia|].
  destruct (recordbatch.recordIndex rb !! Z.to_nat i) as [off|]; [|by intros [= <-]].
  unfold rs_Seek.
  destruct (rs_faults (recordbatch.rdr rb) sys_seek); [by intros [= <-]|].
  destruct (_ <? 0); [by intros [= <-]|].
  destruct (i =? _).
  - unfold io_ReadAll. cbn [rs_faults].
    destruct (rs_faults (recordbatch.rdr rb) sys_read); cbn; [by intros [= <-]|done].
  - destruct (recordbatch.recordIndex rb !! _) as [next|]; [|by intros [= <-]].
    unfold io_ReadFull. cbn [rs_faults].
    destruct (_ <=? 0); [done|].
    destruct (rs_faults (recordbatch.rdr rb) sys_read); [by intros [= <-]|].
    destruct (_ =? 0); [by intros [= <-]|].
    destruct (_ <? _); [by intros [= <-]|done].
Qed.

Lemma Parse_read_fault (data : list byte) (pos : Z) (flt : fault_plan) :
  flt sys_read = true ->
  recordbatch.Parse (mkReadSeeker data pos flt) = Err (ErrSyscall sys_read).
Proof.
  intros Hrd. unfold recordbatch.Parse, io_ReadFull. cbn [rs_faults].
  change (recordbatch.headerBytes <=? 0) with false. cbv iota. by rewrite Hrd.
Qed.

Lemma ReadRecord_open_fault (ext : string) (recordID : Z)
    (s : storage.Storage storage.S3Storage) (w : World) :
  recordID < storage.nextRecordID s ->
  faults w sys_open = true ->
  fst (storage.ReadRecord ext recordID (s, w)) = Err (ErrSyscall sys_open).
Proof.
  intros Hlt Hop. unfold storage.ReadRecord.
  destruct (storage.nextRecordID s <=? recordID) eqn:E; [lia|].
  cbn [storage.bs_Reader storage.S3Storage_BackingStorage].
  unfold storage.S3Storage_Reader, storage.os_Open. by rewrite Hop.
Qed.

Lemma ReadRecord_beyond (ext : string) (recordID : Z)
    (s : storage.Storage storage.S3Storage) (w : World) :
  storage.nextRecordID s <= recordID ->
  storage.ReadRecord ext recordID (s, w) = (Err storage_ErrOutOfBounds, (s, w)).
Proof.
  intros Hge. unfold storage.ReadRecord.
  destruct (storage.nextRecordID s <=? recordID) eqn:E; [done|lia].
Qed.

Lemma ReadRecord_within (ext : string) (calls : list call)
    (s : storage.Storage storage.S3Storage) (w : World) (recordID : Z)
    (flt : fault_plan) (e : error) :
  Inv ext calls s w ->
  Forall (fun c => len (c_records c) < 2 ^ 32) calls ->
  0 <= recordID < storage.nextRecordID s ->
  fst (storage.ReadRecord ext recordID (s, with_faults w flt)) = Err e ->
  is_OutOfBounds e = false.
Proof.
  intros HInv Hsmall [H0 Hlt] Herr.
  assert (Hi : is_Some (all_records calls !! Z.to_nat recordID)).
  { apply lookup_lt_is_Some. destruct HInv as (_ & HN & _). unfold len in HN. lia. }
  destruct Hi as [rec Hi].
  destruct (Inv_locate ext calls s w _ rec HInv Hi)
    as (k & j & c & id & Hc & Hid & Hj & Heq & Hfind & Hle & Hmax & Hdisk & Hnext).
  rewrite Z2Nat.id in * by lia.
  destruct (flt sys_open) eqn:Hop.
  { rewrite ReadRecord_open_fault in Herr by done. by injection Herr as <-. }
  rewrite (ReadRecord_cached ext recordID s (with_faults w flt)
             (batch_file (c_now c) (c_records c))) in Herr;
    [|done|done|by rewrite Hfind].
  cbn [fst faults with_faults] in Herr.
  destruct (flt sys_read) eqn:Hrd.
  { rewrite Parse_read_fault in Herr by done. by injection Herr as <-. }
  destruct (Parse_batch_file (c_now c) (c_records c) flt Hrd) as [pos HP].
  rewrite HP in Herr.
  eapply Record_not_OutOfBounds; [|exact Herr].
  cbn [recordbatch.rb_Header]. rewrite NumRecords_written_header.
  assert (Hc32 : len (c_records c) < 2 ^ 32).
  { rewrite Forall_forall in Hsmall. apply Hsmall. eapply list_elem_of_lookup_2. exact Hc. }
  pose proof (len_nonneg (c_records c)) as Hn.
  pose proof (lookup_lt_Some _ _ _ Hj) as Hjlt.
  rewrite (uint32_small (len (c_records c))) by lia.
  rewrite Hfind. replace (recordID - id) with (Z.of_nat j) by lia.
  rewrite uint32_small by (unfold len in *; lia). unfold len. lia.
Qed.

(** C3 (amended): on a coordinator constructed over an empty object store
    and cache, after every sequence of successful [AddRecordBatch] calls
    with fewer than [2^32] records in each batch and fewer than [2^64]
    records in all, [nextRecordID] is the number of persisted records, and
    for every record ID and whatever I/O faults occur during the read,
    [ReadRecord(recordID)] fails with [OutOfBounds] if and only if
    [recordID >= nextRecordID]; so [ReadRecord(count + k)] is
    [OutOfBounds] for every [k >= 0], and so is [ReadRecord(0)] on the
    fresh coordinator. *)
Theorem C3_out_of_bounds (ext : string) (input : storage.S3StorageInput)
    (calls : list call) (s0 s : storage.Storage storage.S3Storage) (w0 w : World)
    (recordID : Z) (flt : fault_plan) :
  storage.NewS3Storage ext input empty_world = (Ok s0, w0) ->
  add_all ext calls (s0, w0) = Some (s, w) ->
  Forall (fun c => len (c_records c) < 2 ^ 32) calls ->
  len (all_records calls) < 2 ^ 64 ->
  0 <= recordID ->
  storage.nextRecordID s = len (all_records calls)
  /\ ((exists e, fst (storage.ReadRecord ext recordID (s, with_faults w flt)) = Err e
                 /\ is_OutOfBounds e = true)
      <-> storage.nextRecordID s <= recordID)
  /\ (forall k, 0 <= k ->
        fst (storage.ReadRecord ext (storage.nextRecordID s + k) (s, with_faults w flt))
        = Err storage_ErrOutOfBounds)
  /\ fst (storage.ReadRecord ext 0 (s0, w0)) = Err storage_ErrOutOfBounds.
Proof.
  intros Hnew Hrun Hsmall Hlt H0.
  pose proof (Inv_reached ext input calls s0 s w0 w Hnew Hrun Hlt) as HInv.
  split; [by destruct HInv as (_ & HN & _)|]. split; [|split].
  - split.
    + intros (e & Herr & Hoob).
      destruct (decide (storage.nextRecordID s <= recordID)) as [|Hn]; [done|].
      exfalso.
      rewrite (ReadRecord_within ext calls s w recordID flt e HInv Hsmall) in Hoob;
        [done|lia|done].
    + intros Hge. exists storage_ErrOutOfBounds.
      by rewrite ReadRecord_beyond.
  - intros k Hk. rewrite ReadRecord_beyond; [done|lia].
  - rewrite NewS3Storage_empty in Hnew. injection Hnew as <- <-. reflexivity.
Qed.

Lemma len_many_empty_records : len many_empty_records = 2 ^ 32.
Proof.
  unfold len, many_empty_records. rewrite length_replicate. apply Z2Nat.id. lia.
Qed.

(** A batch of [2^32] records is written with a record count of zero. *)
Lemma count_wraps (now : Z) (records : list (list byte)) (flt : fault_plan) :
  len records = 2 ^ 32 -> flt sys_read = false ->
  exists rb,
    recordbatch.Parse (mkReadSeeker (batch_file now records) 0 flt) = Ok rb
    /\ fst (recordbatch.Record_ rb (uint32 (0 - 0))) = Err recordbatch_ErrOutOfBounds.
Proof.
  intros Hlen Hrd.
  destruct (Parse_batch_file now records flt Hrd) as [pos HP].
  eexists. split; [exact HP|].
  unfold recordbatch.Record_. cbn [recordbatch.rb_Header].
  rewrite NumRecords_written_header, Hlen. reflexivity.
Qed.

(** C3, counterexample: on a fresh coordinator one successful
    [AddRecordBatch] with [2^32] empty records; [nextRecordID] is [2^32],
    the number of persisted records, and [ReadRecord(0)] fails with
    [OutOfBounds] although [0 < 2^32]. *)
Lemma C3_counterexample :
  let ext := ".record-batch"%string in
  let input := storage.mkS3StorageInput "cache" "bucket" "root" "topic" in
  let calls := [mkCall 0 no_faults many_empty_records] in
  exists s0 w0 s w,
    storage.NewS3Storage ext input empty_world = (Ok s0, w0)
    /\ add_all ext calls (s0, w0) = Some (s, w)
    /\ len (all_records calls) = 2 ^ 32
    /\ storage.nextRecordID s = 2 ^ 32
    /\ fst (storage.ReadRecord ext 0 (s, with_faults w no_faults))
       = Err recordbatch_ErrOutOfBounds
    /\ is_OutOfBounds recordbatch_ErrOutOfBounds = true
    /\ ~ storage.nextRecordID s <= 0.
Proof.
  intros ext input calls.
  destruct (single_batch ext input 0 many_empty_records _ _ (NewS3Storage_empty ext input))
    as (s & w & Hrun & HI & HN & Hdisk & Hf).
  rewrite len_many_empty_records in HN.
  change (uint64 (0 + uint64 (2 ^ 32))) with (2 ^ 32) in HN.
  destruct (count_wraps 0 many_empty_records no_faults len_many_empty_records eq_refl)
    as (rb & HP & HR).
  eexists _, _, s, w.
  split; [apply NewS3Storage_empty|]. split; [exact Hrun|].
  split.
  { unfold all_records, calls. cbn [map concat c_records]. rewrite app_nil_r.
    apply len_many_empty_records. }
  split; [exact HN|]. split; [|split; [reflexivity|rewrite HN; lia]].
  rewrite (ReadRecord_cached ext 0 s (with_faults w no_faults)
             (batch_file 0 many_empty_records)).
  - cbn [fst faults with_faults]. rewrite HP.
    rewrite HI. cbn [rev app storage.find_batch]. exact HR.
  - rewrite HN. lia.
  - done.
  - rewrite HI. cbn [rev app storage.find_batch]. exact Hdisk.
Qed.

(** The amended C3 at two batches of two and one records, reading record 5
    while seeks fail. *)
Lemma C3_out_of_bounds_witness :
  let ext := ".record-batch"%string in
  let input := storage.mkS3StorageInput "cache" "bucket" "root" "topic" in
  let calls := [mkCall 1 no_faults [[x00]; [x01; x01]]; mkCall 2 no_faults [[x02]]] in
  let flt := fun c => match c with sys_seek => true | _ => false end in
  exists s0 w0 s w,
    storage.NewS3Storage ext input empty_world = (Ok s0, w0)
    /\ add_all ext calls (s0, w0) = Some (s, w)
    /\ storage.nextRecordID s = len (all_records calls)
    /\ ((exists e, fst (storage.ReadRecord ext 5 (s, with_faults w flt)) = Err e
                   /\ is_OutOfBounds e = true)
        <-> storage.nextRecordID s <= 5)
    /\ (forall k, 0 <= k ->
          fst (storage.ReadRecord ext (storage.nextRecordID s + k) (s, with_faults w flt))
          = Err storage_ErrOutOfBounds)
    /\ fst (storage.ReadRecord ext 0 (s0, w0)) = Err storage_ErrOutOfBounds.
Proof.
  intros ext input calls flt.
  destruct (storage.NewS3Storage ext input empty_world) as [[s0|e] w0] eqn:Hnew;
    [|vm_compute in Hnew; discriminate].
  destruct (add_all ext calls (s0, w0)) as [[s w]|] eqn:Hrun.
  - exists s0, w0, s, w. split; [reflexivity|]. split; [exact Hrun|].
    apply (C3_out_of_bounds ext input calls s0 s w0 w 5 flt Hnew Hrun).
    + repeat constructor.
    + vm_compute. reflexivity.
    + lia.
  - exfalso. rewrite NewS3Storage_empty in Hnew. injection Hnew as <- <-.
    vm_compute in Hrun. discriminate.
Defined.

(** ** The sequence of batch IDs *)

Lemma batch_ids_le (first : Z) (batches : list (list (list byte))) :
  Forall (fun v => v <= first + len (concat batches)) (batch_ids first batches).
Proof.
  revert first. induction batches as [|b rest IH]; intros first; [by constructor|].
  cbn [batch_ids concat]. rewrite len_app.
  pose proof (len_nonneg b). pose proof (len_nonneg (concat rest)).
  constructor; [lia|].
  eapply Forall_impl; [apply IH|]. intros v Hv. cbn in Hv. lia.
Qed.

Lemma Inv_step_sorted (ext : string) (calls : list call) (c : call)
    (s s' : storage.Storage storage.S3Storage) (w w' : World) :
  Inv ext calls s w ->
  StronglySorted Z.lt (storage.recordBatchIDs s) ->
  storage.AddRecordBatch ext (c_now c) (c_records c) (s, with_faults w (c_faults c))
  = (None, (s', w')) ->
  StronglySorted Z.lt (storage.recordBatchIDs s').
Proof.
  intros (HI & HN & HD) Hsorted Hadd.
  apply AddRecordBatch_S3_success in Hadd as (Hnone & -> & _ & _).
  cbn [disk with_faults] in Hnone. cbn [storage.recordBatchIDs].
  apply StronglySorted_app_2; [|done|repeat constructor].
  intros x1 x2 Hx1 Hx2. apply list_elem_of_singleton in Hx2 as ->.
  pose proof (batch_ids_le 0 (map c_records calls)) as Hle.
  rewrite <- HI in Hle. rewrite Forall_forall in Hle.
  specialize (Hle x1 Hx1). fold (all_records calls) in Hle. rewrite <- HN in Hle.
  destruct (decide (x1 = storage.nextRecordID s)) as [->|Hne]; [|lia].
  exfalso. apply list_elem_of_lookup in Hx1 as [k Hk].
  assert (Hc : is_Some (calls !! k)).
  { apply lookup_lt_is_Some. apply lookup_lt_Some in Hk.
    rewrite HI, length_batch_ids, length_map in Hk. done. }
  destruct Hc as [c' Hc]. rewrite (HD k _ c' Hk Hc) in Hnone. done.
Qed.

Lemma add_all_sorted (ext : string) (calls2 calls1 : list call)
    (s s' : storage.Storage storage.S3Storage) (w w' : World) :
  Inv ext calls1 s w ->
  StronglySorted Z.lt (storage.recordBatchIDs s) ->
  add_all ext calls2 (s, w) = Some (s', w') ->
  len (all_records (calls1 ++ calls2)) < 2 ^ 64 ->
  StronglySorted Z.lt (storage.recordBatchIDs s').
Proof.
  revert calls1 s w. induction calls2 as [|c rest IH];
    intros calls1 s w HInv Hsorted Hrun Hlt.
  - cbn in Hrun. by injection Hrun as <- <-.
  - cbn [add_all fst snd] in Hrun.
    destruct (storage.AddRecordBatch _ _ _ _) as [[e|] [s1 w1]] eqn:Hadd; [done|].
    assert (Hsplit : calls1 ++ c :: rest = (calls1 ++ [c]) ++ rest)
      by (by rewrite <- app_assoc).
    rewrite Hsplit in Hlt.
    assert (Hlt1 : len (all_records (calls1 ++ [c])) < 2 ^ 64).
    { unfold all_records in *. rewrite map_app, concat_app, len_app in Hlt.
      pose proof (len_nonneg (concat (map c_records rest))). lia. }
    destruct (Inv_step ext calls1 c s s1 w w1 HInv Hadd Hlt1) as (HInv1 & _ & _).
    eapply (IH (calls1 ++ [c])); [exact HInv1| |exact Hrun|exact Hlt].
    exact (Inv_step_sorted ext calls1 c s s1 w w1 HInv Hsorted Hadd).
Qed.

Lemma batch_ids_0 (batches : list (list (list byte))) :
  In 0 (batch_ids 0 batches) <-> batches <> [].
Proof.
  destruct batches as [|b rest]; cbn [batch_ids].
  - split; [by intros []|done].
  - split; [done|]. intros _. by left.
Qed.

(** C6 (amended): on a coordinator constructed over an empty object store
    and cache, after every sequence of successful [AddRecordBatch] calls,
    calls with an empty record list included, with fewer than [2^64]
    records in all, [recordBatchIDs] is strictly increasing; batch ID 0 is
    present if and only if at least one call was made, so it is present
    whenever a record exists, and when no call had an empty record list
    it is present if and only if at least one record exists. *)
Theorem C6_batch_ids (ext : string) (input : storage.S3StorageInput)
    (calls : list call) (s0 s : storage.Storage storage.S3Storage) (w0 w : World) :
  storage.NewS3Storage ext input empty_world = (Ok s0, w0) ->
  add_all ext calls (s0, w0) = Some (s, w) ->
  len (all_records calls) < 2 ^ 64 ->
  StronglySorted Z.lt (storage.recordBatchIDs s)
  /\ (In 0 (storage.recordBatchIDs s) <-> calls <> [])
  /\ (all_records calls <> [] -> In 0 (storage.recordBatchIDs s))
  /\ (Forall (fun c => c_records c <> []) calls ->
      (In 0 (storage.recordBatchIDs s) <-> all_records calls <> [])).
Proof.
  intros Hnew Hrun Hlt.
  pose proof (Inv_reached ext input calls s0 s w0 w Hnew Hrun Hlt) as HInv.
  rewrite NewS3Storage_empty in Hnew. injection Hnew as <- <-.
  assert (H0 : In 0 (storage.recordBatchIDs s) <-> calls <> []).
  { destruct HInv as (HI & _ & _). rewrite HI, batch_ids_0.
    destruct calls; cbn; split; done. }
  split; [|split; [exact H0|split]].
  - refine (add_all_sorted ext calls [] _ s _ w _ _ Hrun Hlt);
      [by apply Inv_fresh|constructor].
  - intros Hne. apply H0. intros ->. by apply Hne.
  - intros Hall. rewrite H0. split.
    + intros Hne. destruct calls as [|c rest]; [done|].
      apply Forall_cons in Hall as [Hc _].
      unfold all_records. cbn [map concat]. intros Happ.
      apply app_eq_nil in Happ as [? _]. done.
    + intros Hne ->. by apply Hne.
Qed.

(** C6, counterexample: on a fresh coordinator one successful
    [AddRecordBatch] with an empty record list makes [recordBatchIDs] equal
    to [0] alone, so batch ID 0 is present, while no record exists. *)
Lemma C6_counterexample :
  let ext := ".record-batch"%string in
  let input := storage.mkS3StorageInput "cache" "bucket" "root" "topic" in
  let calls := [mkCall 0 no_faults []] in
  exists s0 w0 s w,
    storage.NewS3Storage ext input empty_world = (Ok s0, w0)
    /\ add_all ext calls (s0, w0) = Some (s, w)
    /\ storage.recordBatchIDs s = [0]
    /\ In 0 (storage.recordBatchIDs s)
    /\ all_records calls = []
    /\ storage.nextRecordID s = 0.
Proof.
  intros ext input calls.
  destruct (single_batch ext input 0 [] _ _ (NewS3Storage_empty ext input))
    as (s & w & Hrun & HI & HN & _ & _).
  eexists _, _, s, w.
  split; [apply NewS3Storage_empty|]. split; [exact Hrun|].
  split; [exact HI|]. split; [rewrite HI; by left|]. split; [reflexivity|exact HN].
Qed.

(** The amended C6 at a batch of two records followed by an empty batch. *)
Lemma C6_batch_ids_witness :
  let ext := ".record-batch"%string in
  let input := storage.mkS3StorageInput "cache" "bucket" "root" "topic" in
  let calls := [mkCall 1 no_faults [[x00]; [x01; x01]]; mkCall 2 no_faults []] in
  exists s0 w0 s w,
    storage.NewS3Storage ext input empty_world = (Ok s0, w0)
    /\ add_all ext calls (s0, w0) = Some (s, w)
    /\ StronglySorted Z.lt (storage.recordBatchIDs s)
    /\ (In 0 (storage.recordBatchIDs s) <-> calls <> [])
    /\ (all_records calls <> [] -> In 0 (storage.recordBatchIDs s))
    /\ (Forall (fun c => c_records c <> []) calls ->
        (In 0 (storage.recordBatchIDs s) <-> all_records calls <> [])).
Proof.
  intros ext input calls.
  destruct (storage.NewS3Storage ext input empty_world) as [[s0|e] w0] eqn:Hnew;
    [|vm_compute in Hnew; discriminate].
  destruct (add_all ext calls (s0, w0)) as [[s w]|] eqn:Hrun.
  - exists s0, w0, s, w. split; [reflexivity|]. split; [exact Hrun|].
    apply (C6_batch_ids ext input calls s0 s w0 w Hnew Hrun).
    vm_compute. reflexivity.
  - exfalso. rewrite NewS3Storage_empty in Hnew. injection Hnew as <- <-.
    vm_compute in Hrun. discriminate.
Defined.

(** ** The coordinator over any backing storage *)

Section AnyBacking.

Context {B Σ WC : Type} `{storage.BackingStorage B Σ WC}.

(** When [AddRecordBatch] returns an error the coordinator is unchanged;
    when it returns [nil] the batch ID has been appended and the next ID
    advanced. *)
Lemma AddRecordBatch_state (ext : string) (now : Z) (records : list (list byte))
    (s : storage.Storage B) (σ : Σ) :
  let r := storage.AddRecordBatch ext now records (s, σ) in
  (exists e, fst r = Some e /\ fst (snd r) = s)
  \/ (fst r = None
      /\ fst (snd r)
         = storage.mkStorage (storage.topicPath s)
             (uint64 (storage.nextRecordID s + uint64 (len records)))
             (storage.recordBatchIDs s ++ [storage.nextRecordID s])
             (storage.backingStorage s)).
Proof.
  unfold storage.AddRecordBatch.
  destruct (storage.bs_Writer _ _ σ) as [[f|e] σ1]; [|left; by exists e].
  destruct (recordbatch.Write now (f, σ1) records) as [fσ [e|]].
  - destruct (storage.bs_Close fσ) as [? [? ?]]. left. by exists e.
  - destruct (storage.bs_Close fσ) as [? [? ?]]. by right.
Qed.

(** C10: whatever [ReadRecord(recordID)] returns, record bytes or an
    error, the coordinator it leaves is the one it was called on:
    [topicPath], [recordBatchIDs] and [nextRecordID] are unchanged. *)
Theorem C10_ReadRecord_read_only (ext : string) (recordID : Z)
    (s : storage.Storage B) (σ : Σ) :
  let s' := fst (snd (storage.ReadRecord ext recordID (s, σ))) in
  s' = s
  /\ storage.topicPath s' = storage.topicPath s
  /\ storage.recordBatchIDs s' = storage.recordBatchIDs s
  /\ storage.nextRecordID s' = storage.nextRecordID s.
Proof.
  assert (Hs : fst (snd (storage.ReadRecord ext recordID (s, σ))) = s).
  { unfold storage.ReadRecord.
    destruct (storage.nextRecordID s <=? recordID); [done|].
    destruct (storage.bs_Reader _ _ σ) as [[f|e] σ1]; [|done].
    destruct (recordbatch.Parse f) as [rb|e]; [|done].
    destruct (recordbatch.Record_ rb _) as [[rec|e] rb']; done. }
  cbv zeta. rewrite Hs. done.
Qed.

Lemma parse_recordIDs_Forall2 (ext : string) (filePaths : list string) (ids : list Z) :
  storage.parse_recordIDs ext filePaths = Ok ids ->
  Forall2 (fun filePath id => parse_batch_id ext filePath = Ok id) filePaths ids.
Proof.
  revert ids. induction filePaths as [|p ps IH]; intros ids Hp.
  - cbn in Hp. injection Hp as <-. constructor.
  - cbn [storage.parse_recordIDs] in Hp.
    destruct (String.length (path_Base p) <? String.length ext)%nat eqn:E; [done|].
    destruct (uint64y_FromString _) as [id|e] eqn:Hid; [|done].
    destruct (storage.parse_recordIDs ext ps) as [ids'|e]; [|done].
    injection Hp as <-. constructor; [|by apply IH].
    unfold parse_batch_id. by rewrite E.
Qed.

(** C5 (amended): on construction the coordinator stores as
    [recordBatchIDs] the batch IDs parsed from the paths that [ListFiles]
    returns, in the order in which they are returned, without sorting
    them; [nextRecordID] is zero when there is none, and otherwise is set
    from the batch listed last: its ID plus the [NumRecords] of its header,
    which is the batch with the greatest ID when the listing is in
    ascending order. *)
Theorem C5_startup_order (ext : string) (backingStorage : B) (rootDir topic : string)
    (σ σ' : Σ) (s : storage.Storage B) :
  storage.NewStorage ext backingStorage rootDir topic σ = (Ok s, σ') ->
  exists (filePaths : list string) (σ1 : Σ),
    storage.bs_ListFiles backingStorage (filepath_Join rootDir topic) ext σ
    = (Ok filePaths, σ1)
    /\ Forall2 (fun filePath id => parse_batch_id ext filePath = Ok id)
         filePaths (storage.recordBatchIDs s)
    /\ (storage.recordBatchIDs s = [] -> storage.nextRecordID s = 0)
    /\ (storage.recordBatchIDs s <> [] ->
        exists hdr,
          storage.readRecordBatchHeader ext backingStorage (filepath_Join rootDir topic)
            (List.last (storage.recordBatchIDs s) 0) σ1 = (Ok hdr, σ')
          /\ storage.nextRecordID s
             = uint64 (List.last (storage.recordBatchIDs s) 0 + recordbatch.NumRecords hdr))
    /\ (StronglySorted Z.lt (storage.recordBatchIDs s) ->
        forall id, In id (storage.recordBatchIDs s) ->
                   id <= List.last (storage.recordBatchIDs s) 0).
Proof.
  unfold storage.NewStorage, storage.listRecordBatchIDs.
  destruct (storage.bs_ListFiles _ _ _ σ) as [[filePaths|e] σ1]; [|done].
  destruct (storage.parse_recordIDs ext filePaths) as [ids|e] eqn:Hids; [|done].
  intros Hnew. exists filePaths, σ1. split; [done|].
  assert (Hsorted : StronglySorted Z.lt ids -> forall id, In id ids -> id <= List.last ids 0).
  { intros Hs id Hin. destruct (exists_last (l := ids)) as (l & x & ->).
    { intros ->. destruct Hin. }
    rewrite last_last. apply in_app_or in Hin as [Hin|[<-|[]]]; [|lia].
    apply StronglySorted_app in Hs as (Hlt & _ & _).
    apply Z.lt_le_incl, Hlt; [by apply list_elem_of_In|apply list_elem_of_here]. }
  destruct (0 <? len ids) eqn:E.
  - destruct (storage.readRecordBatchHeader _ _ _ _ σ1) as [[hdr|e] σ2] eqn:Hhdr; [|done].
    injection Hnew as <- <-. cbn [storage.recordBatchIDs storage.nextRecordID].
    split; [by apply parse_recordIDs_Forall2|].
    split; [intros ->; cbn in E; done|].
    split; [|done]. intros _. by exists hdr.
  - injection Hnew as <- <-. cbn [storage.recordBatchIDs storage.nextRecordID].
    split; [by apply parse_recordIDs_Forall2|].
    split; [done|]. split; [|done].
    intros Hne. destruct ids; [done|].
    apply Z.ltb_ge in E. unfold len in E. cbn [length] in E. lia.
Qed.

End AnyBacking.

(** ** Startup order, and errors on closing *)

(** C5, counterexample: the object store lists batch 5 (three records)
    before batch 0 (five records).  The new coordinator has
    [recordBatchIDs = [5; 0]], which is not ascending, and
    [nextRecordID = 5], taken from batch 0, the one listed last, where the
    batch with the greatest ID would give [5 + 3 = 8]. *)
Lemma C5_counterexample :
  let ext := ".record-batch"%string in
  let input := storage.mkS3StorageInput "cache" "bucket" "root" "topic" in
  exists s w',
    storage.NewS3Storage ext input unsorted_world = (Ok s, w')
    /\ storage.S3Storage_ListFiles (storage.mkS3Storage "cache" "bucket")
         "root/topic" ext unsorted_world
       = (Ok ["root/topic/000000000005.record-batch"%string;
              "root/topic/000000000000.record-batch"%string], unsorted_world)
    /\ storage.recordBatchIDs s = [5; 0]
    /\ storage.recordBatchIDs s <> [0; 5]
    /\ ~ StronglySorted Z.lt (storage.recordBatchIDs s)
    /\ storage.nextRecordID s = 5
    /\ storage.nextRecordID s <> 5 + 3.
Proof.
  intros ext input.
  destruct (storage.NewS3Storage ext input unsorted_world) as [[s|e] w'] eqn:Hnew;
    [|vm_compute in Hnew; discriminate].
  exists s, w'. split; [reflexivity|]. split; [vm_compute; reflexivity|].
  assert (HI : storage.recordBatchIDs s = [5; 0]).
  { vm_compute in Hnew. injection Hnew as <- _. reflexivity. }
  assert (HN : storage.nextRecordID s = 5).
  { vm_compute in Hnew. injection Hnew as <- _. reflexivity. }
  rewrite HI, HN. repeat split; try done.
  intros Hs. apply StronglySorted_inv in Hs as [_ Hall].
  apply Forall_inv in Hall. lia.
Qed.

(** The amended C5 on the object-store backing, at the same listing. *)
Lemma C5_startup_order_witness :
  let ext := ".record-batch"%string in
  let ss := storage.mkS3Storage "cache" "bucket" in
  exists s w',
    storage.NewStorage ext ss "root" "topic" unsorted_world = (Ok s, w')
    /\ exists (filePaths : list string) (σ1 : World),
         storage.bs_ListFiles ss (filepath_Join "root" "topic") ext unsorted_world
         = (Ok filePaths, σ1)
         /\ Forall2 (fun filePath id => parse_batch_id ext filePath = Ok id)
              filePaths (storage.recordBatchIDs s)
         /\ (storage.recordBatchIDs s = [] -> storage.nextRecordID s = 0)
         /\ (storage.recordBatchIDs s <> [] ->
             exists hdr,
               storage.readRecordBatchHeader ext ss (filepath_Join "root" "topic")
                 (List.last (storage.recordBatchIDs s) 0) σ1 = (Ok hdr, w')
               /\ storage.nextRecordID s
                  = uint64 (List.last (storage.recordBatchIDs s) 0
                            + recordbatch.NumRecords hdr))
         /\ (StronglySorted Z.lt (storage.recordBatchIDs s) ->
             forall id, In id (storage.recordBatchIDs s) ->
                        id <= List.last (storage.recordBatchIDs s) 0).
Proof.
  intros ext ss.
  destruct (storage.NewStorage ext ss "root" "topic" unsorted_world)
    as [[s|e] w'] eqn:Hnew; [|vm_compute in Hnew; discriminate].
  exists s, w'. split; [reflexivity|].
  apply (C5_startup_order ext ss "root" "topic" unsorted_world w' s Hnew).
Defined.

(** C4, at the failing input: on a fresh coordinator, while uploads fail,
    [AddRecordBatch] with the one record [0x41].  The writer is opened and
    the batch written without error, [Close] on the writer fails with the
    upload error, yet [AddRecordBatch] returns [nil] with the batch ID
    appended and [nextRecordID] advanced, and the object store holds no
    object. *)
Theorem C4_close_error_dropped :
  let ext := ".record-batch"%string in
  let input := storage.mkS3StorageInput "cache" "bucket" "root" "topic" in
  exists s0 w0 f w1 fw s w,
    storage.NewS3Storage ext input empty_world = (Ok s0, w0)
    /\ storage.bs_Writer (storage.backingStorage s0)
         (storage.recordBatchPath ext (storage.topicPath s0) (storage.nextRecordID s0))
         (with_faults w0 upload_fails) = (Ok f, w1)
    /\ recordbatch.Write 0 (f, w1) [[x41]] = (fw, None)
    /\ fst (storage.bs_Close fw) = Some (ErrSyscall call_PutObject)
    /\ storage.AddRecordBatch ext 0 [[x41]] (s0, with_faults w0 upload_fails)
       = (None, (s, w))
    /\ storage.recordBatchIDs s0 = [] /\ storage.nextRecordID s0 = 0
    /\ storage.recordBatchIDs s = [0] /\ storage.nextRecordID s = 1
    /\ s3_objects w = [].
Proof.
  intros ext input.
  destruct (storage.NewS3Storage ext input empty_world) as [[s0|e] w0] eqn:Hnew;
    [|vm_compute in Hnew; discriminate].
  rewrite NewS3Storage_empty in Hnew. injection Hnew as <- <-.
  set (s0 := storage.mkStorage _ _ _ _).
  destruct (storage.bs_Writer (storage.backingStorage s0)
              (storage.recordBatchPath ext (storage.topicPath s0) (storage.nextRecordID s0))
              (with_faults empty_world upload_fails)) as [[f|e] w1] eqn:HW;
    [|vm_compute in HW; discriminate].
  destruct (recordbatch.Write 0 (f, w1) [[x41]]) as [fw [e|]] eqn:HWr.
  { exfalso. apply Writer_S3 in HW as [_ Heq]. rewrite Heq in HWr.
    rewrite Write_wrote_ok in HWr by done. discriminate. }
  destruct (storage.AddRecordBatch ext 0 [[x41]] (s0, with_faults empty_world upload_fails))
    as [err [s w]] eqn:Hadd.
  assert (Hclose : fst (storage.bs_Close fw) = Some (ErrSyscall call_PutObject)).
  { apply Writer_S3 in HW as [_ Heq]. rewrite Heq in HWr.
    apply Write_wrote in HWr. subst fw. reflexivity. }
  assert (Hres : err = None /\ storage.recordBatchIDs s = [0]
                 /\ storage.nextRecordID s = 1 /\ s3_objects w = []).
  { vm_compute in Hadd. injection Hadd as <- <- <-. done. }
  destruct Hres as (-> & HI & HN & Hobj).
  exists s0, empty_world, f, w1, fw, s, w. repeat split; done.
Qed.

Lemma Close_at_failing_input :
  let ss := storage.mkS3Storage "cache" "bucket" in
  let path := "root/topic/000000000000.record-batch"%string in
  let cachePath := storage.recordBatchCachePath ss path in
  let closed_after (flt : fault_plan) :=
    match storage.S3Storage_Writer ss path (with_faults empty_world flt) with
    | (Ok swc, w) =>
        match storage.s3WriteCloser_Write (swc, w) [x41] with
        | (st, None) =>
            let '(err, (swc', w')) := storage.s3WriteCloser_Close st in
            Some (err, f_closed (storage.swc_f swc'), disk w' !! cachePath,
                  s3_objects w')
        | _ => None
        end
    | _ => None
    end in
  closed_after upload_fails
  = Some (Some (ErrSyscall call_PutObject), false, Some [x41], [])
  /\ closed_after seek_fails
     = Some (Some (ErrSyscall sys_seek), false, Some [x41], [])
  /\ closed_after no_faults
     = Some (None, true, Some [x41], [("bucket"%string, path, [x41])]).
Proof. vm_compute. repeat split; reflexivity. Qed.

(** C8, what the code does: [Close] on a deferred-upload writer whose
    local file is open never touches the files on disk, so the cache file
    is left in place; when seeking fails, and when the upload fails,
    [Close] returns that error and the local file is still open; the
    local file is closed only when seeking and uploading both succeed. *)
Theorem C8_close_leaves_file_open (swc : storage.s3WriteCloser) (w : World) :
  f_closed (storage.swc_f swc) = false ->
  let r := storage.s3WriteCloser_Close (swc, w) in
  let closed := f_closed (storage.swc_f (fst (snd r))) in
  disk (snd (snd r)) = disk w
  /\ (faults w sys_seek = true ->
      fst r = Some (ErrSyscall sys_seek) /\ closed = false)
  /\ (faults w sys_seek = false -> faults w call_PutObject = true ->
      fst r = Some (ErrSyscall call_PutObject) /\ closed = false)
  /\ (faults w sys_seek = false -> faults w call_PutObject = false ->
      closed = true).
Proof.
  intros Hopen r closed. subst r closed.
  split; [apply (Close_frame (swc, w))|].
  unfold storage.s3WriteCloser_Close, file_Seek, s3_PutObject_file, file_Close.
  rewrite Hopen. cbn [orb].
  split; [|split].
  - intros ->. done.
  - intros -> ->. done.
  - intros -> ->. cbn [f_closed orb].
    destruct (faults _ sys_close); done.
Qed.

(** C8 at the failing input: the writer of the first batch with the record
    [0x41] written, while uploads fail. *)
Lemma C8_close_leaves_file_open_witness :
  let swc :=
    storage.mkS3WriteCloser
      (mkOsFile "cache/root/topic/000000000000.record-batch" 1 false)
      "bucket" "root/topic/000000000000.record-batch" in
  let w :=
    mkWorld {[ "cache/root/topic/000000000000.record-batch"%string := [x41] ]} []
      upload_fails in
  f_closed (storage.swc_f swc) = false
  /\ let r := storage.s3WriteCloser_Close (swc, w) in
     let closed := f_closed (storage.swc_f (fst (snd r))) in
     disk (snd (snd r)) = disk w
     /\ (faults w sys_seek = true ->
         fst r = Some (ErrSyscall sys_seek) /\ closed = false)
     /\ (faults w sys_seek = false -> faults w call_PutObject = true ->
         fst r = Some (ErrSyscall call_PutObject) /\ closed = false)
     /\ (faults w sys_seek = false -> faults w call_PutObject = false ->
         closed = true).
Proof.
  intros swc w. split; [reflexivity|].
  apply (C8_close_leaves_file_open swc w). reflexivity.
Defined.

(** ** The end-to-end scenarios of the specification *)

(** Two batches of five and three records on a fresh coordinator: records
    0 to 4 are in batch [000000000000], records 5 to 7 in batch
    [000000000005]; [ReadRecord(7)] is the last record of the second
    batch and [ReadRecord(8)] is out of bounds. *)
Example two_batches_5_3 :
  let ext := ".record-batch"%string in
  let input := storage.mkS3StorageInput "cache" "bucket" "root" "topic" in
  let calls :=
    [mkCall 1 no_faults [[x00]; [x01]; [x02]; [x03]; [x04]];
     mkCall 2 no_faults [[x05]; [x06]; [x07]]] in
  match storage.NewS3Storage ext input empty_world with
  | (Ok s0, w0) =>
      match add_all ext calls (s0, w0) with
      | Some (s, w) =>
          storage.recordBatchIDs s = [0; 5]
          /\ storage.nextRecordID s = 8
          /\ map (fun o => snd (fst o)) (s3_objects w)
             = ["root/topic/000000000000.record-batch"%string;
                "root/topic/000000000005.record-batch"%string]
          /\ map (fun i => fst (storage.ReadRecord ext i (s, w))) [0; 4; 5; 7; 8]
             = [Ok [x00]; Ok [x04]; Ok [x05]; Ok [x07]; Err storage_ErrOutOfBounds]
      | None => False
      end
  | _ => False
  end.
Proof. vm_compute. repeat split; reflexivity. Qed.

(** A second coordinator constructed over the object store that the first
    one filled, with an empty cache, reads the same records. *)
Example reopen_after_two_batches :
  let ext := ".record-batch"%string in
  let input := storage.mkS3StorageInput "cache" "bucket" "root" "topic" in
  let calls :=
    [mkCall 1 no_faults [[x00]; [x01]; [x02]; [x03]; [x04]];
     mkCall 2 no_faults [[x05]; [x06]; [x07]]] in
  match storage.NewS3Storage ext input empty_world with
  | (Ok s0, w0) =>
      match add_all ext calls (s0, w0) with
      | Some (_, w) =>
          match storage.NewS3Storage ext input (with_disk w ∅) with
          | (Ok s2, w2) =>
              storage.recordBatchIDs s2 = [0; 5]
              /\ storage.nextRecordID s2 = 8
              /\ map (fun i => fst (storage.ReadRecord ext i (s2, w2))) [0; 4; 5; 7; 9]
                 = [Ok [x00]; Ok [x04]; Ok [x05]; Ok [x07]; Err storage_ErrOutOfBounds]
          | _ => False
          end
      | None => False
      end
  | _ => False
  end.
Proof. vm_compute. repeat split; reflexivity. Qed.

(** ** Further properties of the codec *)

Lemma Z_of_byte_range (b : byte) : 0 <= Z_of_byte b < 256.
Proof.
  unfold Z_of_byte. pose proof (Byte.to_N_bounded b) as Hb. lia.
Qed.

Lemma le_get_range (bs : list byte) : 0 <= le_get bs < 256 ^ len bs.
Proof.
  induction bs as [|b bs IH].
  - unfold len. cbn [le_get length]. change (256 ^ Z.of_nat 0) with 1. lia.
  - cbn [le_get]. pose proof (Z_of_byte_range b).
    unfold len in *. cbn [length]. rewrite Nat2Z.inj_succ, Z.pow_succ_r by lia. nia.
Qed.

Lemma io_ReadFull_cases (data : list byte) (pos : Z) (flt : fault_plan) (n : Z) :
  flt sys_read = false -> 0 <= pos <= len data -> 0 < n ->
  io_ReadFull (mkReadSeeker data pos flt) n
  = if len data - pos =? 0 then (Err io_EOF, mkReadSeeker data pos flt)
    else if len data - pos <? n
         then (Err io_ErrUnexpectedEOF, mkReadSeeker data (pos + (len data - pos)) flt)
         else (Ok (take (Z.to_nat n) (drop (Z.to_nat pos) data)),
               mkReadSeeker data (pos + n) flt).
Proof.
  intros Hrd Hpos Hn. unfold io_ReadFull, rs_rest, rs_advance.
  cbn [rs_faults rs_pos rs_data]. rewrite Hrd.
  rewrite length_drop_len by lia.
  destruct (n <=? 0) eqn:E0; [lia|done].
Qed.

(** The record count that [Parse] reads from the header bytes. *)
Lemma NumRecords_get_Header_range (bs : list byte) :
  0 <= recordbatch.NumRecords (recordbatch.get_Header bs) < 2 ^ 32.
Proof.
  unfold recordbatch.get_Header. cbn [recordbatch.NumRecords].
  pose proof (le_get_range (take 4 (drop 14 bs))) as Hr.
  assert (Hl : len (take 4 (drop 14 bs)) <= 4).
  { unfold len. rewrite length_take. lia. }
  assert (Hp : 256 ^ len (take 4 (drop 14 bs)) <= 256 ^ 4).
  { apply Z.pow_le_mono_r; [lia|done]. }
  change (2 ^ 32) with (256 ^ 4). lia.
Qed.

Lemma length_get_uint32s (n : nat) (bs : list byte) : length (get_uint32s n bs) = n.
Proof.
  revert bs. induction n as [|n IH]; intros bs; [done|].
  cbn [get_uint32s length]. by rewrite IH.
Qed.

(** X1: [Parse] looks at nothing but the amount of data.  On a reader
    over a byte slice, with [N] the record count found at bytes 14 to 17:
    an empty slice gives [io.EOF]; fewer than 32 bytes give
    [io.ErrUnexpectedEOF]; with the 32 header bytes present, a non-zero
    [N] and nothing after the header give [io.EOF], fewer than [4*N] index
    bytes give [io.ErrUnexpectedEOF]; otherwise [Parse] succeeds, whatever
    the magic bytes and the version are, with those 32 bytes as header and
    [N] index entries. *)
Theorem X1_Parse_by_length (data : list byte) :
  let N := recordbatch.NumRecords (recordbatch.get_Header (take 32 data)) in
  let r := recordbatch.Parse (bytes_NewReader data) in
  (len data = 0 -> r = Err io_EOF)
  /\ (0 < len data < 32 -> r = Err io_ErrUnexpectedEOF)
  /\ (len data = 32 -> 0 < N -> r = Err io_EOF)
  /\ (32 < len data < 32 + 4 * N -> r = Err io_ErrUnexpectedEOF)
  /\ (32 + 4 * N <= len data ->
      exists rb,
        r = Ok rb
        /\ recordbatch.rb_Header rb = recordbatch.get_Header (take 32 data)
        /\ len (recordbatch.recordIndex rb) = N
        /\ rs_pos (recordbatch.rdr rb) = 32 + 4 * N)
  /\ ((exists rb, r = Ok rb) <-> 32 + 4 * N <= len data).
Proof.
  intros N r.
  pose proof (NumRecords_get_Header_range (take 32 data)) as HN. fold N in HN.
  pose proof (len_nonneg data) as Hlen.
  assert (Hr : r =
    match io_ReadFull (mkReadSeeker data 0 no_faults) 32 with
    | (Err e, _) => Err e
    | (Ok bs, rdr) =>
        match io_ReadFull rdr (4 * recordbatch.NumRecords (recordbatch.get_Header bs)) with
        | (Err e, _) => Err e
        | (Ok bs', rdr') =>
            Ok (recordbatch.mkRecordBatch (recordbatch.get_Header bs)
                  (get_uint32s (Z.to_nat (recordbatch.NumRecords (recordbatch.get_Header bs))) bs')
                  rdr')
        end
    end) by reflexivity.
  rewrite io_ReadFull_cases in Hr by (done || lia).
  rewrite Z.sub_0_r in Hr. change (Z.to_nat 0) with 0%nat in Hr.
  change (Z.to_nat 32) with 32%nat in Hr. rewrite drop_0 in Hr.
  assert (Hshort : len data = 0 -> r = Err io_EOF).
  { intros H0. rewrite Hr, H0. reflexivity. }
  assert (Hpart : 0 < len data < 32 -> r = Err io_ErrUnexpectedEOF).
  { intros H0. rewrite Hr.
    destruct (len data =? 0) eqn:E0; [lia|]. destruct (len data <? 32) eqn:E1; [done|lia]. }
  assert (Hfull : 32 <= len data -> r =
    match io_ReadFull (mkReadSeeker data (0 + 32) no_faults) (4 * N) with
    | (Err e, _) => Err e
    | (Ok bs', rdr') =>
        Ok (recordbatch.mkRecordBatch (recordbatch.get_Header (take 32 data))
              (get_uint32s (Z.to_nat N) bs') rdr')
    end).
  { intros H0. rewrite Hr.
    destruct (len data =? 0) eqn:E0; [lia|]. destruct (len data <? 32) eqn:E1; [lia|done]. }
  assert (Hok : 32 + 4 * N <= len data ->
      exists rb, r = Ok rb
        /\ recordbatch.rb_Header rb = recordbatch.get_Header (take 32 data)
        /\ len (recordbatch.recordIndex rb) = N
        /\ rs_pos (recordbatch.rdr rb) = 32 + 4 * N).
  { intros H0. rewrite Hfull by lia.
    destruct (decide (N = 0)) as [Hz|Hz].
    - rewrite Hz. eexists. split; [reflexivity|]. cbn. done.
    - rewrite io_ReadFull_cases by (done || lia).
      destruct (len data - (0 + 32) =? 0) eqn:E0; [lia|].
      destruct (len data - (0 + 32) <? 4 * N) eqn:E1; [lia|].
      eexists. split; [reflexivity|].
      cbn [recordbatch.rb_Header recordbatch.recordIndex recordbatch.rdr rs_pos].
      split; [done|]. split; [|lia]. unfold len. rewrite length_get_uint32s. lia. }
  assert (Heof : len data = 32 -> 0 < N -> r = Err io_EOF).
  { intros H0 H1. rewrite Hfull by lia. rewrite io_ReadFull_cases by (done || lia).
    destruct (len data - (0 + 32) =? 0) eqn:E0; [done|lia]. }
  assert (Htrunc : 32 < len data < 32 + 4 * N -> r = Err io_ErrUnexpectedEOF).
  { intros H0. rewrite Hfull by lia. rewrite io_ReadFull_cases by (done || lia).
    destruct (len data - (0 + 32) =? 0) eqn:E0; [lia|].
    destruct (len data - (0 + 32) <? 4 * N) eqn:E1; [done|lia]. }
  repeat split; try done.
  - intros [rb Hrb].
    destruct (decide (32 + 4 * N <= len data)) as [|Hn]; [done|]. exfalso.
    destruct (decide (len data = 0)) as [H0|H0]; [rewrite Hshort in Hrb; done|].
    destruct (decide (len data < 32)) as [H1|H1]; [rewrite Hpart in Hrb by lia; done|].
    destruct (decide (len data = 32)) as [H2|H2]; [rewrite Heof in Hrb by lia; done|].
    rewrite Htrunc in Hrb by lia. done.
  - intros H0. destruct (Hok H0) as (rb & Hrb & _). by exists rb.
Qed.

Lemma int64_mod (z : Z) : int64 (z mod 2 ^ 64) = int64 z.
Proof. unfold int64. by rewrite Z.mod_mod by lia. Qed.

Lemma int64_small (z : Z) : - 2 ^ 63 <= z < 2 ^ 63 -> int64 z = z.
Proof.
  intros Hz. unfold int64. cbv zeta.
  destruct (decide (0 <= z)) as [Hpos|Hneg].
  - rewrite Z.mod_small by lia. destruct (z <? 2 ^ 63) eqn:E; lia.
  - assert (Hm : z mod 2 ^ 64 = z + 2 ^ 64).
    { symmetry. apply (Z.mod_unique z (2 ^ 64) (-1)); lia. }
    rewrite Hm. destruct (z + 2 ^ 64 <? 2 ^ 63) eqn:E; lia.
Qed.

Lemma written_header_fields (now : Z) (records : list (list byte)) :
  written_header now records
  = recordbatch.mkHeader recordbatch.FileFormatMagicBytes recordbatch.FileFormatVersion
      (int64 now) (uint32 (len records)) (replicate 14 x00).
Proof.
  unfold written_header, recordbatch.get_Header, recordbatch.put_Header.
  cbn [recordbatch.MagicBytes recordbatch.Version recordbatch.UnixEpochUs
       recordbatch.NumRecords recordbatch.Reserved].
  set (n := uint32 (len records)).
  change (resize 4 x00 recordbatch.FileFormatMagicBytes) with [x73; x6d; x62; x21].
  change (le_put 2 recordbatch.FileFormatVersion) with [x01; x00].
  change (resize 14 x00 (replicate 14 x00)) with (replicate 14 x00).
  assert (H8 : length (le_put 8 now) = 8%nat) by apply length_le_put.
  assert (H4 : length (le_put 4 n) = 4%nat) by apply length_le_put.
  f_equal.
  - change (drop 6 ([x73; x6d; x62; x21] ++ [x01; x00] ++ ?l)) with l.
    rewrite take_app_length' by done.
    rewrite (le_get_le_put 8). change (256 ^ Z.of_nat 8) with (2 ^ 64). apply int64_mod.
  - change (drop 14 ([x73; x6d; x62; x21] ++ [x01; x00] ++ ?l)) with (drop 8 l).
    rewrite drop_app_length' by done. rewrite take_app_length' by done.
    rewrite le_get_le_put_4. apply uint32_idem.
Qed.

(** X2: the header survives the round trip.  [Parse] of what [Write]
    wrote returns a header with the magic bytes 's' 'm' 'b' '!', version 1,
    14 zero reserved bytes, the clock's value as a signed 64-bit number
    (the value itself when it is in range) and the number of records
    modulo [2^32], and an index with that many entries. *)
Theorem X2_header_roundtrip (now : Z) (records : list (list byte)) :
  exists file rb,
    recordbatch.Write now ([] : Buffer) records = (file, None)
    /\ recordbatch.Parse (bytes_NewReader file) = Ok rb
    /\ recordbatch.rb_Header rb
       = recordbatch.mkHeader [x73; x6d; x62; x21] 1 (int64 now)
           (uint32 (len records)) (replicate 14 x00)
    /\ (- 2 ^ 63 <= now < 2 ^ 63 ->
        recordbatch.UnixEpochUs (recordbatch.rb_Header rb) = now)
    /\ (len records < 2 ^ 32 ->
        recordbatch.NumRecords (recordbatch.rb_Header rb) = len records)
    /\ len (recordbatch.recordIndex rb) = uint32 (len records).
Proof.
  destruct (Parse_batch_file now records no_faults eq_refl) as [pos HP].
  eexists _, _. split; [apply Write_empty_buffer|]. split; [exact HP|].
  cbn [recordbatch.rb_Header recordbatch.recordIndex].
  rewrite written_header_fields.
  cbn [recordbatch.UnixEpochUs recordbatch.NumRecords].
  pose proof (uint32_range (len records)) as Hr.
  pose proof (uint32_le (len records) (len_nonneg _)) as Hle.
  split; [reflexivity|]. split; [apply int64_small|].
  split; [intros Hlt; apply uint32_small; pose proof (len_nonneg records); lia|].
  unfold len at 1. rewrite length_take, length_recordIndexes. unfold len in *. lia.
Qed.

(** ** [Record] and the position of the reader *)

Lemma Record_reader (rb : recordbatch.RecordBatch) (i : Z) :
  exists pos,
    snd (recordbatch.Record_ rb i)
    = recordbatch.mkRecordBatch (recordbatch.rb_Header rb) (recordbatch.recordIndex rb)
        (mkReadSeeker (rs_data (recordbatch.rdr rb)) pos (rs_faults (recordbatch.rdr rb))).
Proof.
  destruct rb as [h idx [data p flt]]. unfold recordbatch.Record_, recordbatch.with_rdr.
  cbn [recordbatch.rb_Header recordbatch.recordIndex recordbatch.rdr rs_data rs_faults].
  destruct (_ <=? i); [by eexists|].
  destruct (idx !! Z.to_nat i) as [off|]; [|by eexists].
  unfold rs_Seek. cbn [rs_faults rs_data].
  destruct (flt sys_seek); [by eexists|].
  destruct (_ <? 0); [by eexists|].
  destruct (i =? _).
  - unfold io_ReadAll, rs_advance. cbn [rs_faults rs_data rs_pos].
    destruct (flt sys_read); by eexists.
  - destruct (idx !! _) as [next|]; [|by eexists].
    unfold io_ReadFull, rs_advance. cbn [rs_faults rs_data rs_pos].
    destruct (_ <=? 0); [by eexists|].
    destruct (flt sys_read); [by eexists|].
    destruct (_ =? 0); [by eexists|].
    destruct (_ <? _); by eexists.
Qed.

Lemma Record_position_free (h : recordbatch.Header) (idx : list Z) (data : list byte)
    (flt : fault_plan) (p q : Z) (i : Z) :
  fst (recordbatch.Record_ (recordbatch.mkRecordBatch h idx (mkReadSeeker data p flt)) i)
  = fst (recordbatch.Record_ (recordbatch.mkRecordBatch h idx (mkReadSeeker data q flt)) i).
Proof.
  unfold recordbatch.Record_, recordbatch.with_rdr.
  cbn [recordbatch.rb_Header recordbatch.recordIndex recordbatch.rdr].
  destruct (_ <=? i); [done|].
  destruct (idx !! Z.to_nat i) as [off|]; [|done].
  unfold rs_Seek. cbn [rs_faults rs_data].
  destruct (flt sys_seek); [done|].
  destruct (_ <? 0); [done|].
  destruct (i =? _).
  - unfold io_ReadAll. cbn [rs_faults]. destruct (flt sys_read); done.
  - destruct (idx !! _) as [next|]; [|done].
    destruct (io_ReadFull _ _) as [res r]. done.
Qed.

(** X3: records can be extracted in any order.  What [Record(j)] returns
    does not depend on the calls of [Record] made before it on the same
    batch, since every call seeks to an absolute offset: after any
    [Record(i)], successful or not, [Record(j)] returns what it would have
    returned on the freshly parsed batch, and a repeated [Record(i)]
    returns the same result. *)
Theorem X3_Record_any_order (rb : recordbatch.RecordBatch) (i j : Z) :
  fst (recordbatch.Record_ (snd (recordbatch.Record_ rb i)) j)
  = fst (recordbatch.Record_ rb j)
  /\ fst (recordbatch.Record_ (snd (recordbatch.Record_ rb i)) i)
     = fst (recordbatch.Record_ rb i).
Proof.
  destruct (Record_reader rb i) as [pos Hpos]. rewrite Hpos.
  destruct rb as [h idx [data p flt]].
  cbn [recordbatch.rb_Header recordbatch.recordIndex recordbatch.rdr rs_data rs_faults].
  split; apply Record_position_free.
Qed.

(** ** The names of the batch files *)

Lemma digit_cases (d : Z) :
  0 <= d <= 9 ->
  d = 0 \/ d = 1 \/ d = 2 \/ d = 3 \/ d = 4 \/ d = 5 \/ d = 6 \/ d = 7 \/ d = 8 \/ d = 9.
Proof. lia. Qed.

Lemma digit_val_digit_char (d : Z) :
  0 <= d <= 9 -> digit_val (digit_char d) = Some d.
Proof.
  intros Hd. destruct (digit_cases d Hd)
    as [->|[->|[->|[->|[->|[->|[->|[->|[->| ->]]]]]]]]]; reflexivity.
Qed.

Lemma is_slash_digit_char (d : Z) :
  0 <= d <= 9 -> is_slash (digit_char d) = false.
Proof.
  intros Hd. destruct (digit_cases d Hd)
    as [->|[->|[->|[->|[->|[->|[->|[->|[->| ->]]]]]]]]]; reflexivity.
Qed.

Lemma mod_10_digit (n : Z) : 0 <= n mod 10 <= 9.
Proof. pose proof (Z.mod_pos_bound n 10). lia. Qed.

Lemma parse_uint_digit (a d : Z) (rest : string) :
  0 <= d <= 9 -> a * 10 + d < 2 ^ 64 ->
  parse_uint a (String (digit_char d) rest) = parse_uint (a * 10 + d) rest.
Proof.
  intros Hd Hlt. cbn [parse_uint]. rewrite digit_val_digit_char by done.
  destruct (2 ^ 64 <=? a * 10 + d) eqn:E; [lia|done].
Qed.

(** Parsing the digits that [format_uint] put in front of [rest]. *)
Lemma parse_format_uint (fuel : nat) (n : Z) (rest : string) (a : Z) :
  0 <= a -> 0 <= n < 10 ^ Z.of_nat (S fuel) ->
  exists k : nat,
    String.length (format_uint fuel n rest) = (k + String.length rest)%nat
    /\ (1 <= k)%nat
    /\ (a * 10 ^ Z.of_nat k + n < 2 ^ 64 ->
        parse_uint a (format_uint fuel n rest) = parse_uint (a * 10 ^ Z.of_nat k + n) rest).
Proof.
  revert n rest. induction fuel as [|fuel IH]; intros n rest Ha Hn.
  - exists 1%nat. cbn [format_uint]. split; [done|]. split; [done|].
    intros Hlt. change (10 ^ Z.of_nat 1) with 10 in *.
    assert (Hm : n mod 10 = n) by (apply Z.mod_small; lia).
    rewrite Hm. apply parse_uint_digit; lia.
  - cbn [format_uint]. destruct (n / 10 =? 0) eqn:E.
    + exists 1%nat. split; [done|]. split; [done|].
      intros Hlt. change (10 ^ Z.of_nat 1) with 10 in *.
      assert (Hsmall : n < 10).
      { apply Z.eqb_eq in E. pose proof (Z.div_mod n 10). pose proof (mod_10_digit n). lia. }
      assert (Hm : n mod 10 = n) by (apply Z.mod_small; lia).
      rewrite Hm. apply parse_uint_digit; lia.
    + assert (Hdiv : 0 <= n / 10 < 10 ^ Z.of_nat (S fuel)).
      { split; [apply Z.div_pos; lia|].
        apply Z.div_lt_upper_bound; [lia|].
        rewrite (Nat2Z.inj_succ (S fuel)), Z.pow_succ_r in Hn by lia. lia. }
      destruct (IH (n / 10) (String (digit_char (n mod 10)) rest) Ha Hdiv)
        as (k & Hlen & Hk & Hparse).
      exists (S k). split; [cbn [String.length] in Hlen; lia|]. split; [lia|].
      intros Hlt. rewrite Nat2Z.inj_succ, Z.pow_succ_r in Hlt by lia.
      pose proof (Z.div_mod n 10 ltac:(lia)) as Hdm.
      pose proof (mod_10_digit n) as Hmod.
      assert (Hp : 0 <= 10 ^ Z.of_nat k) by (apply Z.pow_nonneg; lia).
      rewrite Hparse by nia.
      rewrite parse_uint_digit by (done || nia).
      f_equal. rewrite Nat2Z.inj_succ, Z.pow_succ_r by lia. lia.
Qed.

Lemma parse_uint_pad_zeros (k : nat) (s : string) :
  parse_uint 0 (pad_zeros k s) = parse_uint 0 s.
Proof.
  induction k as [|k IH]; [done|].
  cbn [pad_zeros]. change "0"%char with (digit_char 0).
  rewrite parse_uint_digit by lia. exact IH.
Qed.

Lemma uint64y_FromString_Sprintf (n : Z) :
  0 <= n < 2 ^ 64 -> uint64y_FromString (Sprintf_012d n) = Ok n.
Proof.
  intros Hn. unfold Sprintf_012d, strconv_FormatUint.
  assert (H20 : 0 <= n < 10 ^ Z.of_nat 20).
  { change (10 ^ Z.of_nat 20) with 100000000000000000000. lia. }
  destruct (parse_format_uint 19 n "" 0 (Z.le_refl 0) H20) as (k & Hlen & Hk & Hparse).
  assert (Hne : uint64y_FromString (pad_zeros (12 - String.length (format_uint 19 n ""))
                                      (format_uint 19 n ""))
                = parse_uint 0 (pad_zeros (12 - String.length (format_uint 19 n ""))
                                  (format_uint 19 n ""))).
  { destruct (12 - String.length (format_uint 19 n ""))%nat; [|reflexivity].
    cbn [pad_zeros]. destruct (format_uint 19 n "") eqn:E; [|reflexivity].
    cbn in Hlen. lia. }
  rewrite Hne, parse_uint_pad_zeros, Hparse by lia. cbn [parse_uint]. f_equal.
Qed.

Lemma list_ascii_of_string_app (a b : string) :
  list_ascii_of_string (a +:+ b) = list_ascii_of_string a ++ list_ascii_of_string b.
Proof. induction a as [|c a IH]; [done|]. simpl. f_equal. exact IH. Qed.


Lemma string_length_app (a b : string) :
  String.length (a +:+ b) = (String.length a + String.length b)%nat.
Proof. induction a as [|c a IH]; [done|]. simpl. f_equal. exact IH. Qed.

Lemma substring_app_l (a b : string) : substring 0 (String.length a) (a +:+ b) = a.
Proof.
  induction a as [|c a IH].
  - simpl. by destruct b.
  - simpl. f_equal. exact IH.
Qed.

Lemma until_slash_app (l rest : list ascii) :
  Forall (fun c => is_slash c = false) l ->
  rest = [] \/ (exists r, rest = "/"%char :: r) ->
  until_slash (l ++ rest) = l.
Proof.
  intros Hl Hrest. induction Hl as [|c l Hc _ IH].
  - destruct Hrest as [->|[r ->]]; reflexivity.
  - cbn [app until_slash]. rewrite Hc. by rewrite IH.
Qed.

Lemma path_Base_last (dir name : list ascii) :
  name <> [] ->
  Forall (fun c => is_slash c = false) name ->
  dir = [] \/ (exists d, dir = d ++ ["/"%char]) ->
  path_Base (string_of_list_ascii (dir ++ name)) = string_of_list_ascii name.
Proof.
  intros Hne Hns Hdir. unfold path_Base.
  rewrite list_ascii_of_string_of_list_ascii.
  destruct (dir ++ name) as [|c0 cs0] eqn:Ecs.
  { apply app_eq_nil in Ecs as [_ ?]. done. }
  rewrite <- Ecs. rewrite rev_app_distr.
  destruct (exists_last Hne) as (front & lastc & ->).
  rewrite rev_app_distr. cbn [rev app].
  assert (Hl : is_slash lastc = false).
  { apply Forall_app in Hns as [_ Hl]. by apply Forall_inv in Hl. }
  cbn [drop_slashes]. rewrite Hl.
  change (lastc :: rev front ++ rev dir) with ((lastc :: rev front) ++ rev dir).
  rewrite until_slash_app.
  - cbn [rev]. rewrite rev_involutive. done.
  - constructor; [done|]. apply Forall_rev. by apply Forall_app in Hns as [? _].
  - destruct Hdir as [->|[d ->]]; [by left|right].
    rewrite rev_app_distr. cbn. by eexists.
Qed.

Lemma no_slash_format_uint (fuel : nat) (n : Z) (acc : string) :
  no_slash acc -> no_slash (format_uint fuel n acc).
Proof.
  revert n acc. induction fuel as [|fuel IH]; intros n acc Hacc.
  - cbn [format_uint]. constructor; [apply is_slash_digit_char, mod_10_digit|done].
  - cbn [format_uint].
    assert (Hc : no_slash (String (digit_char (n mod 10)) acc)).
    { constructor; [apply is_slash_digit_char, mod_10_digit|done]. }
    destruct (n / 10 =? 0); [done|]. by apply IH.
Qed.

Lemma no_slash_pad_zeros (k : nat) (s : string) : no_slash s -> no_slash (pad_zeros k s).
Proof. intros Hs. induction k as [|k IH]; [done|]. by constructor. Qed.

Lemma no_slash_Sprintf (n : Z) : no_slash (Sprintf_012d n).
Proof.
  unfold Sprintf_012d. apply no_slash_pad_zeros, no_slash_format_uint. constructor.
Qed.

Lemma length_format_uint (fuel : nat) (n : Z) (acc : string) :
  (String.length acc < String.length (format_uint fuel n acc))%nat.
Proof.
  revert n acc. induction fuel as [|fuel IH]; intros n acc; cbn [format_uint].
  - cbn [String.length]. lia.
  - destruct (n / 10 =? 0); [cbn [String.length]; lia|].
    specialize (IH (n / 10) (String (digit_char (n mod 10)) acc)).
    cbn [String.length] in IH. lia.
Qed.

Lemma length_pad_zeros (k : nat) (s : string) :
  String.length (pad_zeros k s) = (k + String.length s)%nat.
Proof. induction k as [|k IH]; [done|]. cbn [pad_zeros String.length]. lia. Qed.

Lemma Sprintf_nonempty (n : Z) : Sprintf_012d n <> ""%string.
Proof.
  intros E. apply (f_equal String.length) in E.
  unfold Sprintf_012d, strconv_FormatUint in E. rewrite length_pad_zeros in E.
  pose proof (length_format_uint 19 n "") as Hl.
  change (String.length "") with 0%nat in *. lia.
Qed.

Lemma path_Base_Join (topicPath name : string) :
  name <> ""%string -> no_slash name ->
  path_Base (filepath_Join topicPath name) = name.
Proof.
  intros Hne Hns.
  assert (Hnl : list_ascii_of_string name <> []).
  { intros E. apply Hne. rewrite <- (string_of_list_ascii_of_string name), E. done. }
  unfold filepath_Join. destruct topicPath as [|c tp].
  - pose proof (path_Base_last [] _ Hnl Hns (or_introl eq_refl)) as H.
    cbn [app] in H. by rewrite !string_of_list_ascii_of_string in H.
  - destruct name as [|c' name']; [done|].
    set (nm := String c' name') in *. set (t := String c tp).
    rewrite <- (string_of_list_ascii_of_string (t +:+ "/" +:+ nm)).
    rewrite !list_ascii_of_string_app, app_assoc.
    rewrite (path_Base_last _ _ Hnl Hns).
    + apply string_of_list_ascii_of_string.
    + right. by eexists.
Qed.

Lemma parse_batch_id_recordBatchPath (ext topicPath : string) (id : Z) :
  no_slash ext -> 0 <= id < 2 ^ 64 ->
  parse_batch_id ext (storage.recordBatchPath ext topicPath id) = Ok id.
Proof.
  intros Hext Hid. unfold parse_batch_id, storage.recordBatchPath.
  rewrite path_Base_Join.
  - rewrite string_length_app.
    destruct (_ <? _)%nat eqn:E; [apply Nat.ltb_lt in E; lia|].
    replace (String.length (Sprintf_012d id) + String.length ext - String.length ext)%nat
      with (String.length (Sprintf_012d id)) by lia.
    rewrite substring_app_l. by apply uint64y_FromString_Sprintf.
  - intros E. apply (f_equal String.length) in E. rewrite string_length_app in E.
    pose proof (Sprintf_nonempty id) as Hn.
    destruct (Sprintf_012d id); [done|]. cbn in E. lia.
  - unfold no_slash. rewrite list_ascii_of_string_app. apply Forall_app.
    split; [apply no_slash_Sprintf|done].
Qed.


Lemma parse_recordIDs_recordBatchPath (ext topicPath : string) (ids : list Z) :
  no_slash ext ->
  Forall (fun id => 0 <= id < 2 ^ 64) ids ->
  storage.parse_recordIDs ext (map (storage.recordBatchPath ext topicPath) ids) = Ok ids.
Proof.
  intros Hext Hids. induction Hids as [|id ids Hid _ IH]; [done|].
  cbn [map storage.parse_recordIDs].
  pose proof (parse_batch_id_recordBatchPath ext topicPath id Hext Hid) as Hp.
  unfold parse_batch_id in Hp. cbv zeta in Hp |- *.
  destruct (_ <? _)%nat; [done|]. by rewrite Hp, IH.
Qed.

(** X4: the file names that [recordBatchPath] builds are the ones that
    [listRecordBatchIDs] understands.  When the extension holds no path
    separator, the loop of [listRecordBatchIDs] over the paths of the batch
    IDs [ids], each below [2^64], returns exactly [ids], in the same order
    and without an error. *)
Theorem X4_listed_names_give_ids (ext topicPath : string) (ids : list Z) :
  no_slash ext ->
  Forall (fun id => 0 <= id < 2 ^ 64) ids ->
  storage.parse_recordIDs ext (map (storage.recordBatchPath ext topicPath) ids) = Ok ids.
Proof. exact (parse_recordIDs_recordBatchPath ext topicPath ids). Qed.

Lemma X4_listed_names_give_ids_witness :
  storage.parse_recordIDs ".record-batch"
    (map (storage.recordBatchPath ".record-batch" "root/topic") [0; 5; 18446744073709551615])
  = Ok [0; 5; 18446744073709551615].
Proof.
  apply (X4_listed_names_give_ids ".record-batch" "root/topic").
  - unfold no_slash. cbn. repeat constructor.
  - repeat constructor; lia.
Defined.





(** ** The batch that [ReadRecord] picks *)

Lemma find_batch_rev (ids : list Z) (recordID : Z) :
  let b := storage.find_batch (rev ids) recordID in
  (Forall (fun id => recordID < id) ids /\ b = 0)
  \/ (exists k, ids !! k = Some b /\ b <= recordID
        /\ forall j id, (k < j)%nat -> ids !! j = Some id -> recordID < id).
Proof.
  induction ids as [|x l IH] using rev_ind.
  - left. split; [constructor|done].
  - rewrite rev_app_distr. cbn [rev app storage.find_batch].
    destruct (x <=? recordID) eqn:E.
    + right. exists (length l). apply Z.leb_le in E.
      split; [by rewrite list_lookup_middle|]. split; [done|].
      intros j id Hj Hid. apply lookup_lt_Some in Hid.
      rewrite length_app in Hid. cbn in Hid. lia.
    + apply Z.leb_gt in E. cbv zeta in IH. destruct IH as [[Hall ->]|(k & Hk & Hle & Hlater)].
      * left. split; [|done]. apply Forall_app. split; [done|]. by constructor.
      * right. exists k. apply lookup_lt_Some in Hk as Hk'.
        split; [by rewrite lookup_app_l|]. split; [done|].
        intros j id Hj Hid.
        destruct (decide (j < length l)%nat) as [Hjl|Hjl].
        -- rewrite lookup_app_l in Hid by done. by apply (Hlater j).
        -- apply lookup_lt_Some in Hid as Hid'. rewrite length_app in Hid'. cbn in Hid'.
           assert (j = length l) as -> by lia.
           rewrite list_lookup_middle in Hid by done. injection Hid as <-. done.
Qed.

(** X6: the backwards scan of [ReadRecord] over the batch IDs returns the
    last ID in the list that is not above the record ID, and every ID
    listed after it is above the record ID; when all IDs are above the
    record ID it returns zero, the initial value of the variable, so that
    [ReadRecord] then opens the file of batch zero whether or not such a
    batch is listed. *)
Theorem X6_find_batch_last_below (ids : list Z) (recordID : Z) :
  let b := storage.find_batch (rev ids) recordID in
  (Forall (fun id => recordID < id) ids /\ b = 0)
  \/ (exists k, ids !! k = Some b /\ b <= recordID
        /\ forall j id, (k < j)%nat -> ids !! j = Some id -> recordID < id).
Proof. exact (find_batch_rev ids recordID). Qed.

(** X7: on batch IDs in ascending order, with at least one of them not
    above the record ID, the scan of [ReadRecord] returns the greatest
    batch ID that is not above the record ID. *)
Theorem X7_find_batch_sorted (ids : list Z) (recordID : Z) :
  StronglySorted Z.le ids ->
  Exists (fun id => id <= recordID) ids ->
  let b := storage.find_batch (rev ids) recordID in
  In b ids /\ b <= recordID
  /\ forall id, In id ids -> id <= recordID -> id <= b.
Proof.
  intros Hs Hex b. subst b.
  destruct (find_batch_rev ids recordID) as [[Hall _]|(k & Hk & Hle & Hlater)].
  - exfalso. apply List.Exists_exists in Hex as (id & Hin & Hid).
    rewrite List.Forall_forall in Hall. specialize (Hall id Hin). lia.
  - split; [by eapply list_elem_of_In, list_elem_of_lookup_2|]. split; [done|].
    intros id Hin Hid. apply list_elem_of_In, list_elem_of_lookup_1 in Hin as [j Hj].
    destruct (decide (k < j)%nat) as [Hkj|Hkj].
    + specialize (Hlater j id Hkj Hj). lia.
    + destruct (decide (j = k)) as [->|Hne]; [rewrite Hj in Hk; injection Hk as <-; lia|].
      assert (Hjk : (j < k)%nat) by lia.
      rewrite <- (take_drop k ids) in Hs.
      apply (StronglySorted_app_1_elem_of _ _ _ _ _ Hs).
      * apply elem_of_take. by exists j.
      * apply (list_elem_of_lookup_2 _ 0%nat). by rewrite lookup_drop, Nat.add_0_r.
Qed.

Lemma X7_find_batch_sorted_witness :
  let b := storage.find_batch (rev [0; 5; 8]) 6 in
  In b [0; 5; 8] /\ b <= 6 /\ forall id, In id [0; 5; 8] -> id <= 6 -> id <= b.
Proof.
  apply (X7_find_batch_sorted [0; 5; 8] 6).
  - repeat constructor; lia.
  - constructor. lia.
Defined.

(** ** The bucket *)

Lemma s3_key_eqb_true (bucket key : string) (o : string * string * list byte) :
  s3_key_eqb bucket key o = true <-> fst (fst o) = bucket /\ snd (fst o) = key.
Proof.
  unfold s3_key_eqb. rewrite andb_true_iff, !String.eqb_eq. done.
Qed.

Lemma s3_key_eqb_false (bucket key : string) (o : string * string * list byte) :
  s3_key_eqb bucket key o = false <-> (fst (fst o), snd (fst o)) <> (bucket, key).
Proof.
  destruct (s3_key_eqb bucket key o) eqn:E.
  - apply s3_key_eqb_true in E as [-> ->]. split; [done|]. intros Hne. by destruct Hne.
  - split; [|done]. intros _ [= E1 E2].
    assert (s3_key_eqb bucket key o = true) by (by apply s3_key_eqb_true). congruence.
Qed.

Lemma s3_lookup_store (bucket key : string) (body : list byte)
    (os : list (string * string * list byte)) :
  s3_lookup bucket key (s3_store bucket key body os) = Some body.
Proof.
  assert (Hrefl : s3_key_eqb bucket key (bucket, key, body) = true)
    by (by apply s3_key_eqb_true).
  induction os as [|o os IH]; cbn [s3_store s3_lookup].
  - by rewrite Hrefl.
  - destruct (s3_key_eqb bucket key o) eqn:E; cbn [s3_lookup].
    + by rewrite Hrefl.
    + by rewrite E.
Qed.

Lemma s3_lookup_store_ne (bucket key : string) (body : list byte)
    (os : list (string * string * list byte)) (b k : string) :
  (b, k) <> (bucket, key) ->
  s3_lookup b k (s3_store bucket key body os) = s3_lookup b k os.
Proof.
  intros Hne.
  assert (Hnew : s3_key_eqb b k (bucket, key, body) = false).
  { apply s3_key_eqb_false. cbn. congruence. }
  induction os as [|o os IH]; cbn [s3_store s3_lookup].
  - by rewrite Hnew.
  - destruct (s3_key_eqb bucket key o) eqn:E; cbn [s3_lookup].
    + rewrite Hnew. apply s3_key_eqb_true in E as [E1 E2].
      assert (Ho : s3_key_eqb b k o = false).
      { apply s3_key_eqb_false. rewrite E1, E2. congruence. }
      by rewrite Ho.
    + by rewrite IH.
Qed.

(** ** The reader of the object-store backing *)

Lemma write_at_0_nil (p : list byte) : write_at 0 [] p = p.
Proof. exact (write_at_end [] p). Qed.

Lemma Reader_S3_fetch (ss : storage.S3Storage) (path : string) (w : World)
    (body : list byte) :
  faults w sys_open = false -> faults w call_GetObject = false ->
  faults w sys_mkdir = false -> faults w sys_create = false ->
  faults w (sys_write 0) = false -> faults w sys_seek = false ->
  disk w !! storage.recordBatchCachePath ss path = None ->
  s3_lookup (storage.bucketName ss) path (s3_objects w) = Some body ->
  storage.S3Storage_Reader ss path w
  = (Ok (mkReadSeeker body 0 (faults w)),
     with_disk w (<[storage.recordBatchCachePath ss path := body]> (disk w))).
Proof.
  intros Hop Hget Hmk Hcr Hwr Hsk Hnone Hobj.
  unfold storage.S3Storage_Reader, storage.os_Open, s3_GetObject,
    storage.createCacheFile, os_MkdirAll, os_Create.
  rewrite Hop, Hnone, Hget, Hobj, Hmk, Hcr.
  unfold file_Write, file_Seek, file_contents, with_disk.
  cbn [f_closed f_pos f_path faults disk s3_objects orb].
  rewrite Hwr. cbn [f_closed f_path faults orb]. rewrite Hsk.
  rewrite lookup_insert_eq. cbn [default].
  rewrite write_at_0_nil, insert_insert_eq.
  unfold storage.reader_of, file_contents. cbn [f_path f_pos disk faults].
  by rewrite lookup_insert_eq.
Qed.

(** X8: the object-store backing fetches a batch once.  When the batch
    file is not in the local cache and the bucket holds it, [Reader]
    without I/O faults returns a reader over the object's bytes, positioned
    at the start, and leaves exactly those bytes in the cache file; the
    bucket is unchanged.  From then on [Reader] serves the batch from the
    cache: whatever the bucket holds by then and whether or not [GetObject]
    would fail, it returns the same bytes and changes nothing. *)
Theorem X8_Reader_fetches_once (ss : storage.S3Storage) (path : string) (w : World)
    (body : list byte) :
  faults w sys_open = false -> faults w call_GetObject = false ->
  faults w sys_mkdir = false -> faults w sys_create = false ->
  faults w (sys_write 0) = false -> faults w sys_seek = false ->
  disk w !! storage.recordBatchCachePath ss path = None ->
  s3_lookup (storage.bucketName ss) path (s3_objects w) = Some body ->
  exists w1,
    storage.S3Storage_Reader ss path w = (Ok (mkReadSeeker body 0 (faults w)), w1)
    /\ disk w1 = <[storage.recordBatchCachePath ss path := body]> (disk w)
    /\ s3_objects w1 = s3_objects w
    /\ forall objects flt,
         flt sys_open = false ->
         storage.S3Storage_Reader ss path (mkWorld (disk w1) objects flt)
         = (Ok (mkReadSeeker body 0 flt), mkWorld (disk w1) objects flt).
Proof.
  intros Hop Hget Hmk Hcr Hwr Hsk Hnone Hobj.
  eexists. split; [by apply Reader_S3_fetch|].
  split; [done|]. split; [done|].
  intros objects flt Hflt. apply Reader_S3_cached; [done|].
  cbn [disk with_disk]. apply lookup_insert_eq.
Qed.

Lemma X8_Reader_fetches_once_witness :
  let ss := storage.mkS3Storage "cache" "bucket" in
  let w := mkWorld ∅ [("bucket", "root/topic/000000000000.record-batch", [x01; x02])]%string
             no_faults in
  exists w1,
    storage.S3Storage_Reader ss "root/topic/000000000000.record-batch" w
    = (Ok (mkReadSeeker [x01; x02] 0 (faults w)), w1)
    /\ disk w1
       = <[storage.recordBatchCachePath ss "root/topic/000000000000.record-batch"
           := [x01; x02]]> (disk w)
    /\ s3_objects w1 = s3_objects w
    /\ forall objects flt,
         flt sys_open = false ->
         storage.S3Storage_Reader ss "root/topic/000000000000.record-batch"
           (mkWorld (disk w1) objects flt)
         = (Ok (mkReadSeeker [x01; x02] 0 flt), mkWorld (disk w1) objects flt).
Proof.
  intros ss w.
  apply (X8_Reader_fetches_once ss "root/topic/000000000000.record-batch" w [x01; x02]);
    reflexivity.
Defined.

(** X9: a record whose batch file is neither in the cache nor in the
    bucket.  For a record ID below [nextRecordID], when opening files and
    [GetObject] work but the file of the batch that the scan picks exists
    in neither place, [ReadRecord] returns the object store's missing-key
    error and leaves the disk, in particular the cache, and the bucket as
    they were: no empty cache file is created. *)
Theorem X9_ReadRecord_missing_batch (ext : string) (recordID : Z)
    (s : storage.Storage storage.S3Storage) (w : World) :
  recordID < storage.nextRecordID s ->
  faults w sys_open = false -> faults w call_GetObject = false ->
  let path := storage.recordBatchPath ext (storage.topicPath s)
                (storage.find_batch (rev (storage.recordBatchIDs s)) recordID) in
  disk w !! storage.recordBatchCachePath (storage.backingStorage s) path = None ->
  s3_lookup (storage.bucketName (storage.backingStorage s)) path (s3_objects w) = None ->
  storage.ReadRecord ext recordID (s, w) = (Err ErrNoSuchKey, (s, w)).
Proof.
  intros Hlt Hop Hget path Hnone Hobj. unfold storage.ReadRecord.
  destruct (storage.nextRecordID s <=? recordID) eqn:E; [lia|].
  cbn [storage.bs_Reader storage.S3Storage_BackingStorage].
  fold path. unfold storage.S3Storage_Reader, storage.os_Open, s3_GetObject.
  by rewrite Hop, Hnone, Hget, Hobj.
Qed.

Lemma X9_ReadRecord_missing_batch_witness :
  let s := storage.mkStorage "root/topic" 3 [0] (storage.mkS3Storage "cache" "bucket") in
  storage.ReadRecord ".record-batch" 1 (s, empty_world) = (Err ErrNoSuchKey, (s, empty_world)).
Proof.
  intros s.
  apply (X9_ReadRecord_missing_batch ".record-batch" 1 s empty_world); reflexivity.
Defined.




(** ** What [AddRecordBatch] leaves in the bucket *)

Lemma write_records_wrote_any (swc : storage.s3WriteCloser) (w : World) (path : string)
    (c : list byte) (records : list (list byte)) :
  exists c',
    fst (recordbatch.write_records (wrote swc w path c) records) = wrote swc w path c'
    /\ c' `prefix_of` c ++ concat records.
Proof.
  revert c. induction records as [|r rs IH]; intros c.
  - exists c. cbn. split; [done|]. by exists [].
  - cbn [recordbatch.write_records concat]. rewrite io_Write_wrote.
    destruct (faults w (sys_write (len c))).
    + exists c. split; [done|]. by eexists.
    + destruct (IH (c ++ r)) as (c' & Hc' & Hpre). exists c'.
      split; [done|]. by rewrite app_assoc.
Qed.

Lemma Write_wrote_any (now : Z) (swc : storage.s3WriteCloser) (w : World) (path : string)
    (records : list (list byte)) :
  exists c',
    fst (recordbatch.Write now (wrote swc w path []) records) = wrote swc w path c'
    /\ c' `prefix_of` batch_file now records.
Proof.
  unfold recordbatch.Write. rewrite io_Write_wrote.
  destruct (faults w (sys_write (len []))).
  { exists []. split; [done|]. by eexists. }
  rewrite io_Write_wrote.
  destruct (faults w (sys_write _)).
  { eexists. split; [done|]. unfold batch_file. cbn [app]. by eexists. }
  destruct (write_records_wrote_any swc w path
              (([] ++ recordbatch.put_Header
                        (recordbatch.mkHeader recordbatch.FileFormatMagicBytes
                           recordbatch.FileFormatVersion now (uint32 (len records))
                           (replicate 14 x00)))
               ++ put_uint32s (recordbatch.recordIndexes 0 records)) records)
    as (c' & Hc' & Hpre).
  exists c'. split; [done|]. unfold batch_file. by rewrite <- !app_assoc in Hpre.
Qed.

Lemma Close_wrote (swc : storage.s3WriteCloser) (w : World) (path : string)
    (c : list byte) :
  faults w sys_seek = false -> faults w call_PutObject = false ->
  snd (snd (storage.s3WriteCloser_Close (wrote swc w path c)))
  = with_objects (with_disk w (<[path := c]> (disk w)))
      (s3_store (storage.swc_bucket swc) (storage.swc_key swc) c (s3_objects w)).
Proof.
  intros Hsk Hput. unfold storage.s3WriteCloser_Close, wrote, file_Seek.
  cbn [storage.with_f storage.swc_f storage.swc_bucket storage.swc_key
       f_closed f_path f_pos faults with_disk orb].
  rewrite Hsk. unfold s3_PutObject_file, file_contents.
  cbn [faults disk s3_objects with_disk f_path f_pos]. rewrite Hput.
  rewrite lookup_insert_eq. cbn [default Z.to_nat drop].
  destruct (file_Close _ _) as [[e|] f']; done.
Qed.

Lemma AddRecordBatch_S3_world (ext : string) (now : Z) (records : list (list byte))
    (s : storage.Storage storage.S3Storage) (w : World) :
  faults w sys_mkdir = false -> faults w sys_create = false ->
  disk w !! cache_path ext s (storage.nextRecordID s) = None ->
  faults w sys_seek = false -> faults w call_PutObject = false ->
  exists part,
    part `prefix_of` batch_file now records
    /\ snd (snd (storage.AddRecordBatch ext now records (s, w)))
       = with_objects
           (with_disk w (<[cache_path ext s (storage.nextRecordID s) := part]> (disk w)))
           (s3_store (storage.bucketName (storage.backingStorage s))
              (storage.recordBatchPath ext (storage.topicPath s) (storage.nextRecordID s))
              part (s3_objects w))
    /\ (fst (storage.AddRecordBatch ext now records (s, w)) = None ->
        part = batch_file now records)
    /\ (fst (storage.AddRecordBatch ext now records (s, w)) <> None ->
        fst (snd (storage.AddRecordBatch ext now records (s, w))) = s).
Proof.
  intros Hmk Hcr Hnone Hsk Hput. unfold storage.AddRecordBatch.
  cbn [storage.bs_Writer storage.bs_Close storage.bs_Write storage.S3Storage_BackingStorage].
  unfold storage.S3Storage_Writer, storage.filey_Exists, storage.createCacheFile,
    os_MkdirAll, os_Create.
  unfold cache_path in *. rewrite Hnone, Hmk, Hcr.
  rewrite bool_decide_eq_false_2 by (intros [? ?]; done).
  set (path := storage.recordBatchCachePath _ _) in *.
  set (swc := storage.mkS3WriteCloser _ _ _).
  change (swc, with_disk w (<[path:=[]]> (disk w))) with (wrote swc w path []).
  destruct (Write_wrote_any now swc w path records) as (part & Hpart & Hpre).
  exists part. split; [exact Hpre|].
  pose proof (Close_wrote swc w path part Hsk Hput) as Hclose.
  destruct (recordbatch.Write now (wrote swc w path []) records) as [st1 [e|]] eqn:HW;
    cbn [fst] in Hpart; subst st1.
  - destruct (storage.s3WriteCloser_Close _) as [er [swc2 w2]]. cbn [snd fst] in *.
    split; [exact Hclose|]. split; [done|]. done.
  - apply Write_wrote in HW. 
    assert (part = batch_file now records) as ->.
    { unfold wrote in HW. injection HW as _ Hd.
      apply (f_equal (fun d => d !! path)) in Hd.
      rewrite !lookup_insert_eq in Hd. by injection Hd. }
    destruct (storage.s3WriteCloser_Close _) as [er [swc2 w2]]. cbn [snd fst] in *.
    split; [exact Hclose|]. split; [done|]. done.
Qed.

Lemma AddRecordBatch_S3_past_Writer (ext : string) (now : Z) (records : list (list byte))
    (s s' : storage.Storage storage.S3Storage) (w w' : World) :
  storage.AddRecordBatch ext now records (s, w) = (None, (s', w')) ->
  faults w sys_mkdir = false /\ faults w sys_create = false.
Proof.
  unfold storage.AddRecordBatch.
  cbn [storage.bs_Writer storage.bs_Close storage.bs_Write storage.S3Storage_BackingStorage].
  unfold storage.S3Storage_Writer, storage.createCacheFile, os_MkdirAll, os_Create.
  destruct (storage.filey_Exists _ _); [done|].
  destruct (faults w sys_mkdir); [done|].
  destruct (faults w sys_create); done.
Qed.

Lemma AddRecordBatch_S3_exists (ext : string) (now : Z) (records : list (list byte))
    (s : storage.Storage storage.S3Storage) (w : World) (c : list byte) :
  disk w !! cache_path ext s (storage.nextRecordID s) = Some c ->
  storage.AddRecordBatch ext now records (s, w) = (Some ErrFileAlreadyExists, (s, w)).
Proof.
  intros Hsome. unfold storage.AddRecordBatch.
  cbn [storage.bs_Writer storage.S3Storage_BackingStorage].
  unfold storage.S3Storage_Writer, storage.filey_Exists. unfold cache_path in Hsome.
  rewrite Hsome. by rewrite bool_decide_eq_true_2 by (by eexists).
Qed.

Lemma AddRecordBatch_S3_cache_file (ext : string) (now : Z) (records : list (list byte))
    (s : storage.Storage storage.S3Storage) (w : World) :
  faults w sys_mkdir = false -> faults w sys_create = false ->
  disk w !! cache_path ext s (storage.nextRecordID s) = None ->
  exists part,
    part `prefix_of` batch_file now records
    /\ disk (snd (snd (storage.AddRecordBatch ext now records (s, w))))
       = <[cache_path ext s (storage.nextRecordID s) := part]> (disk w).
Proof.
  intros Hmk Hcr Hnone. unfold storage.AddRecordBatch.
  cbn [storage.bs_Writer storage.bs_Close storage.bs_Write storage.S3Storage_BackingStorage].
  unfold storage.S3Storage_Writer, storage.filey_Exists, storage.createCacheFile,
    os_MkdirAll, os_Create.
  unfold cache_path in *. rewrite Hnone, Hmk, Hcr.
  rewrite bool_decide_eq_false_2 by (intros [? ?]; done).
  set (path := storage.recordBatchCachePath _ _) in *.
  set (swc := storage.mkS3WriteCloser _ _ _).
  change (swc, with_disk w (<[path:=[]]> (disk w))) with (wrote swc w path []).
  destruct (Write_wrote_any now swc w path records) as (part & Hpart & Hpre).
  exists part. split; [exact Hpre|].
  pose proof (Close_frame (wrote swc w path part)) as [Hd _].
  destruct (recordbatch.Write now (wrote swc w path []) records) as [st1 [e|]];
    cbn [fst] in Hpart; subst st1;
    destruct (storage.s3WriteCloser_Close _) as [er [swc2 w2]]; cbn [snd fst] in *;
    rewrite Hd; unfold wrote; cbn [snd disk with_disk]; done.
Qed.

(** X11: a successful [AddRecordBatch] on the object-store backing writes
    through to the bucket.  When it returns [nil] and neither the seek nor
    the upload of its deferred [Close] fails, the bucket holds the complete
    batch file (header, index, records) under the key [recordBatchPath] of
    the batch, in the bucket of the backing; no other object has been
    added, replaced or removed. *)
Theorem X11_AddRecordBatch_uploads (ext : string) (now : Z) (records : list (list byte))
    (s s' : storage.Storage storage.S3Storage) (w w' : World) :
  storage.AddRecordBatch ext now records (s, w) = (None, (s', w')) ->
  faults w sys_seek = false -> faults w call_PutObject = false ->
  let bucket := storage.bucketName (storage.backingStorage s) in
  let key := storage.recordBatchPath ext (storage.topicPath s) (storage.nextRecordID s) in
  s3_lookup bucket key (s3_objects w') = Some (batch_file now records)
  /\ forall b k, (b, k) <> (bucket, key) ->
       s3_lookup b k (s3_objects w') = s3_lookup b k (s3_objects w).
Proof.
  intros Hadd Hsk Hput bucket key.
  destruct (AddRecordBatch_S3_past_Writer _ _ _ _ _ _ _ Hadd) as [Hmk Hcr].
  destruct (AddRecordBatch_S3_success _ _ _ _ _ _ _ Hadd) as (Hnone & _).
  destruct (AddRecordBatch_S3_world ext now records s w Hmk Hcr Hnone Hsk Hput)
    as (part & _ & Hw & Hfull & _).
  rewrite Hadd in Hw, Hfull. cbn [fst snd] in Hw, Hfull.
  rewrite (Hfull eq_refl) in Hw. subst w'. cbn [s3_objects with_objects].
  split; [apply s3_lookup_store|]. intros b k Hne. by apply s3_lookup_store_ne.
Qed.

Lemma X11_AddRecordBatch_uploads_witness :
  let ext := ".record-batch"%string in
  let s := storage.mkStorage "root/topic" 0 [] (storage.mkS3Storage "cache" "bucket") in
  let records := [[x01]; [x02; x03]] in
  exists s' w',
    storage.AddRecordBatch ext 7 records (s, empty_world) = (None, (s', w'))
    /\ s3_lookup "bucket" "root/topic/000000000000.record-batch" (s3_objects w')
       = Some (batch_file 7 records)
    /\ forall b k, (b, k) <> ("bucket", "root/topic/000000000000.record-batch")%string ->
         s3_lookup b k (s3_objects w') = s3_lookup b k (s3_objects empty_world).
Proof.
  intros ext s records.
  destruct (storage.AddRecordBatch ext 7 records (s, empty_world)) as [[e|] [s' w']] eqn:Hadd;
    [vm_compute in Hadd; discriminate|].
  exists s', w'. split; [reflexivity|].
  apply (X11_AddRecordBatch_uploads ext 7 records s s' empty_world w' Hadd); reflexivity.
Defined.

(** X12: a failed write still uploads.  When [AddRecordBatch] on the
    object-store backing got as far as creating the cache file and then
    returns an error, the coordinator is unchanged, but the deferred
    [Close] has run: if its seek and its upload do not fail, the bucket
    holds, under the key of the batch, the bytes written before the
    failure, a prefix of the batch file, and the cache file holds the same
    bytes. *)
Theorem X12_failed_write_uploads_prefix (ext : string) (now : Z)
    (records : list (list byte)) (s s' : storage.Storage storage.S3Storage)
    (w w' : World) (e : error) :
  faults w sys_mkdir = false -> faults w sys_create = false ->
  disk w !! cache_path ext s (storage.nextRecordID s) = None ->
  faults w sys_seek = false -> faults w call_PutObject = false ->
  storage.AddRecordBatch ext now records (s, w) = (Some e, (s', w')) ->
  s' = s
  /\ exists part,
       part `prefix_of` batch_file now records
       /\ s3_lookup (storage.bucketName (storage.backingStorage s))
            (storage.recordBatchPath ext (storage.topicPath s) (storage.nextRecordID s))
            (s3_objects w') = Some part
       /\ disk w' !! cache_path ext s (storage.nextRecordID s) = Some part.
Proof.
  intros Hmk Hcr Hnone Hsk Hput Hadd.
  destruct (AddRecordBatch_S3_world ext now records s w Hmk Hcr Hnone Hsk Hput)
    as (part & Hpre & Hw & _ & Hs).
  rewrite Hadd in Hw, Hs. cbn [fst snd] in Hw, Hs.
  split; [by apply Hs|]. exists part. split; [exact Hpre|]. subst w'.
  cbn [s3_objects disk with_objects with_disk].
  split; [apply s3_lookup_store|apply lookup_insert_eq].
Qed.

Lemma X12_failed_write_uploads_prefix_witness :
  let ext := ".record-batch"%string in
  let s := storage.mkStorage "root/topic" 0 [] (storage.mkS3Storage "cache" "bucket") in
  let w := with_faults empty_world
             (fun c => match c with sys_write 32 => true | _ => false end) in
  exists e s' w',
    storage.AddRecordBatch ext 7 [[x01]; [x02; x03]] (s, w) = (Some e, (s', w'))
    /\ s' = s
    /\ exists part,
         part `prefix_of` batch_file 7 [[x01]; [x02; x03]]
         /\ s3_lookup "bucket" "root/topic/000000000000.record-batch" (s3_objects w')
            = Some part
         /\ disk w' !! cache_path ext s 0 = Some part.
Proof.
  intros ext s w.
  destruct (storage.AddRecordBatch ext 7 [[x01]; [x02; x03]] (s, w))
    as [[e|] [s' w']] eqn:Hadd; [|vm_compute in Hadd; discriminate].
  exists e, s', w'. split; [reflexivity|].
  apply (X12_failed_write_uploads_prefix ext 7 [[x01]; [x02; x03]] s s' w w' e);
    [reflexivity..|exact Hadd].
Defined.

(** X13: a failed write blocks the topic.  When [AddRecordBatch] on the
    object-store backing got as far as creating the cache file and then
    returns an error, the cache file stays and [nextRecordID] has not
    moved, so every later [AddRecordBatch] on this coordinator, whatever
    the records and whether or not any I/O fails, finds the file, returns
    the file-exists error and changes nothing. *)
Theorem X13_failed_write_blocks_retries (ext : string) (now : Z)
    (records : list (list byte)) (s s' : storage.Storage storage.S3Storage)
    (w w' : World) (e : error) :
  faults w sys_mkdir = false -> faults w sys_create = false ->
  disk w !! cache_path ext s (storage.nextRecordID s) = None ->
  storage.AddRecordBatch ext now records (s, w) = (Some e, (s', w')) ->
  forall now2 records2 flt,
    storage.AddRecordBatch ext now2 records2 (s', with_faults w' flt)
    = (Some ErrFileAlreadyExists, (s', with_faults w' flt)).
Proof.
  intros Hmk Hcr Hnone Hadd now2 records2 flt.
  destruct (AddRecordBatch_S3_cache_file ext now records s w Hmk Hcr Hnone)
    as (part & _ & Hd).
  pose proof (AddRecordBatch_state ext now records s w) as Hst.
  rewrite Hadd in Hd, Hst. cbn [fst snd] in Hd, Hst.
  destruct Hst as [(e' & _ & ->)|[Hn _]]; [|done].
  apply (AddRecordBatch_S3_exists ext now2 records2 s (with_faults w' flt) part).
  cbn [disk with_faults]. rewrite Hd. apply lookup_insert_eq.
Qed.

Lemma X13_failed_write_blocks_retries_witness :
  let ext := ".record-batch"%string in
  let s := storage.mkStorage "root/topic" 0 [] (storage.mkS3Storage "cache" "bucket") in
  let w := with_faults empty_world
             (fun c => match c with sys_write 32 => true | _ => false end) in
  exists e s' w',
    storage.AddRecordBatch ext 7 [[x01]; [x02; x03]] (s, w) = (Some e, (s', w'))
    /\ forall now2 records2 flt,
         storage.AddRecordBatch ext now2 records2 (s', with_faults w' flt)
         = (Some ErrFileAlreadyExists, (s', with_faults w' flt)).
Proof.
  intros ext s w.
  destruct (storage.AddRecordBatch ext 7 [[x01]; [x02; x03]] (s, w))
    as [[e|] [s' w']] eqn:Hadd; [|vm_compute in Hadd; discriminate].
  exists e, s', w'. split; [reflexivity|].
  apply (X13_failed_write_blocks_retries ext 7 [[x01]; [x02; x03]] s s' w w' e);
    [reflexivity..|exact Hadd].
Defined.

(** X14: an empty batch blocks the topic.  After [AddRecordBatch] with no
    records has returned [nil] on the object-store backing, [nextRecordID]
    is what it was, so the next batch gets the same ID and the same file
    name: every later [AddRecordBatch] on this coordinator, whatever the
    records, returns the file-exists error and changes nothing. *)
Theorem X14_empty_batch_blocks_topic (ext : string) (now : Z)
    (s s' : storage.Storage storage.S3Storage) (w w' : World) :
  0 <= storage.nextRecordID s < 2 ^ 64 ->
  storage.AddRecordBatch ext now [] (s, w) = (None, (s', w')) ->
  storage.nextRecordID s' = storage.nextRecordID s
  /\ forall now2 records2 flt,
       storage.AddRecordBatch ext now2 records2 (s', with_faults w' flt)
       = (Some ErrFileAlreadyExists, (s', with_faults w' flt)).
Proof.
  intros Hrange Hadd.
  apply AddRecordBatch_S3_success in Hadd as (_ & -> & Hd & _).
  assert (Hn : uint64 (storage.nextRecordID s + uint64 (len ([] : list (list byte))))
               = storage.nextRecordID s).
  { change (len ([] : list (list byte))) with 0. rewrite (uint64_small 0) by lia.
    rewrite Z.add_0_r. by apply uint64_small. }
  cbn [storage.nextRecordID]. split; [exact Hn|].
  intros now2 records2 flt.
  apply (AddRecordBatch_S3_exists ext now2 records2 _ (with_faults w' flt) (batch_file now [])).
  cbn [disk with_faults storage.nextRecordID]. rewrite Hd, Hn.
  unfold cache_path. cbn [storage.backingStorage storage.topicPath].
  apply lookup_insert_eq.
Qed.

Lemma X14_empty_batch_blocks_topic_witness :
  let ext := ".record-batch"%string in
  let s := storage.mkStorage "root/topic" 0 [] (storage.mkS3Storage "cache" "bucket") in
  exists s' w',
    storage.AddRecordBatch ext 7 [] (s, empty_world) = (None, (s', w'))
    /\ storage.nextRecordID s' = storage.nextRecordID s
    /\ forall now2 records2 flt,
         storage.AddRecordBatch ext now2 records2 (s', with_faults w' flt)
         = (Some ErrFileAlreadyExists, (s', with_faults w' flt)).
Proof.
  intros ext s.
  destruct (storage.AddRecordBatch ext 7 [] (s, empty_world)) as [[e|] [s' w']] eqn:Hadd;
    [vm_compute in Hadd; discriminate|].
  exists s', w'. split; [reflexivity|].
  apply (X14_empty_batch_blocks_topic ext 7 s s' empty_world w'); [cbn; lia|exact Hadd].
Defined.

(** ** The bucket after a sequence of calls *)

Lemma bucket_of_snoc (ext bucket tp : string) (first : Z) (calls : list call) (c : call) :
  bucket_of ext bucket tp first (calls ++ [c])
  = bucket_of ext bucket tp first calls
    ++ [(bucket, storage.recordBatchPath ext tp (first + len (all_records calls)),
         batch_file (c_now c) (c_records c))].
Proof.
  revert first. induction calls as [|x xs IH]; intros first.
  - cbn. by rewrite Z.add_0_r.
  - cbn [bucket_of app]. rewrite IH. unfold all_records. cbn [map concat].
    by rewrite len_app, Z.add_assoc.
Qed.

Lemma bucket_of_keys (ext bucket tp : string) (first : Z) (calls : list call) :
  map (fun o => snd (fst o)) (bucket_of ext bucket tp first calls)
  = map (storage.recordBatchPath ext tp) (batch_ids first (map c_records calls)).
Proof.
  revert first. induction calls as [|c rest IH]; intros first; [done|].
  cbn [bucket_of map batch_ids fst snd]. by rewrite IH.
Qed.


Lemma s3_store_fresh (bucket key : string) (body : list byte)
    (os : list (string * string * list byte)) :
  Forall (fun o => snd (fst o) <> key) os ->
  s3_store bucket key body os = os ++ [(bucket, key, body)].
Proof.
  induction 1 as [|o os Ho _ IH]; [done|].
  cbn [s3_store app].
  assert (E : s3_key_eqb bucket key o = false).
  { apply s3_key_eqb_false. congruence. }
  by rewrite E, IH.
Qed.

Lemma InvB_fresh (ext : string) (s : storage.Storage storage.S3Storage) (w : World) :
  storage.recordBatchIDs s = [] -> s3_objects w = [] -> InvB ext [] s w.
Proof.
  intros HI HO. unfold InvB. rewrite HI, HO. split; [done|]. intros k id c Hk. done.
Qed.

Lemma InvB_step (ext : string) (calls : list call) (c : call)
    (s s' : storage.Storage storage.S3Storage) (w w' : World) :
  Inv ext calls s w -> InvB ext calls s w ->
  storage.AddRecordBatch ext (c_now c) (c_records c) (s, with_faults w (c_faults c))
  = (None, (s', w')) ->
  uploads c ->
  InvB ext (calls ++ [c]) s' w'.
Proof.
  intros (HI & HN & HD) (HO & HL) Hadd [Hsk Hput].
  destruct (AddRecordBatch_S3_past_Writer _ _ _ _ _ _ _ Hadd) as [Hmk Hcr].
  destruct (AddRecordBatch_S3_success _ _ _ _ _ _ _ Hadd) as (Hnone & Hs' & _).
  destruct (AddRecordBatch_S3_world ext (c_now c) (c_records c) s
              (with_faults w (c_faults c)) Hmk Hcr Hnone Hsk Hput)
    as (part & _ & Hw & Hfull & _).
  rewrite Hadd in Hw, Hfull. cbn [fst snd] in Hw, Hfull.
  rewrite (Hfull eq_refl) in Hw. clear Hfull part.
  cbn [disk with_faults] in Hnone.
  assert (Hlen : length (storage.recordBatchIDs s) = length calls).
  { by rewrite HI, length_batch_ids, length_map. }
  assert (Hold : forall k id c',
             storage.recordBatchIDs s !! k = Some id -> calls !! k = Some c' ->
             storage.recordBatchPath ext (storage.topicPath s) id
             <> storage.recordBatchPath ext (storage.topicPath s) (storage.nextRecordID s)).
  { intros k id c' Hk Hc' E. pose proof (HD k id c' Hk Hc') as Hsome.
    unfold cache_path in Hsome, Hnone. rewrite E in Hsome. congruence. }
  subst s' w'. unfold InvB.
  cbn [storage.recordBatchIDs storage.backingStorage storage.topicPath
       s3_objects with_objects with_disk with_faults].
  split.
  - rewrite bucket_of_snoc, Z.add_0_l, <- HN, <- HO.
    apply s3_store_fresh. rewrite HO.
    apply Forall_forall. intros o Ho.
    apply list_elem_of_lookup_1 in Ho as [k Hk].
    assert (Hkey : map (fun o => snd (fst o))
                     (bucket_of ext (storage.bucketName (storage.backingStorage s))
                        (storage.topicPath s) 0 calls) !! k = Some (snd (fst o))).
    { by rewrite list_lookup_fmap, Hk. }
    rewrite bucket_of_keys, <- HI, list_lookup_fmap in Hkey.
    destruct (storage.recordBatchIDs s !! k) as [id|] eqn:Hid; [|done].
    cbn in Hkey. injection Hkey as <-.
    apply lookup_lt_Some in Hid as Hlt. rewrite Hlen in Hlt.
    apply lookup_lt_is_Some_2 in Hlt as [c' Hc'].
    by apply (Hold k id c').
  - intros k id c' Hk Hc'.
    destruct (decide (k < length calls)%nat) as [Hlt'|Hge].
    + rewrite lookup_app_l in Hk by lia. rewrite lookup_app_l in Hc' by lia.
      rewrite s3_lookup_store_ne; [by apply (HL k)|].
      intros [= E]. by apply (Hold k id c' Hk Hc').
    + apply lookup_lt_Some in Hk as Hk'. rewrite length_app in Hk'. cbn in Hk'.
      assert (k = length calls) as -> by lia.
      rewrite list_lookup_middle in Hc' by done. injection Hc' as <-.
      rewrite list_lookup_middle in Hk by done. injection Hk as <-.
      apply s3_lookup_store.
Qed.

Lemma add_all_InvB (ext : string) (calls2 calls1 : list call)
    (s s' : storage.Storage storage.S3Storage) (w w' : World) :
  Inv ext calls1 s w -> InvB ext calls1 s w ->
  add_all ext calls2 (s, w) = Some (s', w') ->
  Forall uploads calls2 ->
  len (all_records (calls1 ++ calls2)) < 2 ^ 64 ->
  InvB ext (calls1 ++ calls2) s' w'.
Proof.
  revert calls1 s w. induction calls2 as [|c rest IH];
    intros calls1 s w HInv HInvB Hrun Hup Hlt.
  - cbn in Hrun. injection Hrun as <- <-. by rewrite app_nil_r.
  - cbn [add_all fst snd] in Hrun.
    destruct (storage.AddRecordBatch _ _ _ _) as [[e|] [s1 w1]] eqn:Hadd; [done|].
    assert (Hsplit : calls1 ++ c :: rest = (calls1 ++ [c]) ++ rest)
      by (by rewrite <- app_assoc).
    rewrite Hsplit in *.
    assert (Hlt1 : len (all_records (calls1 ++ [c])) < 2 ^ 64).
    { unfold all_records in *. rewrite map_app, concat_app, len_app in Hlt.
      pose proof (len_nonneg (concat (map c_records rest))). lia. }
    apply Forall_cons in Hup as [Hc Hrest].
    destruct (Inv_step ext calls1 c s s1 w w1 HInv Hadd Hlt1) as (HInv1 & _ & _).
    pose proof (InvB_step ext calls1 c s s1 w w1 HInv HInvB Hadd Hc) as HInvB1.
    by apply (IH _ _ _ HInv1 HInvB1 Hrun Hrest).
Qed.

Lemma InvB_reached (ext : string) (input : storage.S3StorageInput) (calls : list call)
    (s0 s : storage.Storage storage.S3Storage) (w0 w : World) :
  storage.NewS3Storage ext input empty_world = (Ok s0, w0) ->
  add_all ext calls (s0, w0) = Some (s, w) ->
  Forall uploads calls ->
  len (all_records calls) < 2 ^ 64 ->
  InvB ext calls s w.
Proof.
  intros Hnew Hrun Hup Hlt. rewrite NewS3Storage_empty in Hnew. injection Hnew as <- <-.
  eapply (add_all_InvB ext calls []); [| |exact Hrun|exact Hup|exact Hlt].
  - by apply Inv_fresh.
  - by apply InvB_fresh.
Qed.

(** ** Listing the bucket *)













(** ** Constructing the coordinator over a bucket that holds batches *)


Lemma add_all_reached (ext : string) (input : storage.S3StorageInput) (calls : list call)
    (s0 s : storage.Storage storage.S3Storage) (w0 w : World) :
  storage.NewS3Storage ext input empty_world = (Ok s0, w0) ->
  add_all ext calls (s0, w0) = Some (s, w) ->
  len (all_records calls) < 2 ^ 64 ->
  Inv ext calls s w
  /\ storage.topicPath s = filepath_Join (storage.RootDir input) (storage.Topic input)
  /\ storage.backingStorage s
     = storage.mkS3Storage (storage.LocalCacheRoot input) (storage.BucketName input).
Proof.
  intros Hnew Hrun Hlt. rewrite NewS3Storage_empty in Hnew. injection Hnew as <- <-.
  refine (add_all_Inv ext calls [] _ s _ w _ Hrun Hlt). by apply Inv_fresh.
Qed.





(** ** Reading through the bucket *)

Lemma read_batch_file (now : Z) (records : list (list byte)) (j : nat) (rec : list byte) :
  batch_fits records -> records !! j = Some rec ->
  match recordbatch.Parse (mkReadSeeker (batch_file now records) 0 no_faults) with
  | Err e => Err e
  | Ok rb => fst (recordbatch.Record_ rb (uint32 (Z.of_nat j)))
  end = Ok rec.
Proof.
  intros Hfit Hj.
  destruct (Parse_batch_file now records no_faults eq_refl) as [pos HP]. rewrite HP.
  pose proof (lookup_lt_Some _ _ _ Hj) as Hjlt.
  destruct (batch_fits_bounds _ j Hfit Hjlt) as [Hp0 Hpj].
  pose proof (len_nonneg records) as Hn.
  rewrite (uint32_small (len records)) by lia.
  rewrite take_ge by (rewrite length_recordIndexes; unfold len; lia).
  rewrite (uint32_small (Z.of_nat j)) by (unfold len in *; lia).
  by rewrite (Record_batch_file _ _ no_faults pos j rec eq_refl eq_refl Hfit Hj).
Qed.

Lemma ReadRecord_fetch (ext : string) (recordID : Z)
    (s : storage.Storage storage.S3Storage) (w : World) (file : list byte) :
  recordID < storage.nextRecordID s ->
  faults w sys_open = false -> faults w call_GetObject = false ->
  faults w sys_mkdir = false -> faults w sys_create = false ->
  faults w (sys_write 0) = false -> faults w sys_seek = false ->
  disk w !! cache_path ext s
              (storage.find_batch (rev (storage.recordBatchIDs s)) recordID) = None ->
  s3_lookup (storage.bucketName (storage.backingStorage s))
    (storage.recordBatchPath ext (storage.topicPath s)
       (storage.find_batch (rev (storage.recordBatchIDs s)) recordID))
    (s3_objects w) = Some file ->
  storage.ReadRecord ext recordID (s, w)
  = (match recordbatch.Parse (mkReadSeeker file 0 (faults w)) with
     | Err e => Err e
     | Ok rb =>
         fst (recordbatch.Record_ rb
                (uint32 (recordID
                         - storage.find_batch (rev (storage.recordBatchIDs s)) recordID)))
     end,
     (s, with_disk w
           (<[cache_path ext s
                (storage.find_batch (rev (storage.recordBatchIDs s)) recordID)
              := file]> (disk w)))).
Proof.
  intros Hlt Hop Hget Hmk Hcr Hwr Hsk Hnone Hobj. unfold storage.ReadRecord.
  destruct (storage.nextRecordID s <=? recordID) eqn:E; [lia|].
  cbn [storage.bs_Reader storage.S3Storage_BackingStorage].
  unfold cache_path in *.
  rewrite (Reader_S3_fetch _ _ _ file Hop Hget Hmk Hcr Hwr Hsk Hnone Hobj).
  destruct (recordbatch.Parse _) as [rb|e]; [|done].
  destruct (recordbatch.Record_ _ _) as [[rec|e] rb']; done.
Qed.

(** X17: the records survive the loss of the local cache.  On a
    coordinator constructed over an empty bucket and cache, after a
    sequence of successful [AddRecordBatch] calls without a failing seek or
    upload in [Close], each batch fitting the format and fewer than [2^64]
    records in all: with the local cache emptied, [ReadRecord(i)] without
    I/O faults returns the [i]-th submitted record, fetched from the
    bucket; it leaves the bucket unchanged and the batch file in the
    cache, and the same read repeated returns the same record and changes
    nothing. *)
Theorem X17_read_through_bucket (ext : string) (input : storage.S3StorageInput)
    (calls : list call) (s0 s : storage.Storage storage.S3Storage) (w0 w : World)
    (i : nat) (rec : list byte) :
  storage.NewS3Storage ext input empty_world = (Ok s0, w0) ->
  add_all ext calls (s0, w0) = Some (s, w) ->
  Forall uploads calls ->
  Forall (fun c => batch_fits (c_records c)) calls ->
  len (all_records calls) < 2 ^ 64 ->
  all_records calls !! i = Some rec ->
  exists w3,
    storage.ReadRecord ext (Z.of_nat i) (s, mkWorld ∅ (s3_objects w) no_faults)
    = (Ok rec, (s, w3))
    /\ s3_objects w3 = s3_objects w
    /\ storage.ReadRecord ext (Z.of_nat i) (s, w3) = (Ok rec, (s, w3)).
Proof.
  intros Hnew Hrun Hup Hfit Hlt Hi.
  destruct (add_all_reached ext input calls s0 s w0 w Hnew Hrun Hlt) as (HInv & _ & _).
  destruct (InvB_reached ext input calls s0 s w0 w Hnew Hrun Hup Hlt) as [_ HL].
  destruct (Inv_locate ext calls s w i rec HInv Hi)
    as (k & j & c & id & Hc & Hid & Hj & Heq & Hfind & Hle & Hmax & Hdisk & Hnext).
  assert (Hfitc : batch_fits (c_records c)).
  { rewrite Forall_forall in Hfit. apply Hfit. eapply list_elem_of_lookup_2. exact Hc. }
  pose proof (read_batch_file (c_now c) (c_records c) j rec Hfitc Hj) as Hread.
  pose proof (HL k id c Hid Hc) as Hobj.
  set (w2 := mkWorld ∅ (s3_objects w) no_faults).
  exists (with_disk w2 (<[cache_path ext s id := batch_file (c_now c) (c_records c)]> (disk w2))).
  split; [|split; [done|]].
  - rewrite (ReadRecord_fetch ext (Z.of_nat i) s w2 (batch_file (c_now c) (c_records c)));
      try done; rewrite ?Hfind; try done.
    cbn [faults w2]. replace (Z.of_nat i - id) with (Z.of_nat j) by lia.
    by rewrite Hread.
  - rewrite (ReadRecord_cached ext (Z.of_nat i) s _ (batch_file (c_now c) (c_records c)));
      try done; rewrite ?Hfind; try done.
    + cbn [faults w2 with_disk]. replace (Z.of_nat i - id) with (Z.of_nat j) by lia.
      by rewrite Hread.
    + cbn [disk with_disk]. apply lookup_insert_eq.
Qed.

Lemma X17_read_through_bucket_witness :
  let ext := ".record-batch"%string in
  let input := storage.mkS3StorageInput "cache" "bucket" "root" "topic" in
  let calls := [mkCall 1 no_faults [[x00]; [x01; x01]]; mkCall 2 no_faults [[x02]]] in
  exists s0 w0 s w w3,
    storage.NewS3Storage ext input empty_world = (Ok s0, w0)
    /\ add_all ext calls (s0, w0) = Some (s, w)
    /\ storage.ReadRecord ext (Z.of_nat 2) (s, mkWorld ∅ (s3_objects w) no_faults)
       = (Ok [x02], (s, w3))
    /\ s3_objects w3 = s3_objects w
    /\ storage.ReadRecord ext (Z.of_nat 2) (s, w3) = (Ok [x02], (s, w3)).
Proof.
  intros ext input calls.
  destruct (storage.NewS3Storage ext input empty_world) as [[s0|e] w0] eqn:Hnew;
    [|vm_compute in Hnew; discriminate].
  destruct (add_all ext calls (s0, w0)) as [[s w]|] eqn:Hrun.
  - assert (Hup : Forall uploads calls) by (repeat constructor).
    assert (Hfit : Forall (fun c => batch_fits (c_records c)) calls) by (repeat constructor).
    assert (Hlt : len (all_records calls) < 2 ^ 64) by (vm_compute; reflexivity).
    destruct (X17_read_through_bucket ext input calls s0 s w0 w 2 [x02]
                Hnew Hrun Hup Hfit Hlt eq_refl) as (w3 & H1 & H2 & H3).
    exists s0, w0, s, w, w3. split; [reflexivity|]. split; [exact Hrun|]. done.
  - exfalso. rewrite NewS3Storage_empty in Hnew. injection Hnew as <- <-.
    vm_compute in Hrun. discriminate.
Defined.

(** ** Bytes after the last record *)

Lemma Parse_batch_file_app (now : Z) (records : list (list byte)) (extra : list byte)
    (flt : fault_plan) :
  flt sys_read = false ->
  exists pos,
    recordbatch.Parse (mkReadSeeker (batch_file now records ++ extra) 0 flt)
    = Ok (recordbatch.mkRecordBatch (written_header now records)
            (take (Z.to_nat (uint32 (len records))) (recordbatch.recordIndexes 0 records))
            (mkReadSeeker (batch_file now records ++ extra) pos flt)).
Proof.
  intros Hrd.
  assert (Hlen : len (batch_file now records ++ extra)
                 = 32 + 4 * len records + len (concat records) + len extra).
  { by rewrite len_app, len_batch_file. }
  pose proof (uint32_range (len records)) as Hr.
  pose proof (uint32_le (len records) (len_nonneg _)) as Hle.
  pose proof (len_nonneg (concat records)) as Hc.
  pose proof (len_nonneg extra) as He.
  unfold recordbatch.Parse.
  rewrite io_ReadFull_ok by (done || unfold recordbatch.headerBytes; lia).
  assert (Htake : take (Z.to_nat recordbatch.headerBytes)
                    (drop (Z.to_nat 0) (batch_file now records ++ extra))
                  = recordbatch.put_Header
                      (recordbatch.mkHeader recordbatch.FileFormatMagicBytes
                         recordbatch.FileFormatVersion now (uint32 (len records))
                         (replicate 14 x00))).
  { change (Z.to_nat 0) with 0%nat. rewrite drop_0. unfold batch_file.
    rewrite <- app_assoc. apply take_app_length'. by rewrite length_put_Header. }
  rewrite Htake. fold (written_header now records).
  rewrite NumRecords_written_header. unfold recordbatch.recordIndexSize.
  destruct (decide (uint32 (len records) = 0)) as [Hz|Hz].
  - rewrite Hz. eexists. reflexivity.
  - rewrite io_ReadFull_ok by (done || unfold recordbatch.headerBytes; lia).
    eexists. do 2 f_equal.
    assert (Hdrop : drop (Z.to_nat (0 + recordbatch.headerBytes))
                      (batch_file now records ++ extra)
                    = put_uint32s (recordbatch.recordIndexes 0 records)
                      ++ concat records ++ extra).
    { unfold batch_file. rewrite <- !app_assoc.
      apply drop_app_length'. by rewrite length_put_Header. }
    rewrite Hdrop.
    rewrite take_app_le
      by (rewrite length_put_uint32s, length_recordIndexes; unfold len in *; lia).
    rewrite Z2Nat.inj_mul by lia. change (Z.to_nat 4) with 4%nat.
    rewrite get_uint32s_put_take
      by (rewrite length_recordIndexes; unfold len in *; lia).
    by rewrite map_uint32_recordIndexes.
Qed.

Lemma drop_batch_file_app (now : Z) (records : list (list byte)) (extra : list byte)
    (i : nat) (rec : list byte) :
  records !! i = Some rec ->
  drop (Z.to_nat (32 + 4 * len records + payload_offset records i))
    (batch_file now records ++ extra)
  = rec ++ concat (drop (S i) records) ++ extra.
Proof.
  intros Hi. rewrite drop_app_le.
  - rewrite (drop_batch_file now records i rec Hi). by rewrite <- app_assoc.
  - pose proof (len_batch_file now records) as Hlen.
    pose proof (payload_offset_nonneg records i).
    pose proof (len_nonneg records).
    assert (payload_offset records i <= len (concat records)).
    { rewrite (concat_split _ _ _ Hi), !len_app. unfold payload_offset.
      pose proof (len_nonneg rec). pose proof (len_nonneg (concat (drop (S i) records))).
      lia. }
    unfold len in *. lia.
Qed.

Lemma Record_batch_file_app (now : Z) (records : list (list byte)) (extra : list byte)
    (flt : fault_plan) (pos : Z) (i : nat) (rec : list byte) :
  flt sys_read = false -> flt sys_seek = false ->
  batch_fits records -> records !! i = Some rec ->
  fst (recordbatch.Record_
         (recordbatch.mkRecordBatch (written_header now records)
            (recordbatch.recordIndexes 0 records)
            (mkReadSeeker (batch_file now records ++ extra) pos flt)) (Z.of_nat i))
  = Ok (if decide (S i = length records) then rec ++ extra else rec).
Proof.
  intros Hrd Hsk Hfit Hi.
  pose proof (lookup_lt_Some _ _ _ Hi) as Hlt.
  destruct (batch_fits_bounds records i Hfit Hlt) as [Hp0 Hpi].
  pose proof (len_nonneg records) as Hn.
  pose proof (len_nonneg rec) as Hrec.
  pose proof (len_nonneg extra) as Hex.
  pose proof (payload_offset_S _ _ _ Hi) as HS.
  assert (HN : uint32 (len records) = len records) by (apply uint32_small; lia).
  unfold recordbatch.Record_.
  cbn [recordbatch.rb_Header recordbatch.recordIndex recordbatch.rdr].
  rewrite NumRecords_written_header, HN.
  destruct (len records <=? Z.of_nat i) eqn:E0; [unfold len in *; lia|].
  rewrite Nat2Z.id, recordIndexes_0_lookup by done.
  rewrite (uint32_small (payload_offset records i)) by lia.
  unfold recordbatch.headerBytes, recordbatch.recordIndexSize.
  rewrite (uint32_small (len records * 4)) by lia.
  rewrite (uint32_small (32 + len records * 4)) by lia.
  rewrite (uint32_small (32 + len records * 4 + payload_offset records i)) by lia.
  rewrite rs_Seek_ok by (done || lia).
  replace (32 + len records * 4 + payload_offset records i)
    with (32 + 4 * len records + payload_offset records i) by lia.
  replace (len (recordbatch.recordIndexes 0 records)) with (len records)
    by (unfold len; by rewrite length_recordIndexes).
  rewrite (uint32_small (len records - 1)) by (unfold len in *; lia).
  unfold recordbatch.with_rdr. cbn [recordbatch.rb_Header recordbatch.recordIndex].
  pose proof (drop_batch_file_app now records extra i rec Hi) as Hdrop.
  pose proof (len_batch_file now records) as Hlen.
  assert (Hcat : len (concat records)
                 = payload_offset records i + len rec + len (concat (drop (S i) records))).
  { rewrite (concat_split _ _ _ Hi), !len_app. unfold payload_offset. lia. }
  pose proof (len_nonneg (concat (drop (S i) records))) as Htail.
  destruct (Z.of_nat i =? len records - 1) eqn:E1.
  - (* the last record: read to the end of the file *)
    assert (Hnil : drop (S i) records = []).
    { apply drop_ge. unfold len in *. lia. }
    unfold io_ReadAll, rs_rest, rs_advance. cbn [rs_faults rs_pos rs_data fst].
    rewrite Hrd, Hdrop, Hnil. cbn [concat app fst].
    destruct (decide (S i = length records)) as [_|Hne]; [done|].
    unfold len in *. lia.
  - (* an earlier record: read up to the next index entry *)
    assert (Hlt' : (S i < length records)%nat) by (unfold len in *; lia).
    destruct (decide (S i = length records)) as [Heq|_]; [lia|].
    destruct (batch_fits_bounds records (S i) Hfit Hlt') as [_ HpS].
    rewrite (uint32_small (Z.of_nat i + 1)) by (unfold len in *; lia).
    replace (Z.to_nat (Z.of_nat i + 1)) with (S i) by lia.
    rewrite recordIndexes_0_lookup by done.
    rewrite (uint32_small (payload_offset records (S i))) by lia.
    replace (payload_offset records (S i) - payload_offset records i) with (len rec) by lia.
    rewrite (uint32_small (len rec)) by lia.
    destruct (decide (len rec = 0)) as [Hz|Hz].
    + rewrite Hz. cbn. destruct rec; [done|unfold len in Hz; simpl in Hz; lia].
    + rewrite io_ReadFull_ok; [| done | lia | lia |].
      * rewrite Hdrop. unfold len at 1. rewrite Nat2Z.id.
        by rewrite take_app_length.
      * rewrite len_app. lia.
Qed.

(** X18: the last record has no stored length; it is whatever follows
    its offset.  When bytes are appended to a batch file that [Write]
    wrote, for records that fit the format, [Parse] still succeeds with the
    same header and index, [Record] returns every record but the last
    unchanged, and returns the last record with the appended bytes at its
    end. *)
Theorem X18_last_record_reads_to_end (now : Z) (records : list (list byte))
    (extra : list byte) (i : nat) (rec : list byte) :
  batch_fits records -> records !! i = Some rec ->
  exists file rb,
    recordbatch.Write now ([] : Buffer) records = (file, None)
    /\ recordbatch.Parse (bytes_NewReader (file ++ extra)) = Ok rb
    /\ recordbatch.rb_Header rb = written_header now records
    /\ recordbatch.recordIndex rb = recordbatch.recordIndexes 0 records
    /\ fst (recordbatch.Record_ rb (Z.of_nat i))
       = Ok (if decide (S i = length records) then rec ++ extra else rec).
Proof.
  intros Hfit Hi.
  destruct (Parse_batch_file_app now records extra no_faults eq_refl) as [pos HP].
  pose proof (lookup_lt_Some _ _ _ Hi) as Hlt.
  destruct (batch_fits_bounds records i Hfit Hlt) as [Hp0 Hpi].
  pose proof (len_nonneg records) as Hn.
  assert (Hidx : take (Z.to_nat (uint32 (len records))) (recordbatch.recordIndexes 0 records)
                 = recordbatch.recordIndexes 0 records).
  { rewrite (uint32_small (len records)) by lia.
    apply take_ge. rewrite length_recordIndexes. unfold len. lia. }
  rewrite Hidx in HP.
  eexists _, _. split; [apply Write_empty_buffer|]. split; [exact HP|].
  split; [done|]. split; [done|].
  by apply Record_batch_file_app.
Qed.

Lemma X18_last_record_reads_to_end_witness :
  exists file rb,
    recordbatch.Write 7 ([] : Buffer) [[x01]; [x02; x03]] = (file, None)
    /\ recordbatch.Parse (bytes_NewReader (file ++ [xff])) = Ok rb
    /\ recordbatch.rb_Header rb = written_header 7 [[x01]; [x02; x03]]
    /\ recordbatch.recordIndex rb = recordbatch.recordIndexes 0 [[x01]; [x02; x03]]
    /\ fst (recordbatch.Record_ rb (Z.of_nat 1))
       = Ok (if decide (2%nat = length [[x01]; [x02; x03]]) then [x02; x03] ++ [xff]
             else [x02; x03]).
Proof.
  apply (X18_last_record_reads_to_end 7 [[x01]; [x02; x03]] [xff] 1 [x02; x03]);
    [by vm_compute|reflexivity].
Defined.

(** ** Topics whose path is a prefix of another topic's path *)








